(** * P2Share: the peer registry, the wire protocol, the server and the client

    A shallow embedding of the core of P2Share
    ([peer_discovery.py], [p2p_network.py], [file_manager.py], and the
    list of peers of the window in [main.py]), the properties of its
    specification that can be settled on it, and further properties of the
    code.

    Conventions of the embedding.
    - [time.time()] is a parameter [current_time : Q] of every operation that
      reads the clock; timestamps are rationals and the subtraction of two
      timestamps is exact.
    - A Python [dict] used as a map is a [gmap]; the order of enumeration is
      the one of [map_to_list].  The dicts that travel as JSON keep their
      insertion order (association lists).
    - Every operation runs alone from start to end (the threads of the
      program are not interleaved).
    - Callbacks are recorded as events when they are installed; a callback
      never raises.  [_log] records its message, whether or not a callback
      for it is installed.
    - The operations of [P2PBluetoothNetwork] are computations on a state
      [world] that may raise.  A socket is what the remote end still has to
      deliver on it and the list of the calls made on it; [send] sends the
      whole of its argument and [connect] succeeds.
    - What [bluetooth.find_service] answers is a parameter of the operations
      that call it, and so is what [bluetooth.discover_devices] answers.
    - The probes of a scan and of a refresh run one after the other, each
      reading the clock when it runs; [running] is the number of tests of
      [is_running] that answer true.
    - The disk holds regular files under POSIX paths; SHA-256 is a
      parameter [sha256_hex]; whether the database file can be written is
      a parameter [writable] of the operations that save the catalog. *)

From Stdlib Require Import ZArith QArith Lqa Lia List Ascii String Bool.
From Stdlib Require Import DecimalPos DecimalZ.
From Stdlib Require Strings.Byte.
From stdpp Require Import base option list gmap strings.

Local Open Scope Z_scope.

(** ** Python values that the registry stores without inspecting them *)

Inductive pyval : Type :=
  | PNone
  | PInt (z : Z)
  | PStr (s : string).

(** [d.get(k, default)] *)
Definition dict_get {V} (d : gmap string V) (k : string) (default : V) : V :=
  match d !! k with
  | Some v => v
  | None => default
  end.

(** ** peer_discovery.py *)

Module Discovery.

(** [current_time - t < w], on timestamps *)
Definition elapsed_lt (current_time t w : Q) : bool :=
  negb (Qle_bool w (current_time - t)).

(** [current_time - t > w] *)
Definition elapsed_gt (current_time t w : Q) : bool :=
  negb (Qle_bool (current_time - t) w).

(** The dict [peer_info] built by [_add_peer]. *)
Record peer_info : Type := {
  address : string;
  name : string;
  port : pyval;
  service_name : pyval;
  first_seen : Q;
  last_seen : Q
}.

Inductive event : Type :=
  | on_peer_found (p : peer_info)
  | on_peer_lost (p : peer_info).

(** [BluetoothPeerDiscovery]: the two dicts, and which callbacks are
    installed.  [last_seen] is a [defaultdict(float)]. *)
Record t : Type := {
  peers : gmap string peer_info;
  last_seen_of : gmap string Q;
  has_on_peer_found : bool;
  has_on_peer_lost : bool
}.

Definition init (found lost : bool) : t :=
  {| peers := ∅; last_seen_of := ∅;
     has_on_peer_found := found; has_on_peer_lost := lost |}.

Definition with_peers (s : t) (p : gmap string peer_info) (l : gmap string Q) : t :=
  {| peers := p; last_seen_of := l;
     has_on_peer_found := has_on_peer_found s;
     has_on_peer_lost := has_on_peer_lost s |}.

(** [address.replace(':', '')] *)
Fixpoint remove_colons (s : string) : string :=
  match s with
  | EmptyString => EmptyString
  | String c r =>
      if Ascii.eqb c ":"%char then remove_colons r
      else String c (remove_colons r)
  end.

(** [name or f"Device-{address.replace(':', '')}"] *)
Definition display_name (name : option string) (address : string) : string :=
  match name with
  | Some (String c r) => String c r
  | _ => ("Device-" ++ remove_colons address)%string
  end.

(** [_add_peer(address, name, service_info)] at clock value [current_time] *)
Definition _add_peer (current_time : Q) (address : string) (name : option string)
    (service_info : gmap string pyval) (s : t) : t * list event :=
  let is_new_peer := bool_decide (peers s !! address = None) in
  let info :=
    {| address := address;
       name := display_name name address;
       port := dict_get service_info "port" (PStr "Unknown");
       service_name := dict_get service_info "name" (PStr "Unknown");
       first_seen :=
         match peers s !! address with
         | Some old => first_seen old
         | None => current_time
         end;
       last_seen := current_time |} in
  (with_peers s (<[address := info]> (peers s))
                (<[address := current_time]> (last_seen_of s)),
   if is_new_peer && has_on_peer_found s then [on_peer_found info] else []).

(** [_check_peer_service(address, name)]: [services] is what
    [bluetooth.find_service] returned ([None] when it raised). *)
Definition _check_peer_service (current_time : Q) (address : string)
    (name : option string) (services : option (list (gmap string pyval)))
    (s : t) : t * list event :=
  match services with
  | Some (service :: _) => _add_peer current_time address name service s
  | _ => (s, [])
  end.

(** One read of [self.last_seen[address]]: a missing key is created with
    the value [0.0]. *)
Definition last_seen_read (l : gmap string Q) (address : string) : Q * gmap string Q :=
  match l !! address with
  | Some v => (v, l)
  | None => (0%Q, <[address := 0%Q]> l)
  end.

(** The loop of [get_peers] over [self.peers.items()]. *)
Fixpoint get_peers_loop (current_time : Q) (items : list (string * peer_info))
    (l : gmap string Q) (active_peers : list peer_info)
    : list peer_info * gmap string Q :=
  match items with
  | [] => (active_peers, l)
  | (address, info) :: rest =>
      let '(seen, l') := last_seen_read l address in
      if elapsed_lt current_time seen 120
      then get_peers_loop current_time rest l' (active_peers ++ [info])
      else get_peers_loop current_time rest l' active_peers
  end.

(** [get_peers()] *)
Definition get_peers (current_time : Q) (s : t) : list peer_info * t :=
  let '(active, l) :=
    get_peers_loop current_time (map_to_list (peers s)) (last_seen_of s) [] in
  (active, with_peers s (peers s) l).

(** First loop of a cleanup pass: the addresses to remove. *)
Definition peers_to_remove (current_time : Q) (l : gmap string Q) : list string :=
  (map_to_list l ≫= λ '(address, last_seen_time),
     if elapsed_gt current_time last_seen_time 180 then [address] else []).

(** Second loop of a cleanup pass, one address. *)
Definition remove_peer (address : string) (acc : t * list event) : t * list event :=
  let '(s, evs) := acc in
  match peers s !! address with
  | Some info =>
      (with_peers s (delete address (peers s)) (delete address (last_seen_of s)),
       evs ++ (if has_on_peer_lost s then [on_peer_lost info] else []))
  | None => (s, evs)
  end.

(** One pass of the body of [_cleanup_loop] (the [sleep] apart). *)
Definition cleanup_pass (current_time : Q) (s : t) : t * list event :=
  foldl (λ acc address, remove_peer address acc) (s, [])
        (peers_to_remove current_time (last_seen_of s)).

(** The operations of the registry, for sequences of them. *)
Inductive op : Type :=
  | OpAdd (address : string) (name : option string) (service_info : gmap string pyval)
  | OpProbe (address : string) (name : option string)
            (services : option (list (gmap string pyval)))
  | OpGetPeers
  | OpCleanup.

Definition step (current_time : Q) (o : op) (s : t) : t * list event :=
  match o with
  | OpAdd a n si => _add_peer current_time a n si s
  | OpProbe a n sv => _check_peer_service current_time a n sv s
  | OpGetPeers => ((get_peers current_time s).2, [])
  | OpCleanup => cleanup_pass current_time s
  end.

(** A run: operations with the clock value at which each one executes. *)
Fixpoint run (ops : list (Q * op)) (s : t) : t * list event :=
  match ops with
  | [] => (s, [])
  | (now, o) :: rest =>
      let '(s', evs) := step now o s in
      let '(s'', evs') := run rest s' in
      (s'', evs ++ evs')
  end.

(** The clock values of a run never go back and start at or after [t0]. *)
Fixpoint monotone_from (t0 : Q) (ops : list (Q * op)) : Prop :=
  match ops with
  | [] => True
  | (now, _) :: rest => (t0 <= now)%Q ∧ monotone_from now rest
  end.

(** Every record is stored under its own address. *)
Definition keys_ok (s : t) : Prop :=
  ∀ k q, peers s !! k = Some q → address q = k.

(** Every record was first seen no later than it was last seen, and
    last seen no later than [t0]. *)
Definition stamps_ok (t0 : Q) (s : t) : Prop :=
  ∀ k q, peers s !! k = Some q →
    (first_seen q <= last_seen q)%Q ∧ (last_seen q <= t0)%Q.

(** The value that [self.last_seen[address]] reads. *)
Definition seen_of (l : gmap string Q) (address : string) : Q :=
  default 0%Q (l !! address).

(** Is [e] a peer-lost event for the peer at [a]? *)
Definition is_lost_for (a : string) (e : event) : bool :=
  match e with
  | on_peer_lost q => String.eqb (address q) a
  | on_peer_found _ => false
  end.

(** The number of peer-lost events of a trace for the peer at [a]. *)
Definition lost_count (a : string) (evs : list event) : nat :=
  length (List.filter (is_lost_for a) evs).

(** The number of peer-lost events that removing [a] from [s] fires. *)
Definition lost_events (s : t) (a : string) : nat :=
  match peers s !! a with
  | Some _ => if has_on_peer_lost s then 1%nat else 0%nat
  | None => 0%nat
  end.

(** A run in which the peer at [a], last added at [T], is neither added
    again nor due for eviction. *)
Definition quiet_for (a : string) (T : Q) (ops : list (Q * op)) : Prop :=
  Forall (λ o, match o.2 with
               | OpAdd b _ _ => b ≠ a
               | OpProbe b _ _ => b ≠ a
               | OpGetPeers => True
               | OpCleanup => (o.1 - T <= 180)%Q
               end) ops.

(** A run that evicts nothing. *)
Definition no_cleanup (ops : list (Q * op)) : Prop :=
  Forall (λ o, o.2 ≠ OpCleanup) ops.

End Discovery.

(** ** The [json] module of the Python library, on the values of the protocol

    A Python [str] is a [string] whose characters stand for the code points
    U+0000 to U+00FF.  The values are the ones the messages of the protocol
    are made of: [None], booleans, integers, strings, lists, and dicts with
    string keys (in insertion order).  A text with a floating-point number,
    or with an escape above [ÿ], is outside this fragment and [loads]
    answers [None] for it, as it does for a text that is not JSON. *)

Module PyJson.

#[warnings="-register-all"]
Inductive json : Type :=
  | JNull
  | JBool (b : bool)
  | JInt (z : Z)
  | JStr (s : string)
  | JArr (l : list json)
  | JObj (l : list (string * json)).

Definition text : Type := list ascii.

Definition lit (s : string) : text := list_ascii_of_string s.

Definition dquote : ascii := "034"%char.
Definition backslash : ascii := "092"%char.

(** *** [json.dumps] *)

Definition hex_digit (n : N) : ascii :=
  nth (N.to_nat n) (lit "0123456789abcdef") "0"%char.

(** [ESCAPE_DCT] and the [\uXXXX] form of [py_encode_basestring_ascii] *)
Definition escape_char (c : ascii) : text :=
  let n := N_of_ascii c in
  if Ascii.eqb c dquote then [backslash; dquote]
  else if Ascii.eqb c backslash then [backslash; backslash]
  else if (n =? 8)%N then [backslash; "b"%char]
  else if (n =? 12)%N then [backslash; "f"%char]
  else if (n =? 10)%N then [backslash; "n"%char]
  else if (n =? 13)%N then [backslash; "r"%char]
  else if (n =? 9)%N then [backslash; "t"%char]
  else if ((32 <=? n) && (n <=? 126))%N then [c]
  else [backslash; "u"%char; "0"%char; "0"%char;
        hex_digit (n / 16); hex_digit (n mod 16)].

Fixpoint escape (s : string) : text :=
  match s with
  | EmptyString => []
  | String c r => escape_char c ++ escape r
  end.

Definition print_string (s : string) : text :=
  dquote :: escape s ++ [dquote].

Definition digit_char (d : N) : ascii := ascii_of_N (48 + d).

Fixpoint print_uint (d : Decimal.uint) : text :=
  match d with
  | Decimal.Nil => []
  | Decimal.D0 r => "0"%char :: print_uint r
  | Decimal.D1 r => "1"%char :: print_uint r
  | Decimal.D2 r => "2"%char :: print_uint r
  | Decimal.D3 r => "3"%char :: print_uint r
  | Decimal.D4 r => "4"%char :: print_uint r
  | Decimal.D5 r => "5"%char :: print_uint r
  | Decimal.D6 r => "6"%char :: print_uint r
  | Decimal.D7 r => "7"%char :: print_uint r
  | Decimal.D8 r => "8"%char :: print_uint r
  | Decimal.D9 r => "9"%char :: print_uint r
  end.

(** [int.__repr__] *)
Definition print_int (z : Z) : text :=
  match Z.to_int z with
  | Decimal.Pos d => print_uint d
  | Decimal.Neg d => "-"%char :: print_uint d
  end.

(** [', '.join] *)
Fixpoint join (l : list text) : text :=
  match l with
  | [] => []
  | [x] => x
  | x :: r => x ++ lit ", " ++ join r
  end.

Fixpoint print (v : json) : text :=
  match v with
  | JNull => lit "null"
  | JBool true => lit "true"
  | JBool false => lit "false"
  | JInt z => print_int z
  | JStr s => print_string s
  | JArr l => "["%char :: join (map print l) ++ ["]"%char]
  | JObj l =>
      "{"%char
        :: join (map (λ kv, print_string (fst kv) ++ lit ": " ++ print (snd kv)) l)
        ++ ["}"%char]
  end.

(** One [key: value] of a printed dict *)
Definition print_member (kv : string * json) : text :=
  print_string (fst kv) ++ lit ": " ++ print (snd kv).

Definition dumps (v : json) : string := string_of_list_ascii (print v).

(** *** [json.loads] *)

Definition is_ws (c : ascii) : bool :=
  Ascii.eqb c " "%char || Ascii.eqb c "009"%char
  || Ascii.eqb c "010"%char || Ascii.eqb c "013"%char.

Fixpoint skip_ws (s : text) : text :=
  match s with
  | c :: r => if is_ws c then skip_ws r else s
  | [] => []
  end.

Fixpoint strip_prefix (p s : text) : option text :=
  match p, s with
  | [], _ => Some s
  | a :: p', b :: s' => if Ascii.eqb a b then strip_prefix p' s' else None
  | _ :: _, [] => None
  end.

Definition is_digit (c : ascii) : bool :=
  let n := N_of_ascii c in ((48 <=? n) && (n <=? 57))%N.

Definition hex_val (c : ascii) : option N :=
  let n := N_of_ascii c in
  if ((48 <=? n) && (n <=? 57))%N then Some (n - 48)%N
  else if ((97 <=? n) && (n <=? 102))%N then Some (n - 87)%N
  else if ((65 <=? n) && (n <=? 70))%N then Some (n - 55)%N
  else None.

Definition hex4 (a b c d : ascii) : option N :=
  match hex_val a, hex_val b, hex_val c, hex_val d with
  | Some x, Some y, Some z, Some w => Some (((x * 16 + y) * 16 + z) * 16 + w)%N
  | _, _, _, _ => None
  end.

(** [BACKSLASH] of the decoder *)
Definition unescape (e : ascii) : option ascii :=
  if Ascii.eqb e dquote then Some dquote
  else if Ascii.eqb e backslash then Some backslash
  else if Ascii.eqb e "/"%char then Some "/"%char
  else if Ascii.eqb e "b"%char then Some "008"%char
  else if Ascii.eqb e "f"%char then Some "012"%char
  else if Ascii.eqb e "n"%char then Some "010"%char
  else if Ascii.eqb e "r"%char then Some "013"%char
  else if Ascii.eqb e "t"%char then Some "009"%char
  else None.

Definition push (c : ascii) (r : option (string * text)) : option (string * text) :=
  match r with
  | Some (str, rest) => Some (String c str, rest)
  | None => None
  end.

(** [scanstring], strict, from the character after the opening quote *)
Fixpoint scanstring (s : text) : option (string * text) :=
  match s with
  | [] => None
  | c :: r =>
      if Ascii.eqb c dquote then Some (EmptyString, r)
      else if Ascii.eqb c backslash then
        match r with
        | [] => None
        | e :: r1 =>
            if Ascii.eqb e "u"%char then
              match r1 with
              | h1 :: h2 :: h3 :: h4 :: r2 =>
                  match hex4 h1 h2 h3 h4 with
                  | Some n =>
                      if (n <? 256)%N then push (ascii_of_N n) (scanstring r2)
                      else None
                  | None => None
                  end
              | _ => None
              end
            else
              match unescape e with
              | Some ch => push ch (scanstring r1)
              | None => None
              end
        end
      else if (N_of_ascii c <? 32)%N then None
      else push c (scanstring r)
  end.

Definition digit_of (c : ascii) (r : Decimal.uint) : Decimal.uint :=
  match (N_of_ascii c - 48)%N with
  | 0 => Decimal.D0 r | 1 => Decimal.D1 r | 2 => Decimal.D2 r
  | 3 => Decimal.D3 r | 4 => Decimal.D4 r | 5 => Decimal.D5 r
  | 6 => Decimal.D6 r | 7 => Decimal.D7 r | 8 => Decimal.D8 r
  | _ => Decimal.D9 r
  end%N.

(** a run of digits *)
Fixpoint read_digits (s : text) : Decimal.uint * text :=
  match s with
  | c :: r =>
      if is_digit c
      then let '(d, rest) := read_digits r in (digit_of c d, rest)
      else (Decimal.Nil, s)
  | [] => (Decimal.Nil, [])
  end.

(** Does a fraction (a dot and a digit) or an exponent (an [e], an
    optional sign and a digit) follow? *)
Definition float_follows (s : text) : bool :=
  match s with
  | c :: d :: r =>
      if Ascii.eqb c "."%char then is_digit d
      else if Ascii.eqb c "e"%char || Ascii.eqb c "E"%char then
        if is_digit d then true
        else if Ascii.eqb d "+"%char || Ascii.eqb d "-"%char then
          match r with
          | d' :: _ => is_digit d'
          | [] => false
          end
        else false
      else false
  | _ => false
  end.

(** [NUMBER_RE]: an optional minus sign, then either a single zero or a
    non-zero digit and more digits; an integer when neither a fraction
    nor an exponent follows *)
Definition parse_number (s : text) : option (Z * text) :=
  let '(neg, s1) :=
    match s with
    | c :: r => if Ascii.eqb c "-"%char then (true, r) else (false, s)
    | [] => (false, s)
    end in
  match s1 with
  | c :: r =>
      if is_digit c then
        let '(d, rest) :=
          if Ascii.eqb c "0"%char then (Decimal.D0 Decimal.Nil, r)
          else read_digits s1 in
        if float_follows rest then None
        else Some (Z.of_int (if neg then Decimal.Neg d else Decimal.Pos d), rest)
      else None
  | [] => None
  end.

(** The text after an integer does not continue the number. *)
Definition number_ends (rest : text) : bool :=
  match rest with
  | [] => true
  | c :: _ =>
      negb (is_digit c || Ascii.eqb c "."%char
            || Ascii.eqb c "e"%char || Ascii.eqb c "E"%char)
  end.

(** [d[k] = v] on a dict kept in insertion order *)
Fixpoint dict_set (k : string) (v : json) (d : list (string * json))
    : list (string * json) :=
  match d with
  | [] => [(k, v)]
  | (k', v') :: r =>
      if String.eqb k' k then (k', v) :: r else (k', v') :: dict_set k v r
  end.

(** [dict(pairs)] *)
Definition dict_of_pairs (pairs : list (string * json)) : list (string * json) :=
  fold_left (λ d kv, dict_set (fst kv) (snd kv) d) pairs [].

(** [scan_once], [JSONArray] and [JSONObject]; [fuel] bounds the nesting. *)
Fixpoint parse_value (fuel : nat) (s : text) : option (json * text) :=
  match fuel with
  | O => None
  | S fuel =>
      match s with
      | [] => None
      | c :: r =>
          if Ascii.eqb c dquote then
            match scanstring r with
            | Some (str, rest) => Some (JStr str, rest)
            | None => None
            end
          else if Ascii.eqb c "{"%char then
            match skip_ws r with
            | c' :: r' =>
                if Ascii.eqb c' "}"%char then Some (JObj [], r')
                else
                  match parse_members fuel (c' :: r') with
                  | Some (ms, rest) => Some (JObj (dict_of_pairs ms), rest)
                  | None => None
                  end
            | [] => None
            end
          else if Ascii.eqb c "["%char then
            match skip_ws r with
            | c' :: r' =>
                if Ascii.eqb c' "]"%char then Some (JArr [], r')
                else
                  match parse_items fuel (c' :: r') with
                  | Some (vs, rest) => Some (JArr vs, rest)
                  | None => None
                  end
            | [] => None
            end
          else if Ascii.eqb c "n"%char then
            match strip_prefix (lit "ull") r with
            | Some rest => Some (JNull, rest)
            | None => None
            end
          else if Ascii.eqb c "t"%char then
            match strip_prefix (lit "rue") r with
            | Some rest => Some (JBool true, rest)
            | None => None
            end
          else if Ascii.eqb c "f"%char then
            match strip_prefix (lit "alse") r with
            | Some rest => Some (JBool false, rest)
            | None => None
            end
          else
            match parse_number s with
            | Some (z, rest) => Some (JInt z, rest)
            | None => None
            end
      end
  end
with parse_items (fuel : nat) (s : text) : option (list json * text) :=
  match fuel with
  | O => None
  | S fuel =>
      match parse_value fuel s with
      | Some (v, rest) =>
          match skip_ws rest with
          | c :: r =>
              if Ascii.eqb c ","%char then
                match parse_items fuel (skip_ws r) with
                | Some (vs, rest') => Some (v :: vs, rest')
                | None => None
                end
              else if Ascii.eqb c "]"%char then Some ([v], r)
              else None
          | [] => None
          end
      | None => None
      end
  end
with parse_members (fuel : nat) (s : text) : option (list (string * json) * text) :=
  match fuel with
  | O => None
  | S fuel =>
      match s with
      | c :: r =>
          if Ascii.eqb c dquote then
            match scanstring r with
            | Some (k, rest) =>
                match skip_ws rest with
                | c1 :: r1 =>
                    if Ascii.eqb c1 ":"%char then
                      match parse_value fuel (skip_ws r1) with
                      | Some (v, rest1) =>
                          match skip_ws rest1 with
                          | c2 :: r2 =>
                              if Ascii.eqb c2 ","%char then
                                match parse_members fuel (skip_ws r2) with
                                | Some (ms, rest2) => Some ((k, v) :: ms, rest2)
                                | None => None
                                end
                              else if Ascii.eqb c2 "}"%char then Some ([(k, v)], r2)
                              else None
                          | [] => None
                          end
                      | None => None
                      end
                    else None
                | [] => None
                end
            | None => None
            end
          else None
      | [] => None
      end
  end.

(** [json.loads(s)]: one value, with white space around it and nothing
    else.  [None] stands for [JSONDecodeError]. *)
Definition loads (s : string) : option json :=
  let t := list_ascii_of_string s in
  match parse_value (S (length t)) (skip_ws t) with
  | Some (v, rest) =>
      match skip_ws rest with
      | [] => Some v
      | _ :: _ => None
      end
  | None => None
  end.

(** *** The values that [dumps] and [loads] are inverse on *)

Fixpoint distinct (l : list string) : bool :=
  match l with
  | [] => true
  | k :: r => negb (existsb (String.eqb k) r) && distinct r
  end.

(** Every dict inside the value has pairwise different keys (as every
    Python dict has). *)
Fixpoint well_formed (v : json) : bool :=
  match v with
  | JArr l => forallb well_formed l
  | JObj l => distinct (map fst l) && forallb (λ kv, well_formed (snd kv)) l
  | _ => true
  end.

(** A bound on the nesting that [parse_value] meets on [print v]. *)
Fixpoint size (v : json) : nat :=
  match v with
  | JArr l => S (list_sum (map (λ x, S (size x)) l))
  | JObj l => S (list_sum (map (λ kv, S (size (snd kv))) l))
  | _ => 1
  end.

(** The first character of a printed value: not white space, and not a
    closing bracket. *)
Definition opens (c : ascii) : Prop :=
  is_ws c = false ∧ Ascii.eqb c "]"%char = false ∧ Ascii.eqb c "}"%char = false.

(** [parse_value] reads [v] back from [print v], whatever follows. *)
Definition reads_back (v : json) : Prop :=
  well_formed v = true →
  ∀ (fuel : nat) (rest : text),
    (size v <= fuel)%nat → number_ends rest = true →
    parse_value fuel (print v ++ rest) = Some (v, rest).

(** *** The operations of the program on decoded values *)

(** [bool(v)] *)
Definition truthy (v : json) : bool :=
  match v with
  | JNull => false
  | JBool b => b
  | JInt z => negb (z =? 0)
  | JStr s => negb (String.eqb s EmptyString)
  | JArr l => negb (Nat.eqb (length l) 0)
  | JObj l => negb (Nat.eqb (length l) 0)
  end.

(** [d[k]] on a dict in insertion order *)
Fixpoint dict_lookup (k : string) (d : list (string * json)) : option json :=
  match d with
  | [] => None
  | (k', v) :: r => if String.eqb k' k then Some v else dict_lookup k r
  end.

End PyJson.

(** ** Bytes, sockets and the program state *)

Module Wire.
Import PyJson.

Definition bytes : Type := list Byte.byte.

Definition byte_of_N (n : N) : Byte.byte :=
  match Byte.of_N n with
  | Some b => b
  | None => Byte.x00
  end.

(** [n.to_bytes(4, 'big')]; [None] stands for [OverflowError]. *)
Definition to_bytes4 (n : Z) : option bytes :=
  if (0 <=? n) && (n <? 4294967296) then
    Some [byte_of_N (Z.to_N (n / 16777216));
          byte_of_N (Z.to_N ((n / 65536) mod 256));
          byte_of_N (Z.to_N ((n / 256) mod 256));
          byte_of_N (Z.to_N (n mod 256))]
  else None.

(** [int.from_bytes(b, 'big')] *)
Definition from_bytes (b : bytes) : Z :=
  fold_left (λ acc x, acc * 256 + Z.of_N (Byte.to_N x)) b 0.

(** [s.encode('utf-8')], one character *)
Definition encode_char (c : ascii) : bytes :=
  let n := N_of_ascii c in
  if (n <? 128)%N then [byte_of_N n]
  else [byte_of_N (192 + n / 64); byte_of_N (128 + n mod 64)].

Fixpoint encode_utf8 (s : string) : bytes :=
  match s with
  | EmptyString => []
  | String c r => encode_char c ++ encode_utf8 r
  end.

(** [b.decode('utf-8')]; [None] stands for [UnicodeDecodeError], and also
    answers a text with a code point above U+00FF. *)
Fixpoint decode_utf8 (b : bytes) : option string :=
  match b with
  | [] => Some EmptyString
  | x :: r =>
      let n := Byte.to_N x in
      if (n <? 128)%N then option_map (String (ascii_of_N n)) (decode_utf8 r)
      else if ((194 <=? n) && (n <=? 195))%N then
        match r with
        | y :: r' =>
            let m := Byte.to_N y in
            if ((128 <=? m) && (m <? 192))%N
            then option_map (String (ascii_of_N ((n - 192) * 64 + (m - 128))))
                            (decode_utf8 r')
            else None
        | [] => None
        end
      else None
  end.

(** What the remote end delivers on a connection: chunks of bytes, as the
    transport hands them over, until it closes the connection or the
    connection breaks (a read then raises [BluetoothError]). *)
Inductive stream : Type :=
  | Closed
  | Broken
  | Chunk (c : bytes) (rest : stream).

(** [sock.recv(n)] on the stream: at most [n] bytes of the first chunk,
    and [b''] when the connection is closed.  [None] when it raises. *)
Fixpoint recv (n : nat) (st : stream) : option (bytes * stream) :=
  match st with
  | Closed => Some ([], Closed)
  | Broken => None
  | Chunk c rest =>
      match c with
      | [] => recv n rest
      | _ :: _ =>
          Some (take n c,
                match drop n c with
                | [] => rest
                | d => Chunk d rest
                end)
      end
  end.

(** All the bytes a stream delivers before it ends. *)
Fixpoint stream_bytes (st : stream) : bytes :=
  match st with
  | Closed | Broken => []
  | Chunk c rest => c ++ stream_bytes rest
  end.

(** Does the stream end by the remote end closing the connection? *)
Fixpoint closes (st : stream) : bool :=
  match st with
  | Closed => true
  | Broken => false
  | Chunk _ rest => closes rest
  end.

Inductive exn : Type :=
  | BluetoothError
  | TypeError
  | AttributeError
  | UnicodeDecodeError
  | JSONDecodeError
  | OverflowError
  | OSError.

(** The calls made on the socket at hand. *)
Inductive call : Type :=
  | Connect (address : string) (port : Z)
  | Send (data : bytes)
  | Recv (n : nat) (got : bytes)
  | Close.

(** The messages handed to [_log]. *)
Inductive log_entry : Type :=
  | LogInvalidJSON (peer : string)
  | LogUnknownType (msg_type : option json)
  | LogBluetoothHandlerError
  | LogHandlerError (e : exn)
  | LogSendingFile (filename : json) (e : exn)
  | LogServiceNotFound (peer : string)
  | LogBluetoothGettingFiles (peer : string)
  | LogFailedGettingFiles (peer : string) (e : exn)
  | LogFileRequestFailed (error : json)
  | LogIncomplete (bytes_received file_size : Z)
  | LogBluetoothDownloading (filename : string)
  | LogFailedDownloading (filename peer : string) (e : exn)
  | LogFailedSend (e : exn)
  | LogFailedReceive (e : exn).

Inductive event : Type :=
  | on_peer_disconnected (address : string) (port : Z)
  | on_file_received (filename peer : string).

(** An entry of [FileManager.shared_files]. *)
Record file_info : Type := {
  path : string;
  size : Z;
  hash : string;
  added_time : Z
}.

#[export] Instance file_info_eq_dec : EqDecision file_info.
Proof. solve_decision. Defined.

(** The state that the operations of [P2PBluetoothNetwork] read and
    write: the socket at hand (what is still to arrive on it, and the
    calls made on it), the catalog of the file manager and its saved copy,
    the files on disk, the list [connections] (of socket numbers), and
    what was logged and signalled. *)
Record world : Type := {
  incoming : stream;
  calls : list call;
  shared_files : gmap string file_info;
  saved_db : gmap string file_info;
  disk : gmap string bytes;
  connections : list nat;
  log : list log_entry;
  events : list event
}.

Definition set_socket (st : stream) (cs : list call) (w : world) : world :=
  {| incoming := st; calls := cs; shared_files := shared_files w;
     saved_db := saved_db w; disk := disk w; connections := connections w;
     log := log w; events := events w |}.

Definition set_catalog (sf db : gmap string file_info) (w : world) : world :=
  {| incoming := incoming w; calls := calls w; shared_files := sf;
     saved_db := db; disk := disk w; connections := connections w;
     log := log w; events := events w |}.

Definition set_disk (d : gmap string bytes) (w : world) : world :=
  {| incoming := incoming w; calls := calls w; shared_files := shared_files w;
     saved_db := saved_db w; disk := d; connections := connections w;
     log := log w; events := events w |}.

Definition set_connections (c : list nat) (w : world) : world :=
  {| incoming := incoming w; calls := calls w; shared_files := shared_files w;
     saved_db := saved_db w; disk := disk w; connections := c;
     log := log w; events := events w |}.

Definition add_log (l : log_entry) (w : world) : world :=
  {| incoming := incoming w; calls := calls w; shared_files := shared_files w;
     saved_db := saved_db w; disk := disk w; connections := connections w;
     log := log w ++ [l]; events := events w |}.

Definition add_event (e : event) (w : world) : world :=
  {| incoming := incoming w; calls := calls w; shared_files := shared_files w;
     saved_db := saved_db w; disk := disk w; connections := connections w;
     log := log w; events := events w ++ [e] |}.

(** *** Computations that read and write the state and may raise *)

Inductive result (A : Type) : Type :=
  | Ok (a : A)
  | Raise (e : exn).
Arguments Ok {A} a.
Arguments Raise {A} e.

Definition M (A : Type) : Type := world → result A * world.

#[export] Instance M_ret : MRet M := λ A a w, (Ok a, w).

#[export] Instance M_bind : MBind M := λ A B f m w,
  match m w with
  | (Ok a, w') => f a w'
  | (Raise e, w') => (Raise e, w')
  end.

Definition raise {A} (e : exn) : M A := λ w, (Raise e, w).

(** [try: m except ... as e: handler e], where the handler raises again
    what it does not catch *)
Definition try_except {A} (m : M A) (handler : exn → M A) : M A := λ w,
  match m w with
  | (Ok a, w') => (Ok a, w')
  | (Raise e, w') => handler e w'
  end.

(** [try: m finally: f] *)
Definition try_finally {A} (m : M A) (f : M unit) : M A := λ w,
  match m w with
  | (r, w') =>
      match f w' with
      | (Ok _, w'') => (r, w'')
      | (Raise e, w'') => (Raise e, w'')
      end
  end.

Definition _log (l : log_entry) : M unit := λ w, (Ok (), add_log l w).

Definition signal (e : event) : M unit := λ w, (Ok (), add_event e w).

(** [sock.recv(n)] *)
Definition sock_recv (n : nat) : M bytes := λ w,
  match recv n (incoming w) with
  | Some (chunk, st) => (Ok chunk, set_socket st (calls w ++ [Recv n chunk]) w)
  | None => (Raise BluetoothError, set_socket (incoming w) (calls w ++ [Recv n []]) w)
  end.

(** [sock.send(data)]: the whole of [data] goes out. *)
Definition sock_send (data : bytes) : M unit := λ w,
  (Ok (), set_socket (incoming w) (calls w ++ [Send data]) w).

Definition sock_close : M unit := λ w,
  (Ok (), set_socket (incoming w) (calls w ++ [Close]) w).

Definition sock_connect (address : string) (port : Z) : M unit := λ w,
  (Ok (), set_socket (incoming w) (calls w ++ [Connect address port]) w).

(** A computation only adds to the calls made on the socket. *)
Definition grows {A} (m : M A) : Prop :=
  ∀ w, ∃ cs, calls (snd (m w)) = calls w ++ cs.

(** The size of the chunks in which a file is sent and received *)
Definition chunk_size : nat := Z.to_nat 4096.

(** The bytes sent on the socket, in order. *)
Fixpoint sent (cs : list call) : bytes :=
  match cs with
  | [] => []
  | Send data :: r => data ++ sent r
  | _ :: r => sent r
  end.

(** The bytes received on the socket, in order. *)
Fixpoint received (cs : list call) : bytes :=
  match cs with
  | [] => []
  | Recv _ got :: r => got ++ received r
  | _ :: r => received r
  end.

Definition is_recv (c : call) : bool :=
  match c with
  | Recv _ _ => true
  | _ => false
  end.

(** [not x], for a value that is [None] or a [bytes] *)
Definition not_bytes (x : option bytes) : bool :=
  match x with
  | None | Some [] => true
  | Some (_ :: _) => false
  end.

(** [not x], for a value that is [None] or came out of [json.loads] *)
Definition not_value (x : option json) : bool :=
  match x with
  | None => true
  | Some v => negb (truthy v)
  end.

(** The loop of [_receive_exact]; [fuel] bounds the iterations, each of
    which receives at least one byte. *)
Fixpoint receive_exact_loop (fuel : nat) (num_bytes : nat) (data : bytes)
    : M (option bytes) :=
  if (length data <? num_bytes)%nat then
    match fuel with
    | O => mret None
    | S fuel =>
        chunk ← sock_recv (num_bytes - length data);
        match chunk with
        | [] => mret None
        | _ :: _ => receive_exact_loop fuel num_bytes (data ++ chunk)
        end
    end
  else mret (Some data).

(** [_receive_exact(sock, num_bytes)] *)
Definition _receive_exact (num_bytes : nat) : M (option bytes) :=
  receive_exact_loop num_bytes num_bytes [].

(** [_send_message(sock, message)] *)
Definition _send_message (message : json) : M bool :=
  let message_data := encode_utf8 (dumps message) in
  let message_length := Z.of_nat (length message_data) in
  match to_bytes4 message_length with
  | Some prefix =>
      sock_send prefix;;
      sock_send message_data;;
      mret true
  | None =>
      _log (LogFailedSend OverflowError);;
      mret false
  end.

(** [json.loads(message_data.decode('utf-8'))] *)
Definition decode_message (message_data : bytes) : M json :=
  match decode_utf8 message_data with
  | None => raise UnicodeDecodeError
  | Some s =>
      match loads s with
      | None => raise JSONDecodeError
      | Some v => mret v
      end
  end.

(** [_receive_message(sock)]; the result [None] is Python's. *)
Definition _receive_message : M (option json) :=
  try_except
    (length_data ← _receive_exact 4;
     match length_data with
     | None | Some [] => mret None
     | Some length_data =>
         let message_length := from_bytes length_data in
         if 1048576 <? message_length then mret None
         else
           message_data ← _receive_exact (Z.to_nat message_length);
           match message_data with
           | None | Some [] => mret None
           | Some message_data =>
               v ← decode_message message_data;
               mret (Some v)
           end
     end)
    (λ e, _log (LogFailedReceive e);; mret None).

End Wire.

(** ** file_manager.py and p2p_network.py *)

Module Network.
Import PyJson Wire.

(** *** The file manager and the files on disk *)

(** [os.path.exists(p)]; [os.stat(None)] raises [TypeError]. *)
Definition os_path_exists (p : option string) : M bool := λ w,
  match p with
  | None => (Raise TypeError, w)
  | Some p => (Ok (bool_decide (is_Some (disk w !! p))), w)
  end.

(** [os.path.getsize(p)] *)
Definition os_path_getsize (p : string) : M Z := λ w,
  match (disk w !! p : option bytes) with
  | Some content => (Ok (Z.of_nat (length content)), w)
  | None => (Raise OSError, w)
  end.

Definition on_disk (d : gmap string bytes) (info : file_info) : bool :=
  bool_decide (is_Some (d !! path info)).

(** First loop of [get_shared_files]: the names whose path is gone. *)
Definition files_to_remove (w : world) : list string :=
  (List.filter (λ kv, negb (on_disk (disk w) (snd kv)))
               (map_to_list (shared_files w))).*1.

(** [FileManager.get_shared_files()]: drops the entries whose path is
    gone, saves the catalog when it dropped one, and lists the names. *)
Definition get_shared_files : M (list string) := λ w,
  let gone := files_to_remove w in
  let sf := foldl (λ m filename, delete filename m) (shared_files w) gone in
  let db := match gone with [] => saved_db w | _ :: _ => sf end in
  (Ok (map_to_list sf).*1, set_catalog sf db w).

(** [FileManager.get_file_path(filename)]: [filename in self.shared_files]
    raises [TypeError] for a value that cannot be hashed. *)
Definition get_file_path (filename : json) : M (option string) := λ w,
  match filename with
  | JStr name => (Ok (path <$> shared_files w !! name), w)
  | JArr _ | JObj _ => (Raise TypeError, w)
  | JNull | JBool _ | JInt _ => (Ok None, w)
  end.

(** [message.get(key)], which only a dict has *)
Definition py_get (message : json) (key : string) : M (option json) :=
  match message with
  | JObj d => mret (dict_lookup key d)
  | _ => raise AttributeError
  end.

(** [v == s] for a string literal [s] *)
Definition is_str (v : option json) (s : string) : bool :=
  match v with
  | Some (JStr t) => String.eqb t s
  | _ => false
  end.

Section Server.

(** [hashlib.sha256(...).hexdigest()] *)
Variable sha256_hex : bytes → string.

(** [_get_file_hash(file_path)] *)
Definition _get_file_hash (file_path : string) : M string := λ w,
  match disk w !! file_path with
  | Some content => (Ok (sha256_hex content), w)
  | None => (Ok EmptyString, w)
  end.

(** The loop of [_handle_file_list_request] *)
Fixpoint file_list_loop (names : list string) (files : list json)
    : M (list json) :=
  match names with
  | [] => mret files
  | filename :: rest =>
      file_path ← get_file_path (JStr filename);
      found ← os_path_exists file_path;
      match found, file_path with
      | true, Some file_path =>
          file_size ← os_path_getsize file_path;
          file_hash ← _get_file_hash file_path;
          file_list_loop rest
            (files ++ [JObj [("name", JStr filename);
                             ("size", JInt file_size);
                             ("hash", JStr file_hash)]])
      | _, _ => file_list_loop rest files
      end
  end.

(** [_handle_file_list_request(client_socket)] *)
Definition _handle_file_list_request : M unit :=
  names ← get_shared_files;
  files ← file_list_loop names [];
  _send_message (JObj [("type", JStr "file_list_response");
                       ("files", JArr files)]);;
  mret ().

(** The loop that sends a file: [file.read(4096)] until it is empty.
    [fuel] bounds the iterations, each of which sends at least a byte. *)
Fixpoint send_file_loop (fuel : nat) (rest : bytes) : M unit :=
  match rest, fuel with
  | [], _ => mret ()
  | _ :: _, O => mret ()
  | _ :: _, S fuel =>
      sock_send (take chunk_size rest);;
      send_file_loop fuel (drop chunk_size rest)
  end.

(** [open(file_path, 'rb')] and the loop *)
Definition send_file (file_path : string) : M unit := λ w,
  match (disk w !! file_path : option bytes) with
  | Some content => send_file_loop (length content) content w
  | None => (Raise OSError, w)
  end.

(** [_handle_file_request(client_socket, message)] *)
Definition _handle_file_request (message : json) : M unit :=
  filename ← py_get message "filename";
  match filename with
  | None => mret ()
  | Some filename =>
      if negb (truthy filename) then mret ()
      else
        file_path ← get_file_path filename;
        found ← os_path_exists file_path;
        match found, file_path with
        | true, Some file_path =>
            file_size ← os_path_getsize file_path;
            _send_message (JObj [("type", JStr "file_response");
                                 ("success", JBool true);
                                 ("filename", filename);
                                 ("size", JInt file_size)]);;
            try_except (send_file file_path)
                       (λ e, _log (LogSendingFile filename e))
        | _, _ =>
            _send_message (JObj [("type", JStr "file_response");
                                 ("success", JBool false);
                                 ("error", JStr "File not found")]);;
            mret ()
        end
  end.

(** [_process_message(client_socket, client_info, message)] *)
Definition _process_message (message : json) : M unit :=
  msg_type ← py_get message "type";
  if is_str msg_type "file_list_request" then _handle_file_list_request
  else if is_str msg_type "file_request" then _handle_file_request message
  else if is_str msg_type "ping" then
    _send_message (JObj [("type", JStr "pong")]);; mret ()
  else _log (LogUnknownType msg_type).

Inductive flow : Type := Continue | Break.

(** The inner [try] of the loop of [_handle_client]: decode the payload
    and process the message; only [JSONDecodeError] is caught here. *)
Definition dispatch (client_info : string * Z) (message_data : bytes) : M unit :=
try_except
  (message ← decode_message message_data;
   _process_message message)
  (λ e, match e with
        | JSONDecodeError => _log (LogInvalidJSON (fst client_info))
        | _ => raise e
        end).

(** One turn of the loop of [_handle_client] *)
Definition handle_frame (client_info : string * Z) : M flow :=
length_data ← _receive_exact 4;
match length_data with
| None | Some [] => mret Break
| Some length_data =>
    let message_length := from_bytes length_data in
    if 1048576 <? message_length then mret Break
    else
      message_data ← _receive_exact (Z.to_nat message_length);
      match message_data with
      | None | Some [] => mret Break
      | Some message_data =>
          dispatch client_info message_data;;
          mret Continue
      end
end.

(** [while self.is_running: ...]; [running] is the number of times the
    test of the loop finds [is_running] set. *)
Fixpoint handler_loop (running : nat) (client_info : string * Z) : M unit :=
  match running with
  | O => mret ()
  | S running =>
      next ← handle_frame client_info;
      match next with
      | Break => mret ()
      | Continue => handler_loop running client_info
      end
  end.

Definition forget_connection (client_socket : nat) : M unit := λ w,
  (Ok (), set_connections
            (match list_find (λ c, c = client_socket) (connections w) with
             | Some (i, _) => delete i (connections w)
             | None => connections w
             end) w).

(** [_handle_client(client_socket, client_info)] *)
Definition _handle_client (running : nat) (client_socket : nat)
    (client_info : string * Z) : M unit :=
  try_finally
    (try_except (handler_loop running client_info)
       (λ e, match e with
             | BluetoothError => _log LogBluetoothHandlerError
             | _ => _log (LogHandlerError e)
             end))
    (sock_close;;
     forget_connection client_socket;;
     signal (on_peer_disconnected (fst client_info) (snd client_info))).

(** The entries of the catalog whose file is on disk *)
Definition kept_files (w : world) : gmap string file_info :=
filter (λ kv, on_disk (disk w) (snd kv) = true) (shared_files w).

(** The entry of a [file_list_response] for an entry of the catalog *)
Definition file_entry (d : gmap string bytes) (kv : string * file_info) : json :=
let content := default [] (d !! path (snd kv) : option bytes) in
JObj [("name", JStr (fst kv));
      ("size", JInt (Z.of_nat (length content)));
      ("hash", JStr (sha256_hex content))].

(** The frame with the length [prefix] and the payload [payload] is read
    in full from the stream of [w] and processed, and the loop goes on. *)
Definition frame_processed (client_info : string * Z) (w : world)
  (prefix payload more : bytes) : Prop :=
∃ st' cs',
  handle_frame client_info w
  = (dispatch client_info payload;; mret Continue)
      (set_socket st' (calls w ++ cs') w)
  ∧ stream_bytes st' = more
  ∧ received cs' = prefix ++ payload
  ∧ forallb is_recv cs' = true.

(** The frame with the length [prefix] ends the loop, and only the bytes
    of [prefix] are read from the stream of [w]. *)
Definition frame_refused (client_info : string * Z) (w : world)
  (prefix more : bytes) : Prop :=
∃ st' cs',
  handle_frame client_info w = (Ok Break, set_socket st' (calls w ++ cs') w)
  ∧ stream_bytes st' = more
  ∧ received cs' = prefix
  ∧ forallb is_recv cs' = true.

(** What [_handle_client] leaves when its loop ends in the state [w]: the
    socket closed and forgotten, the peer signalled as gone. *)
Definition hung_up (client_socket : nat) (client_info : string * Z) (w : world)
  : world :=
snd ((sock_close;;
      forget_connection client_socket;;
      signal (on_peer_disconnected (fst client_info) (snd client_info))) w).

End Server.

(** *** The client

    [services] is what [bluetooth.find_service] returned: the ports of the
    services found at the address, or [None] when the lookup raised. *)

(** [get_peer_files(peer_address)]; the result [None] is Python's. *)
Definition get_peer_files (peer_address : string) (services : option (list Z))
    : M (option json) :=
  try_except
    (match services with
     | None => raise BluetoothError
     | Some [] =>
         _log (LogServiceNotFound peer_address);;
         mret None
     | Some (port :: _) =>
         sock_connect peer_address port;;
         sent_ok ← _send_message (JObj [("type", JStr "file_list_request")]);
         if negb sent_ok then mret None
         else
           response ← _receive_message;
           sock_close;;
           match response with
           | None => mret None
           | Some response =>
               if negb (truthy response) then mret None
               else
                 msg_type ← py_get response "type";
                 if is_str msg_type "file_list_response" then
                   files ← py_get response "files";
                   mret (Some (default (JArr []) files))
                 else mret None
           end
     end)
    (λ e, match e with
          | BluetoothError => _log (LogBluetoothGettingFiles peer_address)
          | _ => _log (LogFailedGettingFiles peer_address e)
          end;;
          mret None).

(** [open(save_path, 'wb')] *)
Definition open_wb (save_path : string) : M unit := λ w,
  (Ok (), set_disk (<[save_path := []]> (disk w)) w).

(** [file.write(chunk)] *)
Definition file_write (save_path : string) (chunk : bytes) : M unit := λ w,
  (Ok (), set_disk (<[save_path :=
                    default [] (disk w !! save_path : option bytes) ++ chunk]>
                    (disk w)) w).

(** The number that [file_size] stands for in [bytes_received < file_size];
    the comparison raises [TypeError] for a value that is not a number. *)
Definition as_number (v : json) : M Z :=
  match v with
  | JInt z => mret z
  | JBool b => mret (Z.b2z b)
  | _ => raise TypeError
  end.

(** The loop that receives a file; [fuel] bounds the iterations, each of
    which receives at least one byte. *)
Fixpoint receive_file_loop (fuel : nat) (save_path : string)
    (file_size bytes_received : Z) : M Z :=
  if bytes_received <? file_size then
    match fuel with
    | O => mret bytes_received
    | S fuel =>
        let remaining := Z.min 4096 (file_size - bytes_received) in
        chunk ← sock_recv (Z.to_nat remaining);
        match chunk with
        | [] => mret bytes_received
        | _ :: _ =>
            file_write save_path chunk;;
            receive_file_loop fuel save_path file_size
                              (bytes_received + Z.of_nat (length chunk))
        end
    end
  else mret bytes_received.

(** The end of [request_file], once the response says [success]: from
    [file_size = response.get('size', 0)] on. *)
Definition save_file (peer_address filename save_path : string) (response : json)
    : M bool :=
  size_field ← py_get response "size";
  let file_size := default (JInt 0) size_field in
  open_wb save_path;;
  file_size ← as_number file_size;
  bytes_received ← receive_file_loop (Z.to_nat file_size) save_path file_size 0;
  sock_close;;
  if bytes_received =? file_size then
    signal (on_file_received filename peer_address);;
    mret true
  else
    _log (LogIncomplete bytes_received file_size);;
    mret false.

(** What [request_file] does with an exception *)
Definition download_failed (peer_address filename : string) (e : exn) : M bool :=
  match e with
  | BluetoothError => _log (LogBluetoothDownloading filename)
  | _ => _log (LogFailedDownloading filename peer_address e)
  end;;
  mret false.

(** [request_file(peer_address, filename, save_path)] *)
Definition request_file (peer_address filename save_path : string)
    (services : option (list Z)) : M bool :=
  try_except
    (match services with
     | None => raise BluetoothError
     | Some [] =>
         _log (LogServiceNotFound peer_address);;
         mret false
     | Some (port :: _) =>
         sock_connect peer_address port;;
         sent_ok ← _send_message (JObj [("type", JStr "file_request");
                                        ("filename", JStr filename)]);
         if negb sent_ok then sock_close;; mret false
         else
           response ← _receive_message;
           match response with
           | None =>
               _log (LogFileRequestFailed (JStr "No response"));;
               sock_close;;
               mret false
           | Some response =>
               if negb (truthy response) then
                 _log (LogFileRequestFailed (JStr "No response"));;
                 sock_close;;
                 mret false
               else
                 success ← py_get response "success";
                 if not_value success then
                   error ← py_get response "error";
                   _log (LogFileRequestFailed
                           (default (JStr "Unknown error") error));;
                   sock_close;;
                   mret false
                 else save_file peer_address filename save_path response
           end
     end)
    (download_failed peer_address filename).

(** The state after the receiving loop has written [got] to [save] *)
Definition received_into (save : string) (old got : bytes) (st' : stream)
    (cs' : list call) (w : world) : world :=
  set_disk (<[save := old ++ got]> (disk w)) (set_socket st' (calls w ++ cs') w).

(** The state after [got] has been written to [save] and the socket
    closed *)
Definition file_saved (save : string) (got : bytes) (st' : stream)
    (cs' : list call) (w : world) : world :=
  set_disk (<[save := got]> (disk w)) (set_socket st' (calls w ++ cs' ++ [Close]) w).

(** A call that asks for at most 4096 bytes *)
Definition small_recv (c : call) : bool :=
  match c with
  | Recv n _ => (n <=? chunk_size)%nat
  | _ => false
  end.

(** A call that sends at most 4096 bytes *)
Definition small_send (c : call) : bool :=
  match c with
  | Send data => (length data <=? chunk_size)%nat
  | _ => false
  end.

(** [ping_peer(peer_address)]; the result is the Python value that is
    returned, [JNull] standing for [None]: [response and ...] is the
    response itself when it is [None] or another false value. *)
Definition ping_peer (peer_address : string) (services : option (list Z))
    : M json :=
  try_except
    (match services with
     | None => raise BluetoothError
     | Some [] => mret (JBool false)
     | Some (port :: _) =>
         sock_connect peer_address port;;
         sent_ok ← _send_message (JObj [("type", JStr "ping")]);
         if negb sent_ok then sock_close;; mret (JBool false)
         else
           response ← _receive_message;
           sock_close;;
           match response with
           | None => mret JNull
           | Some response =>
               if negb (truthy response) then mret response
               else
                 msg_type ← py_get response "type";
                 mret (JBool (is_str msg_type "pong"))
           end
     end)
    (λ _, mret (JBool false)).

End Network.

(** ** The messages of the protocol *)

Module Protocol.
Import PyJson Wire.

(** An entry of the [files] of a [file_list_response] *)
Record FileDescriptor : Type := {
  fd_name : string;
  fd_size : Z;
  fd_hash : string
}.

Inductive Message : Type :=
  | FileListRequest
  | FileListResponse (files : list FileDescriptor)
  | FileRequest (filename : string)
  | FileResponse (success : bool) (filename : option string)
                 (size : option Z) (error : option string)
  | Ping
  | Pong.

Definition descriptor_to_json (fd : FileDescriptor) : json :=
  JObj [("name", JStr (fd_name fd));
        ("size", JInt (fd_size fd));
        ("hash", JStr (fd_hash fd))].

Definition field {A} (key : string) (f : A → json) (v : option A)
    : list (string * json) :=
  match v with
  | Some a => [(key, f a)]
  | None => []
  end.

(** The dict that the program builds for a message. *)
Definition to_json (m : Message) : json :=
  match m with
  | FileListRequest => JObj [("type", JStr "file_list_request")]
  | FileListResponse files =>
      JObj [("type", JStr "file_list_response");
            ("files", JArr (map descriptor_to_json files))]
  | FileRequest filename =>
      JObj [("type", JStr "file_request"); ("filename", JStr filename)]
  | FileResponse success filename size error =>
      JObj ([("type", JStr "file_response"); ("success", JBool success)]
            ++ field "filename" JStr filename
            ++ field "size" JInt size
            ++ field "error" JStr error)
  | Ping => JObj [("type", JStr "ping")]
  | Pong => JObj [("type", JStr "pong")]
  end.

(** The payload of the frame of a message *)
Definition payload (m : Message) : bytes := encode_utf8 (dumps (to_json m)).

(** A state with nothing in it but the stream of the socket *)
Definition world_of (st : stream) : world :=
  {| incoming := st; calls := []; shared_files := ∅; saved_db := ∅;
     disk := ∅; connections := []; log := []; events := [] |}.

(** The frame of a message, as [_send_message] sends it: the four bytes
    of the length, then the payload *)
Definition frame (m : Message) : bytes :=
  match to_bytes4 (Z.of_nat (length (payload m))) with
  | Some prefix => prefix ++ payload m
  | None => []
  end.

(** A catalog with one entry, whose file is not on disk *)
Definition stale_catalog : world :=
  {| incoming := Closed; calls := [];
     shared_files :=
       {[ "gone.txt"%string :=
            {| path := "/tmp/gone.txt"; size := 3; hash := "ab"; added_time := 0 |} ]};
     saved_db :=
       {[ "gone.txt"%string :=
            {| path := "/tmp/gone.txt"; size := 3; hash := "ab"; added_time := 0 |} ]};
     disk := ∅; connections := []; log := []; events := [] |}.

(** A connection that delivers the frame of [m], then [data], and closes *)
Definition delivery (m : Message) (data : bytes) : world :=
  world_of (Chunk (frame m ++ data) Closed).

(** A server that shares one file, of two bytes *)
Definition sharing_one_file : world :=
  {| incoming := Closed; calls := [];
     shared_files :=
       {[ "a.bin"%string :=
            {| path := "/srv/a.bin"; size := 2; hash := "cd"; added_time := 0 |} ]};
     saved_db := ∅;
     disk := {[ "/srv/a.bin"%string := [Byte.x41; Byte.x42] ]};
     connections := []; log := []; events := [] |}.

(** A response that declares two bytes, on a connection that delivers
    one byte and closes *)
Definition short_response : Message :=
  FileResponse true (Some "a.bin"%string) (Some 2) None.

Definition short_delivery : world :=
  world_of (Chunk (frame short_response ++ [Byte.x41]) Closed).

(** A request for a file whose name has 1,048,576 characters *)
Definition long_request : Message :=
  FileRequest (string_of_list_ascii (repeat "a"%char (Z.to_nat 1048576))).

End Protocol.

(** ** peer_discovery.py: scans, refreshes and the status *)

Module Scanner.
Import Discovery.

(** What [bluetooth.find_service] answers for an address: the services
    found, or [None] when it raises. *)
Definition lookup : Type := string → option (list (gmap string pyval)).

(** One turn of the loop of [refresh_thread], for [address], at the clock
    value [current_time].  When the service is gone and the address has a
    record but no entry in [last_seen], [del self.last_seen[address]]
    raises [KeyError] after the record was deleted, and the turn ends
    there. *)
Definition refresh_peer (current_time : Q) (address : string)
    (services : option (list (gmap string pyval))) (acc : t * list event)
    : t * list event :=
  let '(s, evs) := acc in
  match services with
  | None => (s, evs)
  | Some (_ :: _) =>
      (with_peers s (peers s) (<[address := current_time]> (last_seen_of s)), evs)
  | Some [] =>
      match peers s !! address with
      | Some info =>
          match last_seen_of s !! address with
          | Some _ =>
              (with_peers s (delete address (peers s))
                            (delete address (last_seen_of s)),
               evs ++ (if has_on_peer_lost s then [on_peer_lost info] else []))
          | None => (with_peers s (delete address (peers s)) (last_seen_of s), evs)
          end
      | None => (s, evs)
      end
  end.

(** The loop of [refresh_thread] over [list(self.peers.keys())];
    [running] is the number of times the test of the loop finds
    [is_running] set, and [time address] the clock value when the turn for
    [address] reads it. *)
Fixpoint refresh_loop (running : nat) (find_service : lookup) (time : string → Q)
    (addresses : list string) (acc : t * list event) {struct addresses}
    : t * list event :=
  match addresses with
  | [] => acc
  | address :: rest =>
      match running with
      | O => acc
      | S running =>
          refresh_loop running find_service time rest
            (refresh_peer (time address) address (find_service address) acc)
      end
  end.

(** [refresh_peer_services()], the thread it starts run to its end *)
Definition refresh_peer_services (running : nat) (find_service : lookup)
    (time : string → Q) (s : t) : t * list event :=
  refresh_loop running find_service time (map_to_list (peers s)).*1 (s, []).

(** The loop of [_perform_discovery] over the devices found, the thread
    started for each device run to its end before the next one starts. *)
Fixpoint discovery_loop (running : nat) (find_service : lookup) (time : string → Q)
    (nearby_devices : list (string * option string)) (acc : t * list event)
    {struct nearby_devices} : t * list event :=
  match nearby_devices with
  | [] => acc
  | (address, name) :: rest =>
      match running with
      | O => acc
      | S running =>
          let '(s, evs) := acc in
          let '(s', evs') :=
            _check_peer_service (time address) address name (find_service address) s in
          discovery_loop running find_service time rest (s', evs ++ evs')
      end
  end.

(** [_perform_discovery()]; [nearby_devices] is what
    [bluetooth.discover_devices] returned, [None] when it raised. *)
Definition _perform_discovery (running : nat)
    (nearby_devices : option (list (string * option string)))
    (find_service : lookup) (time : string → Q) (s : t) : t * list event :=
  match nearby_devices with
  | None => (s, [])
  | Some devices => discovery_loop running find_service time devices (s, [])
  end.

(** [is_peer_alive(peer_address)] *)
Definition is_peer_alive (services : option (list (gmap string pyval))) : bool :=
  match services with
  | Some l => bool_decide (0 < length l)%nat
  | None => false
  end.

(** The dict that [get_discovery_status] returns; [local_info] is what
    [get_local_bluetooth_info] returned. *)
Record status (A : Type) : Type := {
  is_running : bool;
  total_peers : nat;
  active_peers : nat;
  local_info : A
}.
Arguments is_running {A} _.
Arguments total_peers {A} _.
Arguments active_peers {A} _.
Arguments local_info {A} _.

(** [get_discovery_status()] *)
Definition get_discovery_status {A} (current_time : Q) (running : bool) (info : A)
    (s : t) : status A * t :=
  let total := size (peers s) in
  let '(active, s') := get_peers current_time s in
  ({| is_running := running; total_peers := total;
      active_peers := length active; local_info := info |}, s').

(** The operations on the registry, each with the clock values it reads *)
Inductive op : Type :=
  | Registry (current_time : Q) (o : Discovery.op)
  | Refresh (running : nat) (find_service : lookup) (time : string → Q)
  | Scan (running : nat) (nearby_devices : option (list (string * option string)))
         (find_service : lookup) (time : string → Q).

Definition step (o : op) (s : t) : t * list event :=
  match o with
  | Registry current_time o => Discovery.step current_time o s
  | Refresh running find_service time =>
      refresh_peer_services running find_service time s
  | Scan running nearby_devices find_service time =>
      _perform_discovery running nearby_devices find_service time s
  end.

Fixpoint run (ops : list op) (s : t) : t * list event :=
  match ops with
  | [] => (s, [])
  | o :: rest =>
      let '(s', evs) := step o s in
      let '(s'', evs') := run rest s' in
      (s'', evs ++ evs')
  end.

(** Is [e] a peer-found event for the peer at [a]? *)
Definition is_found_for (a : string) (e : event) : bool :=
  match e with
  | on_peer_found q => String.eqb (address q) a
  | on_peer_lost _ => false
  end.

(** The number of peer-found events of a trace for the peer at [a] *)
Definition found_count (a : string) (evs : list event) : nat :=
  length (List.filter (is_found_for a) evs).

(** Is there a record for [a]?  As a number, for counting. *)
Definition known (s : t) (a : string) : nat :=
  match peers s !! a with
  | Some _ => 1%nat
  | None => 0%nat
  end.

(** The registry is as its operations leave it: every record is stored
    under its own address, and the addresses with a record are the
    addresses with an entry in [last_seen]. *)
Definition consistent (s : t) : Prop :=
  keys_ok s ∧ ∀ a, is_Some (peers s !! a) ↔ is_Some (last_seen_of s !! a).

(** What a refresh does to the peer at [x], from the state [s] and the
    events [evs] to the state and the events [r] *)
Definition refreshed (services : option (list (gmap string pyval))) (now : Q)
    (x : string) (s : t) (evs : list event) (r : t * list event) : Prop :=
  match services with
  | Some [] =>
      peers r.1 !! x = None ∧ last_seen_of r.1 !! x = None
      ∧ lost_count x r.2 = (lost_count x evs + known s x * (if has_on_peer_lost s then 1 else 0))%nat
      ∧ (∀ q, peers s !! x = Some q → has_on_peer_lost s = true → on_peer_lost q ∈ r.2)
  | Some (_ :: _) =>
      peers r.1 !! x = peers s !! x ∧ last_seen_of r.1 !! x = Some now
      ∧ lost_count x r.2 = lost_count x evs
  | None =>
      peers r.1 !! x = peers s !! x ∧ last_seen_of r.1 !! x = last_seen_of s !! x
      ∧ lost_count x r.2 = lost_count x evs
  end.

(** The events [r.2] account for the records that came and went between
    the states [s] and [r.1]. *)
Definition balanced (s : t) (r : t * list event) : Prop :=
  ∀ a, (found_count a r.2 + known s a = lost_count a r.2 + known r.1 a)%nat.

(** The peer at [a] was last stamped at the clock value [time a], in its
    record and in [last_seen]. *)
Definition stamped_at (time : string → Q) (s : t) (a : string) : Prop :=
  ∃ p, peers s !! a = Some p ∧ address p = a ∧ last_seen p = time a
       ∧ last_seen_of s !! a = Some (time a).

End Scanner.

(** ** file_manager.py: the other operations of the file manager

    [writable] tells whether the database file can be opened for writing
    when [_save_shared_files] is called (it raises [IOError] otherwise),
    and [current_time] is what [_get_current_time] returns.  Paths are
    those of [posixpath], and the disk holds regular files that can be
    read. *)

Module Manager.
Import PyJson Wire Network.

Fixpoint has_slash (p : string) : bool :=
  match p with
  | EmptyString => false
  | String c r => Ascii.eqb c "/"%char || has_slash r
  end.

(** [os.path.basename(p)]: what follows the last slash *)
Fixpoint basename (p : string) : string :=
  match p with
  | EmptyString => EmptyString
  | String c r =>
      if has_slash r then basename r
      else if Ascii.eqb c "/"%char then r
      else p
  end.

(** [self.shared_files.get(filename)] *)
Definition lookup_entry (filename : string) : M (option file_info) := λ w,
  (Ok (shared_files w !! filename), w).

(** [self.shared_files[filename] = info] *)
Definition store (filename : string) (info : file_info) : M unit := λ w,
  (Ok (), set_catalog (<[filename := info]> (shared_files w)) (saved_db w) w).

(** [del self.shared_files[filename]], for a name of the catalog *)
Definition forget (filename : string) : M unit := λ w,
  (Ok (), set_catalog (delete filename (shared_files w)) (saved_db w) w).

(** [_save_shared_files()] *)
Definition _save_shared_files (writable : bool) : M bool := λ w,
  if writable then (Ok true, set_catalog (shared_files w) (shared_files w) w)
  else (Ok false, w).

(** [is_file_shared(filename)] *)
Definition is_file_shared (filename : string) : M bool := λ w,
  (Ok (bool_decide (is_Some (shared_files w !! filename))), w).

(** [remove_shared_file(filename)] *)
Definition remove_shared_file (writable : bool) (filename : string) : M bool :=
  known ← lookup_entry filename;
  match known with
  | Some _ => forget filename;; _save_shared_files writable
  | None => mret false
  end.

(** [get_file_by_hash(file_hash)]: the first entry with this hash; the
    result [None] stands for the pair [(None, None)]. *)
Definition get_file_by_hash (file_hash : string) : M (option (string * file_info)) :=
  λ w, (Ok (List.find (λ kv, String.eqb (hash (snd kv)) file_hash)
                      (map_to_list (shared_files w))), w).

(** An entry of the [files] of a summary *)
Record listed_file : Type := {
  lf_name : string;
  lf_size : Z;
  lf_hash : string;
  lf_path : string
}.

(** The dict that [get_shared_files_summary] returns *)
Record summary : Type := {
  total_files : nat;
  total_size : Z;
  files : list listed_file
}.

(** The loop of [get_shared_files_summary] *)
Fixpoint summary_loop (items : list (string * file_info)) (acc : summary)
    : M summary :=
  match items with
  | [] => mret acc
  | (filename, file_info) :: rest =>
      found ← os_path_exists (Some (path file_info));
      if negb found then summary_loop rest acc
      else
        summary_loop rest
          {| total_files := total_files acc;
             total_size := total_size acc + size file_info;
             files := files acc ++ [{| lf_name := filename; lf_size := size file_info;
                                       lf_hash := hash file_info;
                                       lf_path := path file_info |}] |}
  end.

(** [get_shared_files_summary()] *)
Definition get_shared_files_summary : M summary := λ w,
  summary_loop (map_to_list (shared_files w))
    {| total_files := base.size (shared_files w); total_size := 0; files := [] |} w.

(** The entry of a summary for an entry of the catalog *)
Definition listing (kv : string * file_info) : listed_file :=
  {| lf_name := fst kv; lf_size := size (snd kv); lf_hash := hash (snd kv);
     lf_path := path (snd kv) |}.

Fixpoint sum_sizes (l : list listed_file) : Z :=
  match l with
  | [] => 0
  | f :: r => lf_size f + sum_sizes r
  end.

Section Hashing.

(** [hashlib.sha256(...).hexdigest()] *)
Variable sha256_hex : bytes → string.

(** [_calculate_file_hash(file_path)]: [None] when the file cannot be
    opened *)
Definition _calculate_file_hash (file_path : string) : M (option string) := λ w,
  match (disk w !! file_path : option bytes) with
  | Some content => (Ok (Some (sha256_hex content)), w)
  | None => (Ok None, w)
  end.

(** [add_shared_file(file_path)] *)
Definition add_shared_file (current_time : Z) (writable : bool) (file_path : string)
    : M bool :=
  found ← os_path_exists (Some file_path);
  if negb found then mret false
  else
    let filename := basename file_path in
    file_size ← os_path_getsize file_path;
    file_hash ← _calculate_file_hash file_path;
    match file_hash with
    | None | Some EmptyString => mret false
    | Some file_hash =>
        let entry := {| path := file_path; size := file_size; hash := file_hash;
                        added_time := current_time |} in
        known ← lookup_entry filename;
        match known with
        | Some old =>
            if negb (String.eqb (hash old) file_hash) then store filename entry
            else mret ()
        | None => store filename entry
        end;;
        _save_shared_files writable
    end.

(** [get_file_info(filename)].  The file whose size changed was found on
    disk just before its hash is computed, so the hash is there; an entry
    whose hash is [None] is no entry of these catalogs. *)
Definition get_file_info (writable : bool) (filename : string)
    : M (option file_info) :=
  known ← lookup_entry filename;
  match known with
  | None => mret None
  | Some file_info =>
      found ← os_path_exists (Some (path file_info));
      if negb found then mret None
      else
        current_size ← os_path_getsize (path file_info);
        if negb (current_size =? size file_info) then
          new_hash ← _calculate_file_hash (path file_info);
          match new_hash with
          | Some new_hash =>
              let file_info := {| path := path file_info; size := current_size;
                                  hash := new_hash;
                                  added_time := added_time file_info |} in
              store filename file_info;;
              _save_shared_files writable;;
              mret (Some file_info)
          | None => raise OSError
          end
        else mret (Some file_info)
  end.

(** The integrity check of [validate_shared_files], for an entry whose
    file is on disk (so that its hash is there, as in [get_file_info]) *)
Definition check_integrity (filename : string) (file_info : file_info) : M unit :=
  if negb (String.eqb (hash file_info) EmptyString) then
    current_hash ← _calculate_file_hash (path file_info);
    match current_hash with
    | Some current_hash =>
        if negb (String.eqb current_hash (hash file_info)) then
          file_size ← os_path_getsize (path file_info);
          store filename {| path := path file_info; size := file_size;
                            hash := current_hash;
                            added_time := added_time file_info |}
        else mret ()
    | None => raise OSError
    end
  else mret ().

(** The first loop of [validate_shared_files] *)
Fixpoint validate_loop (items : list (string * file_info)) (invalid_files : list string)
    : M (list string) :=
  match items with
  | [] => mret invalid_files
  | (filename, file_info) :: rest =>
      found ← os_path_exists (Some (path file_info));
      if negb found then validate_loop rest (invalid_files ++ [filename])
      else
        check_integrity filename file_info;;
        validate_loop rest invalid_files
  end.

(** The second loop of [validate_shared_files] *)
Fixpoint forget_all (invalid_files : list string) : M unit :=
  match invalid_files with
  | [] => mret ()
  | filename :: rest => forget filename;; forget_all rest
  end.

(** [validate_shared_files()] *)
Definition validate_shared_files (writable : bool) : M (list string) :=
  items ← (λ w, (Ok (map_to_list (shared_files w)), w));
  invalid_files ← validate_loop items [];
  forget_all invalid_files;;
  match invalid_files with
  | [] => mret ()
  | _ :: _ => _save_shared_files writable;; mret ()
  end;;
  mret invalid_files.

(** The entry for the file at [file_path], as [add_shared_file] builds it *)
Definition entry_of (d : gmap string bytes) (current_time : Z) (file_path : string)
    : file_info :=
  let content := default [] (d !! file_path : option bytes) in
  {| path := file_path; size := Z.of_nat (length content);
     hash := sha256_hex content; added_time := current_time |}.

(** The entry [info] with the size and the hash of what is on disk *)
Definition refreshed_entry (d : gmap string bytes) (info : file_info) : file_info :=
  let content := default [] (d !! path info : option bytes) in
  {| path := path info; size := Z.of_nat (length content);
     hash := sha256_hex content; added_time := added_time info |}.

(** What [validate_shared_files] makes of an entry whose file is on disk *)
Definition validated_entry (d : gmap string bytes) (info : file_info) : file_info :=
  let content := default [] (d !! path info : option bytes) in
  if String.eqb (hash info) EmptyString then info
  else if String.eqb (sha256_hex content) (hash info) then info
  else refreshed_entry d info.

End Hashing.

End Manager.

(** ** Frames of any value, and what an operation leaves untouched *)

Module Session.
Import PyJson Wire Network.

(** The frame that [_send_message] sends for the dict [v] *)
Definition frame_of (v : json) : bytes :=
  let data := encode_utf8 (dumps v) in
  match to_bytes4 (Z.of_nat (length data)) with
  | Some prefix => prefix ++ data
  | None => []
  end.

(** A character with which no JSON text starts: [scan_once] of the Python
    decoder raises for it at once *)
Definition starts_no_value (c : ascii) : bool :=
  negb (existsb (Ascii.eqb c) (dquote :: lit "{[ntf-0123456789NI")).

(** A text that is empty, or white space, or starts (after white space)
    with such a character: [json.loads] raises [JSONDecodeError] for it *)
Definition no_json (s : string) : bool :=
  match skip_ws (list_ascii_of_string s) with
  | [] => true
  | c :: _ => starts_no_value c
  end.

(** A byte that starts no UTF-8 sequence: a continuation byte, [0xC0],
    [0xC1], or a byte above [0xF4] *)
Definition bad_lead (b : Byte.byte) : bool :=
  let n := Byte.to_N b in
  (((128 <=? n) && (n <=? 193)) || (245 <=? n))%N.

(** The operation [m] only reads the files and the catalog and only uses
    the socket: it leaves the files of [disk] as they are, every entry that
    the catalog has afterwards was there before, and the database file is
    written with the catalog only: either the catalog and its saved copy
    are both as they were, or the saved copy is the catalog as it is
    afterwards.  The calls on the socket are those made before followed by
    its own, and it signals nothing and leaves the list of connections as
    it is. *)
Definition read_only {A} (m : M A) : Prop :=
  ∀ w, disk (snd (m w)) = disk w
       ∧ shared_files (snd (m w)) ⊆ shared_files w
       ∧ ((shared_files (snd (m w)) = shared_files w
           ∧ saved_db (snd (m w)) = saved_db w)
          ∨ saved_db (snd (m w)) = shared_files (snd (m w)))
       ∧ (∃ cs, calls (snd (m w)) = calls w ++ cs)
       ∧ events (snd (m w)) = events w
       ∧ connections (snd (m w)) = connections w.

(** The operation [m] leaves the catalog and its saved copy as they are,
    and writes no file but the one at [save], if any. *)
Definition writes_only {A} (save : option string) (m : M A) : Prop :=
  ∀ w, shared_files (snd (m w)) = shared_files w
       ∧ saved_db (snd (m w)) = saved_db w
       ∧ ∀ p, Some p ≠ save → disk (snd (m w)) !! p = disk w !! p.

(** The operation [m] never raises. *)
Definition total {A} (m : M A) : Prop :=
  ∀ w, ∃ a, fst (m w) = Ok a.

End Session.

(** ** [json.dump] with [indent=2], and the files that the file manager
    writes with it *)

Module JsonFile.
Import PyJson Wire Network Manager.

(** A new line and the indentation of the level *)
Definition newline_indent (level : nat) : text :=
  "010"%char :: repeat " "%char (2 * level).

(** [sep.join] *)
Fixpoint join_with (sep : text) (l : list text) : text :=
  match l with
  | [] => []
  | [x] => x
  | x :: r => x ++ sep ++ join_with sep r
  end.

(** The items of a list or of a dict at [level] are separated by a comma
    and start on a line of their own. *)
Definition item_separator (level : nat) : text := ","%char :: newline_indent level.

(** The encoder with [indent=2]: an empty list or dict is written as
    without indentation, and so are the other values that are no list and
    no dict. *)
Fixpoint print_indent (level : nat) (v : json) : text :=
  match v with
  | JArr [] => lit "[]"
  | JArr l =>
      "["%char
        :: newline_indent (S level)
        ++ join_with (item_separator (S level)) (map (print_indent (S level)) l)
        ++ newline_indent level ++ ["]"%char]
  | JObj [] => lit "{}"
  | JObj l =>
      "{"%char
        :: newline_indent (S level)
        ++ join_with (item_separator (S level))
             (map (λ kv, print_string (fst kv) ++ lit ": "
                         ++ print_indent (S level) (snd kv)) l)
        ++ newline_indent level ++ ["}"%char]
  | _ => print v
  end.

(** One [key: value] of a dict printed at [level] *)
Definition print_member_indent (level : nat) (kv : string * json) : text :=
  print_string (fst kv) ++ lit ": " ++ print_indent level (snd kv).

(** [json.dumps(v, indent=2)] *)
Definition dumps_indent (v : json) : string := string_of_list_ascii (print_indent 0 v).

(** [parse_value] reads [v] back from what the encoder wrote for it at any
    level, whatever follows. *)
Definition reads_back_indent (v : json) : Prop :=
  well_formed v = true →
  ∀ (level fuel : nat) (rest : text),
    (PyJson.size v <= fuel)%nat → number_ends rest = true →
    parse_value fuel (print_indent level v ++ rest) = Some (v, rest).

(** The dict of an entry of the catalog, as [add_shared_file] builds it *)
Definition entry_json (info : file_info) : json :=
  JObj [("path"%string, JStr (path info)); ("size"%string, JInt (Wire.size info));
        ("hash"%string, JStr (hash info));
        ("added_time"%string, JInt (added_time info))].

(** The dict [self.shared_files] *)
Definition catalog_json (catalog : gmap string file_info) : json :=
  JObj (map (λ kv, (fst kv, entry_json (snd kv))) (map_to_list catalog)).

(** What [_save_shared_files] writes to the database file *)
Definition db_file (catalog : gmap string file_info) : bytes :=
  encode_utf8 (dumps_indent (catalog_json catalog)).

(** [_load_shared_files()]; [db] is the content of the database file,
    [None] when there is no such file. *)
Definition _load_shared_files (db : option bytes) : result json :=
  match db with
  | None => Ok (JObj [])
  | Some content =>
      match decode_utf8 content with
      | None => Raise UnicodeDecodeError
      | Some s =>
          match loads s with
          | Some v => Ok v
          | None => Ok (JObj [])
          end
      end
  end.

(** The dict of a summary *)
Definition summary_json (sm : summary) : json :=
  JObj [("total_files"%string, JInt (Z.of_nat (total_files sm)));
        ("total_size"%string, JInt (total_size sm));
        ("files"%string,
         JArr (map (λ f, JObj [("name"%string, JStr (lf_name f));
                               ("size"%string, JInt (lf_size f));
                               ("hash"%string, JStr (lf_hash f));
                               ("path"%string, JStr (lf_path f))])
                   (files sm)))].

(** [open(path, 'w')] and the write of the whole text *)
Definition write_text (path : string) (content : bytes) : M unit := λ w,
  (Ok (), set_disk (<[path := content]> (disk w)) w).

(** [export_shared_files_list(output_file)]; [writable] tells whether
    [output_file] can be opened for writing. *)
Definition export_shared_files_list (writable : bool) (output_file : string)
    : M bool :=
  sm ← get_shared_files_summary;
  if negb writable then mret false
  else
    write_text output_file (encode_utf8 (dumps_indent (summary_json sm)));;
    mret true.

End JsonFile.

(** ** The list of peers of the window: [update_peers_list] and the
    address that [request_file] takes from the selected line *)

Module Gui.

Local Open Scope string_scope.

(** [sep in s] *)
Fixpoint contains (sep s : string) : bool :=
  String.prefix sep s
  || match s with
     | EmptyString => false
     | String _ r => contains sep r
     end.

(** [s.split(sep)] for a separator that is not empty, as its first part
    and the parts after it: the text is cut at every occurrence of [sep]
    found from the left, and the search goes on after the occurrence.
    [skip] counts the characters of an occurrence still to pass. *)
Fixpoint split_go (sep : string) (skip : nat) (s : string) : string * list string :=
  match s with
  | EmptyString => (EmptyString, [])
  | String c r =>
      match skip with
      | S k => split_go sep k r
      | O =>
          if String.prefix sep s then
            let (h, t) := split_go sep (String.length sep - 1) r in
            (EmptyString, h :: t)
          else
            let (h, t) := split_go sep 0 r in (String c h, t)
      end
  end.

Definition split (sep s : string) : list string :=
  let (h, t) := split_go sep 0 s in h :: t.

(** [s.rstrip(chars)] *)
Fixpoint rstrip (chars s : string) : string :=
  match s with
  | EmptyString => EmptyString
  | String c r =>
      let r' := rstrip chars r in
      if String.eqb r' EmptyString && contains (String c EmptyString) chars
      then EmptyString
      else String c r'
  end.

(** The line of a peer: [f"{peer['name']} ({peer['address']})"] *)
Definition display_text (name address : string) : string :=
  name ++ " (" ++ address ++ ")".

(** The address that [request_file] takes from the selected line; [None]
    stands for the error dialog of its [except]. *)
Definition peer_address_of (peer_info_text : string) : option string :=
  if contains " (" peer_info_text && contains ")" peer_info_text then
    match split " (" peer_info_text with
    | _ :: part :: _ => Some (rstrip ")" part)
    | _ => None
    end
  else
    match split " - " peer_info_text with
    | part :: _ => Some part
    | [] => None
    end.

End Gui.

(** * Properties *)

(** ** [json.loads] reads back what [json.dumps] writes *)

Section JsonRoundTrip.
Import PyJson.

Lemma scanstring_escape_char (c : ascii) (rest : text) :
  scanstring (escape_char c ++ rest) = push c (scanstring rest).
Proof.
  destruct c as [[] [] [] [] [] [] [] []]; reflexivity.
Qed.

Lemma scanstring_escape (s : string) (rest : text) :
  scanstring (escape s ++ dquote :: rest) = Some (s, rest).
Proof.
  induction s as [|c s IH]; [reflexivity|].
  cbn [escape]. rewrite <- app_assoc, scanstring_escape_char, IH. reflexivity.
Qed.

Lemma parse_string (s : string) (rest : text) (fuel : nat) :
  parse_value (S fuel) (print_string s ++ rest) = Some (JStr s, rest).
Proof.
  unfold print_string. cbn [app parse_value].
  change (Ascii.eqb dquote dquote) with true. cbn iota.
  rewrite <- app_assoc. cbn [app]. by rewrite scanstring_escape.
Qed.

Lemma number_ends_float (rest : text) :
  number_ends rest = true → float_follows rest = false.
Proof.
  destruct rest as [|c [|d r]]; try reflexivity. unfold number_ends, float_follows.
  destruct (Ascii.eqb c "."%char), (Ascii.eqb c "e"%char), (Ascii.eqb c "E"%char);
    rewrite ?orb_true_r; cbn; try discriminate; reflexivity.
Qed.

Lemma number_ends_digit (c : ascii) (rest : text) :
  number_ends (c :: rest) = true → is_digit c = false.
Proof.
  unfold number_ends. destruct (is_digit c); [discriminate|reflexivity].
Qed.

Lemma read_digits_print (d : Decimal.uint) (rest : text) :
  number_ends rest = true →
  read_digits (print_uint d ++ rest) = (d, rest).
Proof.
  intros Hrest. induction d; cbn [print_uint app];
    try (cbn [read_digits]; change (is_digit _) with true; cbn iota;
         rewrite IHd; reflexivity).
  destruct rest as [|c r]; [reflexivity|]. cbn [read_digits].
  by rewrite (number_ends_digit c r Hrest).
Qed.

Lemma nzhead_not_D0 (d r : Decimal.uint) : Decimal.nzhead d ≠ Decimal.D0 r.
Proof. induction d; cbn; try discriminate. exact IHd. Qed.

Lemma to_uint_head (p : positive) (r : Decimal.uint) :
  Pos.to_uint p ≠ Decimal.D0 r.
Proof.
  intros H.
  pose proof (DecimalPos.Unsigned.to_of (Pos.to_uint p)) as Hn.
  rewrite DecimalPos.Unsigned.of_to in Hn. cbn in Hn. rewrite H in Hn.
  unfold Decimal.unorm in Hn. cbn [Decimal.nzhead] in Hn.
  destruct (Decimal.nzhead r) eqn:E; try discriminate.
  - injection Hn as ->. by apply (DecimalPos.Unsigned.to_uint_nonzero p).
  - by apply (nzhead_not_D0 r u).
Qed.

Lemma parse_number_uint (neg : bool) (d : Decimal.uint) (rest : text) :
  d ≠ Decimal.Nil → (∀ r, d ≠ Decimal.D0 r) → number_ends rest = true →
  parse_number ((if neg then ["-"%char] else []) ++ print_uint d ++ rest)
  = Some (Z.of_int (if neg then Decimal.Neg d else Decimal.Pos d), rest).
Proof.
  intros Hnil Hz Hrest.
  pose proof (number_ends_float rest Hrest) as Hfl.
  destruct d as [|d|d|d|d|d|d|d|d|d|d]; try done; try (by destruct (Hz d));
    destruct neg; cbn [app print_uint];
    unfold parse_number;
    cbn [Ascii.eqb Bool.eqb is_digit N_of_ascii N.leb N.compare Pos.compare
         Pos.compare_cont andb];
    cbn [read_digits]; change (is_digit _) with true; cbn iota;
    rewrite (read_digits_print d rest Hrest), Hfl; reflexivity.
Qed.

Lemma parse_number_print (z : Z) (rest : text) :
  number_ends rest = true →
  parse_number (print_int z ++ rest) = Some (z, rest).
Proof.
  intros Hrest. rewrite <- (DecimalZ.of_to z) at 2.
  unfold print_int. destruct z as [|p|p].
  - cbn. by rewrite (number_ends_float rest Hrest).
  - cbn [Z.to_int].
    apply (parse_number_uint false (Pos.to_uint p) rest);
      [apply DecimalPos.Unsigned.to_uint_nonnil | apply to_uint_head | done].
  - cbn [Z.to_int].
    apply (parse_number_uint true (Pos.to_uint p) rest);
      [apply DecimalPos.Unsigned.to_uint_nonnil | apply to_uint_head | done].
Qed.

(** An induction principle that reaches the values inside lists and dicts. *)
Lemma json_nested_ind (P : json → Prop) :
  P JNull → (∀ b, P (JBool b)) → (∀ z, P (JInt z)) → (∀ s, P (JStr s)) →
  (∀ l, Forall P l → P (JArr l)) →
  (∀ l, Forall (λ kv, P (snd kv)) l → P (JObj l)) →
  ∀ v, P v.
Proof.
  intros Hnull Hbool Hint Hstr Harr Hobj.
  fix IH 1. intros [ |b|z|s|l|l];
    [apply Hnull|apply Hbool|apply Hint|apply Hstr| |].
  - apply Harr. revert l. fix IHl 1. intros [|x l]; constructor; [apply IH|apply IHl].
  - apply Hobj. revert l. fix IHl 1.
    intros [|[k x] l]; constructor; [apply IH|apply IHl].
Qed.

Lemma print_uint_first (d : Decimal.uint) :
  d ≠ Decimal.Nil → ∃ c r, print_uint d = c :: r ∧ opens c.
Proof.
  destruct d; [done|..]; intros _; cbn [print_uint]; eexists _, _;
    (split; [reflexivity|by repeat split]).
Qed.

Lemma print_first (v : json) : ∃ c r, print v = c :: r ∧ opens c.
Proof.
  destruct v as [ |[]|z|s|l|l]; cbn [print];
    try (eexists _, _; split; [reflexivity|by repeat split]).
  unfold print_int. destruct z as [|p|p]; cbn [Z.to_int].
  - eexists _, _; split; [reflexivity|by repeat split].
  - apply print_uint_first, DecimalPos.Unsigned.to_uint_nonnil.
  - eexists _, _; split; [reflexivity|by repeat split].
Qed.

Lemma skip_ws_opens (c : ascii) (r : text) :
  opens c → skip_ws (c :: r) = c :: r.
Proof. intros (H & _). cbn. by rewrite H. Qed.

Lemma parse_array_open (fuel : nat) (c : ascii) (r : text) :
  opens c →
  parse_value (S fuel) ("["%char :: c :: r)
  = match parse_items fuel (c :: r) with
    | Some (vs, rest) => Some (JArr vs, rest)
    | None => None
    end.
Proof.
  intros Hc. pose proof (skip_ws_opens c r Hc) as Hs. destruct Hc as (_ & Hb & _).
  cbn [parse_value]. change (Ascii.eqb "[" dquote) with false.
  change (Ascii.eqb "[" "{") with false. change (Ascii.eqb "[" "[") with true.
  cbn iota. rewrite Hs, Hb. reflexivity.
Qed.

Lemma parse_object_open (fuel : nat) (c : ascii) (r : text) :
  opens c →
  parse_value (S fuel) ("{"%char :: c :: r)
  = match parse_members fuel (c :: r) with
    | Some (ms, rest) => Some (JObj (dict_of_pairs ms), rest)
    | None => None
    end.
Proof.
  intros Hc. pose proof (skip_ws_opens c r Hc) as Hs. destruct Hc as (_ & _ & Hb).
  cbn [parse_value]. change (Ascii.eqb "{" dquote) with false.
  change (Ascii.eqb "{" "{") with true.
  cbn iota. rewrite Hs, Hb. reflexivity.
Qed.

(** *** Dicts with different keys are rebuilt as they were *)

Lemma distinct_NoDup (l : list string) : distinct l = true → NoDup l.
Proof.
  induction l as [|k l IH]; cbn; [constructor|].
  intros [Hk Hl]%andb_true_iff. constructor; [|by apply IH].
  intros Hin. apply negb_true_iff in Hk. apply not_true_iff_false in Hk.
  apply Hk, existsb_exists. exists k. split; [by apply list_elem_of_In|].
  apply String.eqb_refl.
Qed.

Lemma dict_set_fresh (k : string) (v : json) (d : list (string * json)) :
  k ∉ d.*1 → dict_set k v d = d ++ [(k, v)].
Proof.
  induction d as [|[k' v'] d IH]; cbn; [done|].
  intros [Hne Hk]%not_elem_of_cons.
  destruct (String.eqb_spec k' k) as [->|_]; [done|]. by rewrite IH.
Qed.

Lemma dict_of_pairs_from (l : list (string * json)) : ∀ d,
  NoDup (d.*1 ++ l.*1) →
  fold_left (λ d kv, dict_set (fst kv) (snd kv) d) l d = d ++ l.
Proof.
  induction l as [|[k v] l IH]; intros d Hnd; cbn [fold_left].
  - by rewrite app_nil_r.
  - cbn [fst snd]. rewrite dict_set_fresh.
    + rewrite IH; [by rewrite <- app_assoc|].
      rewrite fmap_app, <- app_assoc. exact Hnd.
    + apply NoDup_app in Hnd as (_ & Hd & _). intros Hin.
      apply (Hd k Hin). by left.
Qed.

Lemma dict_of_pairs_distinct (l : list (string * json)) :
  distinct (map fst l) = true → dict_of_pairs l = l.
Proof.
  intros H%distinct_NoDup. unfold dict_of_pairs.
  by rewrite dict_of_pairs_from.
Qed.

(** *** Lists and dicts *)

Lemma join_cons2 (x y : text) (r : list text) :
  join (x :: y :: r) = x ++ lit ", " ++ join (y :: r).
Proof. reflexivity. Qed.

Lemma join_first (x : text) (l : list text) (tail : text) :
  (∃ c r, x = c :: r ∧ opens c) →
  ∃ c r, join (x :: l) ++ tail = c :: r ∧ opens c.
Proof.
  intros (c & r & -> & Hc). destruct l as [|y l].
  - by exists c, (r ++ tail).
  - rewrite join_cons2. cbn [app]. eexists _, _. split; [reflexivity|done].
Qed.

Lemma parse_item_step (fuel : nat) (v : json) (tail : text) :
  parse_value fuel (print v ++ tail) = Some (v, tail) →
  parse_items (S fuel) (print v ++ tail)
  = match skip_ws tail with
    | c :: r =>
        if Ascii.eqb c ","%char then
          match parse_items fuel (skip_ws r) with
          | Some (vs, rest') => Some (v :: vs, rest')
          | None => None
          end
        else if Ascii.eqb c "]"%char then Some ([v], r)
        else None
    | [] => None
    end.
Proof. intros H. cbn [parse_items]. by rewrite H. Qed.

Lemma parse_member_step (fuel : nat) (k : string) (v : json) (tail : text) :
  parse_value fuel (print v ++ tail) = Some (v, tail) →
  parse_members (S fuel) (print_string k ++ lit ": " ++ print v ++ tail)
  = match skip_ws tail with
    | c :: r =>
        if Ascii.eqb c ","%char then
          match parse_members fuel (skip_ws r) with
          | Some (ms, rest') => Some ((k, v) :: ms, rest')
          | None => None
          end
        else if Ascii.eqb c "}"%char then Some ([(k, v)], r)
        else None
    | [] => None
    end.
Proof.
  intros H. destruct (print_first v) as (c & r & Hp & Hc).
  unfold print_string. cbn [app parse_members].
  change (Ascii.eqb dquote dquote) with true. cbn iota.
  rewrite <- app_assoc. cbn [app]. rewrite scanstring_escape.
  cbn [lit list_ascii_of_string app skip_ws is_ws Ascii.eqb Bool.eqb orb].
  assert (skip_ws (print v ++ tail) = print v ++ tail) as ->.
  { rewrite Hp. cbn [app]. by apply skip_ws_opens. }
  by rewrite H.
Qed.

Lemma skip_ws_join (x : json) (l : list text) (tail : text) :
  skip_ws (join (print x :: l) ++ tail) = join (print x :: l) ++ tail.
Proof.
  destruct (join_first (print x) l tail (print_first x)) as (c & r & -> & Hc).
  by apply skip_ws_opens.
Qed.

Lemma list_sum_cons (a : nat) (l : list nat) :
  list_sum (a :: l) = (a + list_sum l)%nat.
Proof. reflexivity. Qed.

Lemma parse_items_print (l : list json) :
  Forall reads_back l → forallb well_formed l = true → l ≠ [] →
  ∀ (fuel : nat) (rest : text),
    (list_sum (map (λ x, S (size x)) l) <= fuel)%nat →
    parse_items fuel (join (map print l) ++ "]"%char :: rest) = Some (l, rest).
Proof.
  induction l as [|x l IH]; [done|].
  intros HF Hwf _ fuel rest Hfuel.
  apply Forall_cons in HF as [Hx HF].
  cbn [forallb] in Hwf. apply andb_true_iff in Hwf as [Hwx Hwf].
  cbn [map] in Hfuel. rewrite list_sum_cons in Hfuel.
  destruct fuel as [|fuel]; [lia|].
  destruct l as [|y l].
  - cbn [map join]. rewrite parse_item_step.
    + reflexivity.
    + cbn in Hfuel. apply Hx; [done|lia|reflexivity].
  - cbn [map]. rewrite join_cons2, <- !app_assoc. rewrite parse_item_step.
    + cbn [lit list_ascii_of_string app skip_ws is_ws Ascii.eqb Bool.eqb orb].
      change (join (print y :: map print l)) with (join (map print (y :: l))).
      cbn [map]. rewrite skip_ws_join.
      change (print y :: map print l) with (map print (y :: l)).
      rewrite IH; [reflexivity|done|done|done|lia].
    + apply Hx; [done|lia|reflexivity].
Qed.

Lemma skip_ws_join_members (kv : string * json) (l : list text) (tail : text) :
  skip_ws (join (print_member kv :: l) ++ tail) = join (print_member kv :: l) ++ tail.
Proof.
  destruct (join_first (print_member kv) l tail) as (c & r & -> & Hc).
  - eexists _, _. split; [reflexivity|by repeat split].
  - by apply skip_ws_opens.
Qed.

Lemma parse_members_print (l : list (string * json)) :
  Forall (λ kv, reads_back (snd kv)) l →
  forallb (λ kv, well_formed (snd kv)) l = true → l ≠ [] →
  ∀ (fuel : nat) (rest : text),
    (list_sum (map (λ kv, S (size (snd kv))) l) <= fuel)%nat →
    parse_members fuel (join (map print_member l) ++ "}"%char :: rest)
    = Some (l, rest).
Proof.
  induction l as [|[k x] l IH]; [done|].
  intros HF Hwf _ fuel rest Hfuel.
  apply Forall_cons in HF as [Hx HF]. cbn [snd] in Hx.
  cbn [forallb snd] in Hwf. apply andb_true_iff in Hwf as [Hwx Hwf].
  cbn [map snd] in Hfuel. rewrite list_sum_cons in Hfuel.
  destruct fuel as [|fuel]; [lia|].
  destruct l as [|y l].
  - cbn [map join]. unfold print_member at 1. cbn [fst snd].
    rewrite <- !app_assoc. rewrite parse_member_step.
    + reflexivity.
    + cbn in Hfuel. apply Hx; [done|lia|reflexivity].
  - cbn [map]. rewrite join_cons2. unfold print_member at 1. cbn [fst snd].
    rewrite <- !app_assoc. rewrite parse_member_step.
    + cbn [lit list_ascii_of_string app skip_ws is_ws Ascii.eqb Bool.eqb orb].
      rewrite skip_ws_join_members.
      change (print_member y :: map print_member l)
        with (map print_member (y :: l)).
      rewrite IH; [reflexivity|done|done|done|lia].
    + apply Hx; [done|lia|reflexivity].
Qed.

(** *** Every value *)

Lemma print_int_first (z : Z) :
  ∃ c r, print_int z = c :: r ∧ (is_digit c || Ascii.eqb c "-"%char) = true.
Proof.
  unfold print_int. destruct z as [|p|p]; cbn [Z.to_int]; try by eexists _, _.
  pose proof (DecimalPos.Unsigned.to_uint_nonnil p) as Hnil.
  destruct (Pos.to_uint p); [done|..]; by eexists _, _.
Qed.

Lemma parse_value_number (fuel : nat) (c : ascii) (r : text) :
  (is_digit c || Ascii.eqb c "-"%char) = true →
  parse_value (S fuel) (c :: r)
  = match parse_number (c :: r) with
    | Some (z, rest) => Some (JInt z, rest)
    | None => None
    end.
Proof.
  destruct c as [[] [] [] [] [] [] [] []]; intros H; try discriminate H; reflexivity.
Qed.

Lemma print_array (l : list json) (rest : text) :
  print (JArr l) ++ rest = "["%char :: join (map print l) ++ "]"%char :: rest.
Proof. cbn [print app]. by rewrite <- app_assoc. Qed.

Lemma print_object (l : list (string * json)) (rest : text) :
  print (JObj l) ++ rest
  = "{"%char :: join (map print_member l) ++ "}"%char :: rest.
Proof. cbn [print app]. by rewrite <- app_assoc. Qed.

Theorem parse_print (v : json) : reads_back v.
Proof.
  induction v as [ |b|z|s|l IH|l IH] using json_nested_ind;
    intros Hwf fuel rest Hfuel Hrest;
    (destruct fuel as [|fuel]; [cbn in Hfuel; lia|]).
  - reflexivity.
  - by destruct b.
  - destruct (print_int_first z) as (c & r & Hp & Hc).
    pose proof (parse_number_print z rest Hrest) as Hn.
    cbn [print]. rewrite Hp in *. cbn [app] in *.
    by rewrite parse_value_number, Hn.
  - apply parse_string.
  - rewrite print_array. destruct l as [|x l]; [reflexivity|].
    cbn [map].
    destruct (join_first (print x) (map print l) ("]"%char :: rest) (print_first x))
      as (c & r & Hj & Hc).
    rewrite Hj, parse_array_open, <- Hj by done.
    change (print x :: map print l) with (map print (x :: l)).
    rewrite parse_items_print; [reflexivity|done|done|done|].
    cbn [size] in Hfuel. lia.
  - rewrite print_object. destruct l as [|x l]; [reflexivity|].
    cbn [well_formed] in Hwf. apply andb_true_iff in Hwf as [Hd Hwf].
    cbn [map].
    destruct (join_first (print_member x) (map print_member l) ("}"%char :: rest))
      as (c & r & Hj & Hc).
    { eexists _, _. split; [reflexivity|by repeat split]. }
    rewrite Hj, parse_object_open, <- Hj by done.
    change (print_member x :: map print_member l) with (map print_member (x :: l)).
    rewrite parse_members_print; [|done|done|done|].
    + by rewrite dict_of_pairs_distinct.
    + cbn [size] in Hfuel. lia.
Qed.

(** *** The fuel of [loads] is enough *)

Lemma join_length_bound {A} (g : A → text) (sz : A → nat) (l : list A) :
  Forall (λ x, (sz x <= length (g x))%nat) l →
  (list_sum (map (λ x, S (sz x)) l) <= length (join (map g l)) + 1)%nat.
Proof.
  induction l as [|x l IH]; [cbn; lia|].
  intros [Hx HF]%Forall_cons. specialize (IH HF).
  cbn [map]. rewrite list_sum_cons. destruct l as [|y l].
  - cbn. lia.
  - cbn [map] in *. rewrite join_cons2, !length_app. cbn [lit list_ascii_of_string length].
    lia.
Qed.

Lemma size_le_length (v : json) : (size v <= length (print v))%nat.
Proof.
  induction v as [ |b|z|s|l IH|l IH] using json_nested_ind.
  - cbn. lia.
  - destruct b; cbn; lia.
  - destruct (print_int_first z) as (c & r & Hp & _). cbn [size print].
    rewrite Hp. cbn. lia.
  - cbn. lia.
  - cbn [size print length]. rewrite length_app. cbn [length].
    pose proof (join_length_bound print size l IH). lia.
  - cbn [size print length]. rewrite length_app. cbn [length].
    pose proof (join_length_bound print_member (λ kv, size (snd kv)) l) as H.
    assert (Forall (λ x, (size (snd x) <= length (print_member x))%nat) l) as HF.
    { eapply Forall_impl; [exact IH|]. intros [k x] Hx. unfold print_member.
      rewrite !length_app. cbn [fst snd] in *. lia. }
    specialize (H HF). apply le_n_S. exact H.
Qed.

(** [json.loads(json.dumps(v)) == v] *)
Theorem loads_dumps (v : json) :
  well_formed v = true → loads (dumps v) = Some v.
Proof.
  intros Hwf. unfold loads, dumps.
  rewrite list_ascii_of_string_of_list_ascii.
  destruct (print_first v) as (c & r & Hp & Hc).
  assert (skip_ws (print v) = print v) as ->.
  { rewrite Hp. by apply skip_ws_opens. }
  pose proof (parse_print v Hwf (S (length (print v))) []) as H.
  rewrite app_nil_r in H. rewrite H; [reflexivity| |reflexivity].
  pose proof (size_le_length v). lia.
Qed.

End JsonRoundTrip.

(** ** Bytes and streams *)

Section WireFacts.
Import PyJson Wire.

Lemma to_N_byte_of_N (n : N) : (n < 256)%N → Byte.to_N (byte_of_N n) = n.
Proof.
  intros Hn. unfold byte_of_N. destruct (Byte.of_N n) as [b|] eqn:E.
  - by apply Byte.to_of_N.
  - apply Byte.of_N_None_iff in E. lia.
Qed.

Lemma byte_of_N_to_N (b : Byte.byte) : byte_of_N (Byte.to_N b) = b.
Proof. unfold byte_of_N. by rewrite Byte.of_to_N. Qed.

Lemma to_bytes4_length (n : Z) (b : bytes) :
  to_bytes4 n = Some b → length b = 4%nat.
Proof.
  unfold to_bytes4. destruct (_ && _); [|done]. by intros [= <-].
Qed.

Lemma from_bytes_to_bytes4 (n : Z) :
  0 <= n < 4294967296 →
  ∃ b, to_bytes4 n = Some b ∧ from_bytes b = n.
Proof.
  intros Hn. unfold to_bytes4.
  assert ((0 <=? n) && (n <? 4294967296) = true) as -> by lia.
  eexists. split; [reflexivity|].
  unfold from_bytes. cbn [fold_left].
  rewrite !to_N_byte_of_N by (apply N2Z.inj_lt; rewrite Z2N.id;
    [change (Z.of_N 256) with 256| ]; Z.to_euclidean_division_equations; lia).
  rewrite !Z2N.id by (Z.to_euclidean_division_equations; lia).
  Z.to_euclidean_division_equations; lia.
Qed.

Lemma to_bytes4_overflow (n : Z) : 4294967296 <= n → to_bytes4 n = None.
Proof.
  intros Hn. unfold to_bytes4.
  by assert ((0 <=? n) && (n <? 4294967296) = false) as -> by lia.
Qed.

(** *** UTF-8 *)

Lemma decode_encode_char (c : ascii) (rest : bytes) :
  decode_utf8 (encode_char c ++ rest)
  = option_map (String c) (decode_utf8 rest).
Proof.
  destruct c as [[] [] [] [] [] [] [] []]; reflexivity.
Qed.

Lemma decode_encode_utf8 (s : string) : decode_utf8 (encode_utf8 s) = Some s.
Proof.
  induction s as [|c s IH]; [reflexivity|].
  cbn [encode_utf8]. by rewrite decode_encode_char, IH.
Qed.

Lemma only_recv_sent (cs : list call) : forallb is_recv cs = true → sent cs = [].
Proof.
  induction cs as [|c cs IH]; [done|].
  destruct c; cbn; try discriminate; exact IH.
Qed.

(** *** Sequencing *)

Lemma bind_unfold {A B} (m : M A) (f : A → M B) (w : world) :
  (m ≫= f) w
  = match m w with
    | (Ok a, w') => f a w'
    | (Raise e, w') => (Raise e, w')
    end.
Proof. reflexivity. Qed.

Lemma bind_ok {A B} (m : M A) (f : A → M B) (w w' : world) (a : A) :
  m w = (Ok a, w') → (m ≫= f) w = f a w'.
Proof. intros H. by rewrite bind_unfold, H. Qed.

Lemma bind_raise {A B} (m : M A) (f : A → M B) (w w' : world) (e : exn) :
  m w = (Raise e, w') → (m ≫= f) w = (Raise e, w').
Proof. intros H. by rewrite bind_unfold, H. Qed.

Lemma try_except_bind_ok {A B} (m : M A) (f : A → M B) (h : exn → M B)
    (w w' : world) (a : A) :
  m w = (Ok a, w') → try_except (m ≫= f) h w = try_except (f a) h w'.
Proof. intros H. unfold try_except. by rewrite bind_unfold, H. Qed.

(** *** Reading from a stream *)

Lemma recv_spec (n : nat) (st : stream) :
  (0 < n)%nat →
  match recv n st with
  | Some (chunk, st') =>
      stream_bytes st = chunk ++ stream_bytes st'
      ∧ closes st' = closes st
      ∧ (length chunk <= n)%nat
      ∧ (chunk = [] → stream_bytes st = [] ∧ closes st = true)
  | None => stream_bytes st = [] ∧ closes st = false
  end.
Proof.
  intros Hn. induction st as [ | |c rest IH]; cbn [recv].
  { cbn. split_and!; auto with lia. }
  { done. }
  destruct c as [|x c]; [exact IH|].
  cbn [stream_bytes closes]. split_and!.
  - rewrite <- (take_drop n (x :: c)) at 1. rewrite <- app_assoc. f_equal.
    by destruct (drop n (x :: c)).
  - by destruct (drop n (x :: c)).
  - rewrite length_take. lia.
  - destruct n; [lia|]. done.
Qed.

Lemma received_app (cs cs' : list call) :
  received (cs ++ cs') = received cs ++ received cs'.
Proof.
  induction cs as [|c cs IH]; [done|].
  destruct c; cbn [app received]; rewrite IH; by rewrite ?app_assoc.
Qed.

Lemma sent_app (cs cs' : list call) : sent (cs ++ cs') = sent cs ++ sent cs'.
Proof.
  induction cs as [|c cs IH]; [done|].
  destruct c; cbn [app sent]; rewrite IH; by rewrite ?app_assoc.
Qed.

Lemma set_socket_same (w : world) : set_socket (incoming w) (calls w ++ []) w = w.
Proof. destruct w. unfold set_socket. cbn. by rewrite app_nil_r. Qed.

Lemma app_prefix_split (chunk rest data more : bytes) :
  chunk ++ rest = data ++ more → (length chunk <= length data)%nat →
  ∃ data', data = chunk ++ data' ∧ rest = data' ++ more.
Proof.
  intros Heq Hlen. exists (drop (length chunk) data).
  assert (chunk = take (length chunk) data) as Hc.
  { apply (f_equal (take (length chunk))) in Heq.
    rewrite take_app_length in Heq. by rewrite take_app_le in Heq. }
  split.
  - rewrite Hc at 1. by rewrite take_drop.
  - apply (f_equal (drop (length chunk))) in Heq.
    rewrite drop_app_length in Heq. by rewrite drop_app_le in Heq.
Qed.

(** [_receive_exact] hands over the next [num_bytes] bytes of the stream,
    however the transport cuts them into chunks, and leaves the rest. *)
Lemma receive_exact_loop_ok (fuel : nat) : ∀ (n : nat) (acc : bytes) (w : world)
    (data more : bytes),
  stream_bytes (incoming w) = data ++ more →
  (length acc + length data = n)%nat → (length data <= fuel)%nat →
  ∃ st' cs',
    receive_exact_loop fuel n acc w
    = (Ok (Some (acc ++ data)), set_socket st' (calls w ++ cs') w)
    ∧ stream_bytes st' = more
    ∧ closes st' = closes (incoming w)
    ∧ received cs' = data
    ∧ sent cs' = []
    ∧ forallb is_recv cs' = true.
Proof.
  induction fuel as [|fuel IH]; intros n acc w data more Hst Hlen Hfuel.
  - destruct data; [|cbn in Hfuel; lia]. cbn in Hlen.
    exists (incoming w), []. cbn [receive_exact_loop].
    assert ((length acc <? n)%nat = false) as -> by (apply Nat.ltb_ge; lia).
    rewrite app_nil_r, set_socket_same. done.
  - cbn [receive_exact_loop].
    destruct data as [|d data].
    { cbn in Hlen. exists (incoming w), [].
      assert ((length acc <? n)%nat = false) as -> by (apply Nat.ltb_ge; lia).
      rewrite app_nil_r, set_socket_same. done. }
    cbn [length] in Hlen, Hfuel.
    assert ((length acc <? n)%nat = true) as -> by (apply Nat.ltb_lt; lia).
    unfold mbind, M_bind, sock_recv.
    pose proof (recv_spec (n - length acc) (incoming w)) as Hr.
    destruct (recv (n - length acc) (incoming w)) as [[chunk st1]|].
    + destruct Hr as (Hb & Hc & Hl & He); [lia|].
      destruct chunk as [|c chunk].
      { destruct He as [He _]; [done|]. by rewrite He in Hst. }
      rewrite Hst in Hb. symmetry in Hb.
      destruct (app_prefix_split _ _ _ _ Hb) as (data' & Hd & Hm);
        [cbn [length] in *; lia|].
      set (w1 := set_socket st1 (calls w ++ [Recv (n - length acc) (c :: chunk)]) w).
      destruct (IH n (acc ++ c :: chunk) w1 data' more) as (st' & cs' & Hres & Hs & Hcl & Hrc & Hsn & Hall).
      * done.
      * rewrite length_app.
        apply (f_equal length) in Hd. rewrite length_app in Hd.
        cbn [length] in *. lia.
      * apply (f_equal length) in Hd. rewrite length_app in Hd.
        cbn [length] in *. lia.
      * exists st', (Recv (n - length acc) (c :: chunk) :: cs').
        rewrite Hres. split_and!.
        -- rewrite Hd, <- app_assoc. f_equal. unfold w1, set_socket. cbn.
           by rewrite <- app_assoc.
        -- done.
        -- by rewrite Hcl.
        -- cbn [received]. by rewrite Hrc.
        -- done.
        -- done.
    + destruct Hr as [He _]; [lia|]. by rewrite He in Hst.
Qed.

Lemma receive_exact_ok (n : nat) (w : world) (data more : bytes) :
  stream_bytes (incoming w) = data ++ more → length data = n →
  ∃ st' cs',
    _receive_exact n w = (Ok (Some data), set_socket st' (calls w ++ cs') w)
    ∧ stream_bytes st' = more
    ∧ closes st' = closes (incoming w)
    ∧ received cs' = data
    ∧ sent cs' = []
    ∧ forallb is_recv cs' = true.
Proof.
  intros Hst Hn. unfold _receive_exact.
  apply (receive_exact_loop_ok n n [] w data more); [done|done|lia].
Qed.

End WireFacts.

(** ** Frames: what [_send_message] writes and [_receive_message] reads *)

Section Frames.
Import PyJson Wire Protocol.

Lemma to_json_well_formed (m : Message) : well_formed (to_json m) = true.
Proof.
  destruct m as [ |files|filename|success [filename|] [size|] [error|]| |];
    try reflexivity.
  cbn. rewrite andb_true_r. induction files as [|fd files IH]; [done|].
  cbn. exact IH.
Qed.

Lemma encode_utf8_length (s : string) :
  (String.length s <= length (encode_utf8 s))%nat.
Proof.
  induction s as [|c s IH]; [done|]. cbn [encode_utf8 String.length].
  rewrite length_app. unfold encode_char.
  destruct (N_of_ascii c <? 128)%N; cbn [length]; lia.
Qed.

Lemma string_of_list_ascii_length (l : list ascii) :
  String.length (string_of_list_ascii l) = length l.
Proof. induction l as [|c l IH]; cbn; [done|]. by rewrite IH. Qed.

Lemma payload_nonempty (v : json) : encode_utf8 (dumps v) ≠ [].
Proof.
  intros H. apply (f_equal length) in H.
  pose proof (encode_utf8_length (dumps v)) as Hl.
  unfold dumps in Hl. rewrite string_of_list_ascii_length in Hl.
  destruct (print_first v) as (c & r & Hp & _). rewrite Hp in Hl.
  unfold dumps in H. rewrite Hp in H. rewrite H in Hl. cbn [length] in Hl. lia.
Qed.

Lemma decode_message_dumps (v : json) (w : world) :
  well_formed v = true →
  decode_message (encode_utf8 (dumps v)) w = (Ok v, w).
Proof.
  intros Hwf. unfold decode_message.
  by rewrite decode_encode_utf8, loads_dumps.
Qed.

(** [_send_message] sends the length of the payload on four bytes and
    then the payload, when the length fits. *)
Lemma send_message_spec (v : json) (w : world) :
  let data := encode_utf8 (dumps v) in
  Z.of_nat (length data) < 4294967296 →
  ∃ prefix,
    to_bytes4 (Z.of_nat (length data)) = Some prefix
    ∧ length prefix = 4%nat
    ∧ from_bytes prefix = Z.of_nat (length data)
    ∧ _send_message v w
      = (Ok true, set_socket (incoming w) (calls w ++ [Send prefix; Send data]) w).
Proof.
  intros data Hlen.
  destruct (from_bytes_to_bytes4 (Z.of_nat (length data))) as (prefix & Hp & Hf);
    [lia|].
  exists prefix. split_and!; auto.
  - by eapply to_bytes4_length.
  - unfold _send_message. fold data. rewrite Hp.
    unfold mbind, M_bind, sock_send, mret, M_ret, set_socket. cbn.
    by rewrite <- app_assoc.
Qed.

(** [_receive_message] on a stream that delivers a frame *)
Lemma receive_message_spec (v : json) (w : world) (prefix more : bytes) :
  let data := encode_utf8 (dumps v) in
  well_formed v = true →
  length prefix = 4%nat → from_bytes prefix = Z.of_nat (length data) →
  Z.of_nat (length data) <= 1048576 →
  stream_bytes (incoming w) = prefix ++ data ++ more →
  ∃ st' cs',
    _receive_message w = (Ok (Some v), set_socket st' (calls w ++ cs') w)
    ∧ stream_bytes st' = more
    ∧ closes st' = closes (incoming w)
    ∧ received cs' = prefix ++ data
    ∧ sent cs' = [].
Proof.
  intros data Hwf Hp Hf Hlen Hst.
  destruct (receive_exact_ok 4 w prefix (data ++ more) Hst Hp)
    as (st1 & cs1 & Hr1 & Hs1 & Hc1 & Hrc1 & Hsn1 & _).
  set (w1 := set_socket st1 (calls w ++ cs1) w) in *.
  destruct (receive_exact_ok (length data) w1 data more)
    as (st2 & cs2 & Hr2 & Hs2 & Hc2 & Hrc2 & Hsn2 & _); [done|done|].
  exists st2, (cs1 ++ cs2).
  unfold _receive_message, try_except, mbind, M_bind. rewrite Hr1.
  destruct prefix as [|p0 prefix]; [done|].
  rewrite Hf.
  assert ((1048576 <? Z.of_nat (length data)) = false) as -> by lia.
  rewrite Nat2Z.id, Hr2.
  pose proof (payload_nonempty v) as Hne. fold data in Hne.
  destruct data as [|d0 data'] eqn:Hd; [done|]. rewrite <- Hd in *.
  unfold data in *. rewrite decode_message_dumps by done.
  unfold mret, M_ret. split_and!.
  - f_equal. unfold w1, set_socket. cbn. by rewrite <- app_assoc.
  - done.
  - by rewrite Hc2.
  - by rewrite received_app, Hrc1, Hrc2.
  - by rewrite sent_app, Hsn1, Hsn2.
Qed.

(** [_receive_message] on a frame whose declared length is above the
    limit: the four bytes of the length are read and nothing else. *)
Lemma receive_message_oversize (w : world) (prefix more : bytes) :
  length prefix = 4%nat → 1048576 < from_bytes prefix →
  stream_bytes (incoming w) = prefix ++ more →
  ∃ st' cs',
    _receive_message w = (Ok None, set_socket st' (calls w ++ cs') w)
    ∧ stream_bytes st' = more
    ∧ received cs' = prefix
    ∧ sent cs' = [].
Proof.
  intros Hp Hf Hst.
  destruct (receive_exact_ok 4 w prefix more Hst Hp)
    as (st1 & cs1 & Hr1 & Hs1 & Hc1 & Hrc1 & Hsn1 & _).
  exists st1, cs1.
  unfold _receive_message, try_except, mbind, M_bind. rewrite Hr1.
  destruct prefix as [|p0 prefix]; [done|].
  assert ((1048576 <? from_bytes (p0 :: prefix)) = true) as -> by lia.
  done.
Qed.

Lemma escape_char_length (c : ascii) :
  (1 <= length (escape_char c) <= 6)%nat.
Proof. destruct c as [[] [] [] [] [] [] [] []]; vm_compute; lia. Qed.

Lemma escape_length (s : string) :
  (String.length s <= length (escape s) <= 6 * String.length s)%nat.
Proof.
  induction s as [|c s IH]; [cbn; lia|].
  cbn [escape String.length]. rewrite length_app.
  pose proof (escape_char_length c). lia.
Qed.

Lemma encode_utf8_length_upper (s : string) :
  (length (encode_utf8 s) <= 2 * String.length s)%nat.
Proof.
  induction s as [|c s IH]; [cbn; lia|]. cbn [encode_utf8 String.length].
  rewrite length_app. unfold encode_char.
  destruct (N_of_ascii c <? 128)%N; cbn [length]; lia.
Qed.

Lemma print_string_length (s : string) :
  length (print_string s) = (2 + length (escape s))%nat.
Proof. unfold print_string. cbn [length]. rewrite length_app. cbn. lia. Qed.

Lemma file_request_payload_length (name : string) :
  (String.length name < length (payload (FileRequest name))
   <= 12 * String.length name + 100)%nat.
Proof.
  unfold payload, dumps.
  pose proof (encode_utf8_length
                (string_of_list_ascii (print (to_json (FileRequest name))))) as Hlo.
  pose proof (encode_utf8_length_upper
                (string_of_list_ascii (print (to_json (FileRequest name))))) as Hhi.
  rewrite string_of_list_ascii_length in Hlo, Hhi.
  assert (length (print (to_json (FileRequest name)))
          = (40 + length (escape name))%nat) as Hlen.
  { cbn [to_json print map join fst snd].
    cbn [length]. rewrite !length_app.
    cbn [length lit list_ascii_of_string app]. rewrite ?length_app.
    cbn [length]. rewrite !print_string_length.
    change (length (escape "type")) with 4%nat.
    change (length (escape "file_request")) with 12%nat.
    change (length (escape "filename")) with 8%nat.
    lia. }
  pose proof (escape_length name). lia.
Qed.

Lemma frame_spec (m : Message) :
  Z.of_nat (length (payload m)) < 4294967296 →
  ∃ prefix, frame m = prefix ++ payload m
            ∧ to_bytes4 (Z.of_nat (length (payload m))) = Some prefix
            ∧ length prefix = 4%nat
            ∧ from_bytes prefix = Z.of_nat (length (payload m)).
Proof.
  intros Hlen.
  destruct (from_bytes_to_bytes4 (Z.of_nat (length (payload m))))
    as (prefix & Hp & Hf); [lia|].
  exists prefix. unfold frame. rewrite Hp. split_and!; auto.
  by eapply to_bytes4_length.
Qed.

(** C1, amended.  For every message of the protocol whose payload has at
    most 1,048,576 bytes, [_send_message] sends the frame of the message
    (the length of the payload on four bytes, most significant first, then
    the payload), and [_receive_message], on a connection that delivers
    this frame in whatever chunks, reads the four bytes and exactly the
    bytes of the payload, leaves what follows on the connection, and
    returns the dict of the message. *)
Theorem message_round_trip (m : Message) (w w' : world) (more : bytes) :
  Z.of_nat (length (payload m)) <= 1048576 →
  stream_bytes (incoming w') = frame m ++ more →
  ∃ prefix,
    frame m = prefix ++ payload m
    ∧ length prefix = 4%nat
    ∧ from_bytes prefix = Z.of_nat (length (payload m))
    ∧ _send_message (to_json m) w
      = (Ok true,
         set_socket (incoming w) (calls w ++ [Send prefix; Send (payload m)]) w)
    ∧ ∃ st' cs',
        _receive_message w'
        = (Ok (Some (to_json m)), set_socket st' (calls w' ++ cs') w')
        ∧ stream_bytes st' = more
        ∧ received cs' = frame m.
Proof.
  intros Hlen Hst.
  destruct (frame_spec m) as (prefix & Hfr & Hp & Hl & Hf); [lia|].
  exists prefix. split_and!; auto.
  - destruct (send_message_spec (to_json m) w) as (prefix' & Hp' & _ & _ & Hs);
      [unfold payload in Hlen; lia|].
    unfold payload in Hp. rewrite Hp in Hp'. injection Hp' as <-. exact Hs.
  - rewrite Hfr, <- app_assoc in Hst.
    unfold payload in *.
    destruct (receive_message_spec (to_json m) w' prefix more
                (to_json_well_formed m) Hl Hf Hlen Hst)
      as (st' & cs' & Hr & Hs & _ & Hrc & _).
    exists st', cs'. by rewrite Hfr.
Qed.

Lemma message_round_trip_witness :
  ∃ prefix,
    frame Ping = prefix ++ payload Ping
    ∧ length prefix = 4%nat
    ∧ from_bytes prefix = Z.of_nat (length (payload Ping))
    ∧ _send_message (to_json Ping) (world_of Closed)
      = (Ok true,
         set_socket Closed ([] ++ [Send prefix; Send (payload Ping)])
                    (world_of Closed))
    ∧ ∃ st' cs',
        _receive_message (world_of (Chunk (frame Ping) Closed))
        = (Ok (Some (to_json Ping)),
           set_socket st' ([] ++ cs') (world_of (Chunk (frame Ping) Closed)))
        ∧ stream_bytes st' = []
        ∧ received cs' = frame Ping.
Proof.
  apply (message_round_trip Ping (world_of Closed)
           (world_of (Chunk (frame Ping) Closed)) []).
  - vm_compute. discriminate.
  - cbn [world_of incoming stream_bytes]. reflexivity.
Defined.

Lemma long_request_length :
  1048576 < Z.of_nat (length (payload long_request)) < 4294967296.
Proof.
  pose proof (file_request_payload_length
                (string_of_list_ascii (repeat "a"%char (Z.to_nat 1048576)))) as H.
  rewrite string_of_list_ascii_length, repeat_length in H.
  unfold long_request. lia.
Qed.

(** A message whose payload is above the limit is sent, and
    [_receive_message] returns [None] for its frame. *)
Lemma oversize_message_lost (m : Message) :
  1048576 < Z.of_nat (length (payload m)) < 4294967296 →
  fst (_send_message (to_json m) (world_of Closed)) = Ok true
  ∧ fst (_receive_message (world_of (Chunk (frame m) Closed))) = Ok None.
Proof.
  intros Hlen. split.
  - destruct (send_message_spec (to_json m) (world_of Closed))
      as (prefix & _ & _ & _ & Hs); [unfold payload in Hlen; lia|].
    rewrite Hs. reflexivity.
  - destruct (frame_spec m) as (prefix & Hfr & Hp & Hl & Hf); [lia|].
    assert (1048576 < from_bytes prefix) as Hlt by lia.
    assert (stream_bytes (incoming (world_of (Chunk (frame m) Closed)))
            = prefix ++ (payload m ++ [])) as Hst.
    { cbn [world_of incoming stream_bytes]. rewrite Hfr.
      symmetry. apply app_assoc. }
    destruct (receive_message_oversize _ prefix (payload m ++ []) Hl Hlt Hst)
      as (st' & cs' & Hr & _).
    rewrite Hr. reflexivity.
Qed.

(** C1 as stated fails: the request for a file whose name has 1,048,576
    characters is sent, and is not what [_receive_message] returns. *)
Lemma long_request_not_read_back :
  fst (_send_message (to_json long_request) (world_of Closed)) = Ok true
  ∧ fst (_receive_message (world_of (Chunk (frame long_request) Closed)))
    ≠ Ok (Some (to_json long_request)).
Proof.
  destruct (oversize_message_lost long_request long_request_length) as [Hs Hr].
  split; [exact Hs|]. rewrite Hr. discriminate.
Qed.

End Frames.

(** ** The server: frames *)

Section ServerFrames.
Import PyJson Wire Protocol Network.

Variable sha256_hex : bytes → string.
Variable client_info : string * Z.

Lemma frame_refused_oversize (w : world) (prefix more : bytes) :
  length prefix = 4%nat → 1048576 < from_bytes prefix →
  stream_bytes (incoming w) = prefix ++ more →
  frame_refused sha256_hex client_info w prefix more.
Proof.
  intros Hp Hf Hst.
  destruct (receive_exact_ok 4 w prefix more Hst Hp)
    as (st1 & cs1 & Hr1 & Hs1 & Hc1 & Hrc1 & Hsn1 & Hall1).
  exists st1, cs1. split_and!; auto.
  unfold handle_frame, mbind, M_bind. rewrite Hr1.
  destruct prefix as [|p0 prefix]; [done|].
  by assert ((1048576 <? from_bytes (p0 :: prefix)) = true) as -> by lia.
Qed.

Lemma frame_processed_in_limit (w : world) (prefix payload more : bytes) :
  length prefix = 4%nat → from_bytes prefix = Z.of_nat (length payload) →
  payload ≠ [] → Z.of_nat (length payload) <= 1048576 →
  stream_bytes (incoming w) = prefix ++ payload ++ more →
  frame_processed sha256_hex client_info w prefix payload more.
Proof.
  intros Hp Hf Hne Hlen Hst.
  destruct (receive_exact_ok 4 w prefix (payload ++ more) Hst Hp)
    as (st1 & cs1 & Hr1 & Hs1 & Hc1 & Hrc1 & Hsn1 & Hall1).
  set (w1 := set_socket st1 (calls w ++ cs1) w) in *.
  destruct (receive_exact_ok (length payload) w1 payload more)
    as (st2 & cs2 & Hr2 & Hs2 & Hc2 & Hrc2 & Hsn2 & Hall2); [done|done|].
  exists st2, (cs1 ++ cs2). split_and!.
  - unfold handle_frame. unfold mbind at 1. unfold M_bind at 1. rewrite Hr1.
    destruct prefix as [|p0 prefix]; [done|]. rewrite Hf.
    assert ((1048576 <? Z.of_nat (length payload)) = false) as -> by lia.
    rewrite Nat2Z.id. unfold mbind at 1. unfold M_bind at 1. rewrite Hr2.
    destruct payload as [|b0 payload]; [done|].
    unfold w1, set_socket. cbn. by rewrite <- app_assoc.
  - done.
  - by rewrite received_app, Hrc1, Hrc2.
  - by rewrite forallb_app, Hall1, Hall2.
Qed.

(** When the loop of [_handle_client] breaks at its first turn, the
    connection is closed in the state that the turn left. *)
Lemma handle_client_break (running client_socket : nat) (w w1 : world) :
  handle_frame sha256_hex client_info w = (Ok Break, w1) →
  _handle_client sha256_hex (S running) client_socket client_info w
  = (Ok (), hung_up client_socket client_info w1).
Proof.
  intros H. unfold _handle_client, try_finally, try_except. cbn [handler_loop].
  rewrite bind_unfold, H. unfold hung_up.
  unfold mbind, M_bind, mret, M_ret, sock_close, forget_connection, signal.
  reflexivity.
Qed.

(** C6, amended.  When the declared length of an incoming frame is above
    1,048,576, the turn of the loop ends the loop having read the four bytes
    of the length and nothing of what follows, and [_handle_client] closes
    the connection; when the declared length is between 1 and 1,048,576 and
    the payload arrives, the four bytes and exactly the payload are read,
    the payload is decoded and dispatched, and the loop goes on. *)
Theorem frame_size_limit (running client_socket : nat) (w : world)
    (prefix payload more : bytes) :
  length prefix = 4%nat →
  stream_bytes (incoming w) = prefix ++ payload ++ more →
  (1048576 < from_bytes prefix →
     frame_refused sha256_hex client_info w prefix (payload ++ more)
     ∧ ∃ st' cs',
         _handle_client sha256_hex (S running) client_socket client_info w
         = (Ok (), hung_up client_socket client_info
                     (set_socket st' (calls w ++ cs') w))
         ∧ stream_bytes st' = payload ++ more
         ∧ received cs' = prefix
         ∧ forallb is_recv cs' = true)
  ∧ (from_bytes prefix = Z.of_nat (length payload) → payload ≠ [] →
     Z.of_nat (length payload) <= 1048576 →
     frame_processed sha256_hex client_info w prefix payload more).
Proof.
  intros Hp Hst. split.
  - intros Hf.
    pose proof (frame_refused_oversize w prefix (payload ++ more) Hp Hf Hst) as Hr.
    split; [exact Hr|].
    destruct Hr as (st' & cs' & Hh & Hs & Hrc & Hsn).
    exists st', cs'. split_and!; auto.
    by apply handle_client_break.
  - intros Hf Hne Hlen. by apply frame_processed_in_limit.
Qed.

End ServerFrames.

Lemma frame_size_limit_witness :
  Network.frame_refused (λ _, EmptyString) ("AA:BB"%string, 1)
    (Protocol.world_of
       (Wire.Chunk [Byte.x00; Byte.x10; Byte.x00; Byte.x01; Byte.x41] Wire.Closed))
    [Byte.x00; Byte.x10; Byte.x00; Byte.x01] ([] ++ [Byte.x41])
  ∧ Network.frame_processed (λ _, EmptyString) ("AA:BB"%string, 1)
      (Protocol.world_of (Wire.Chunk (Protocol.frame Protocol.Ping) Wire.Closed))
      (take 4 (Protocol.frame Protocol.Ping)) (Protocol.payload Protocol.Ping) [].
Proof.
  split.
  - apply (frame_size_limit (λ _, EmptyString) ("AA:BB"%string, 1) 0 0
             (Protocol.world_of
                (Wire.Chunk [Byte.x00; Byte.x10; Byte.x00; Byte.x01; Byte.x41]
                            Wire.Closed))
             [Byte.x00; Byte.x10; Byte.x00; Byte.x01] [] [Byte.x41]);
      [reflexivity | reflexivity | vm_compute; reflexivity].
  - apply (frame_size_limit (λ _, EmptyString) ("AA:BB"%string, 1) 0 0
             (Protocol.world_of (Wire.Chunk (Protocol.frame Protocol.Ping) Wire.Closed))
             (take 4 (Protocol.frame Protocol.Ping)) (Protocol.payload Protocol.Ping) []);
      [reflexivity | vm_compute; reflexivity | vm_compute; reflexivity
       | vm_compute; discriminate | vm_compute; discriminate].
Defined.

(** C6 as stated fails: a frame that declares the length 0 is within the
    limit, yet it is not processed, it ends the loop. *)
Lemma empty_frame_not_processed :
  ¬ Network.frame_processed (λ _, EmptyString) ("AA:BB"%string, 1)
      (Protocol.world_of
         (Wire.Chunk [Byte.x00; Byte.x00; Byte.x00; Byte.x00]
                     (Wire.Chunk (Protocol.frame Protocol.Ping) Wire.Closed)))
      [Byte.x00; Byte.x00; Byte.x00; Byte.x00] [] (Protocol.frame Protocol.Ping).
Proof.
  intros (st' & cs' & H & _). apply (f_equal fst) in H.
  vm_compute in H. discriminate H.
Qed.

(** ** The server: requests for a file *)

Section ServerRequests.
Import PyJson Wire Protocol Network.

Variable sha256_hex : bytes → string.
Variable client_info : string * Z.

Lemma process_file_request (d : list (string * json)) (w : world) :
  dict_lookup "type" d = Some (JStr "file_request") →
  _process_message sha256_hex (JObj d) w
  = _handle_file_request (JObj d) w.
Proof.
  intros Ht. unfold _process_message, py_get.
  rewrite bind_unfold. unfold mret at 1. unfold M_ret at 1. by rewrite Ht.
Qed.

(** A request without a file name, or with one that is false, is dropped. *)
Lemma file_request_dropped (d : list (string * json)) (w : world) :
  dict_lookup "type" d = Some (JStr "file_request") →
  not_value (dict_lookup "filename" d) = true →
  _process_message sha256_hex (JObj d) w = (Ok (), w).
Proof.
  intros Ht Hf. rewrite process_file_request by done.
  unfold _handle_file_request, py_get. rewrite bind_unfold.
  unfold mret at 1. unfold M_ret at 1.
  destruct (dict_lookup "filename" d) as [v|]; [|done].
  cbn in Hf. apply negb_true_iff in Hf. by rewrite Hf.
Qed.

(** A request for a name that the catalog does not have raises
    [TypeError], out of [os.path.exists(None)]. *)
Lemma file_request_unknown_name (d : list (string * json)) (name : string)
    (w : world) :
  dict_lookup "type" d = Some (JStr "file_request") →
  dict_lookup "filename" d = Some (JStr name) → name ≠ EmptyString →
  shared_files w !! name = None →
  _process_message sha256_hex (JObj d) w = (Raise TypeError, w).
Proof.
  intros Ht Hf Hne Hcat. rewrite process_file_request by done.
  unfold _handle_file_request, py_get. rewrite bind_unfold.
  unfold mret at 1. unfold M_ret at 1. rewrite Hf.
  assert (truthy (JStr name) = true) as ->.
  { cbn. destruct name; [done|reflexivity]. }
  cbn [negb]. rewrite bind_unfold. unfold get_file_path. rewrite Hcat.
  reflexivity.
Qed.

(** A request for a name of the catalog whose file is gone is answered
    with [File not found]. *)
Lemma file_request_missing_file (d : list (string * json)) (name : string)
    (info : file_info) (w : world) :
  dict_lookup "type" d = Some (JStr "file_request") →
  dict_lookup "filename" d = Some (JStr name) → name ≠ EmptyString →
  shared_files w !! name = Some info → disk w !! path info = None →
  _process_message sha256_hex (JObj d) w
  = (_send_message
       (to_json (FileResponse false None None (Some "File not found"%string)));;
     mret ()) w.
Proof.
  intros Ht Hf Hne Hcat Hdisk. rewrite process_file_request by done.
  unfold _handle_file_request, py_get. rewrite bind_unfold.
  unfold mret at 1. unfold M_ret at 1. rewrite Hf.
  assert (truthy (JStr name) = true) as ->.
  { cbn. destruct name; [done|reflexivity]. }
  cbn [negb]. rewrite bind_unfold. unfold get_file_path. rewrite Hcat.
  cbn [fmap option_fmap option_map]. rewrite bind_unfold.
  unfold os_path_exists. rewrite Hdisk.
  rewrite bool_decide_eq_false_2 by (by intros [? ?]).
  reflexivity.
Qed.

(** What a turn of the loop does with a payload that decodes to [message] *)
Lemma dispatch_decoded (payload : bytes) (text : string) (message : json)
    (w : world) :
  decode_utf8 payload = Some text → loads text = Some message →
  dispatch sha256_hex client_info payload w
  = match _process_message sha256_hex message w with
    | (Raise JSONDecodeError, w') => (Ok (), add_log (LogInvalidJSON (fst client_info)) w')
    | r => r
    end.
Proof.
  intros Hd Hl. unfold dispatch, try_except. rewrite bind_unfold.
  unfold decode_message. rewrite Hd, Hl. unfold mret at 1. unfold M_ret at 1.
  destruct (_process_message sha256_hex message w) as [[[]|[]] w']; reflexivity.
Qed.

(** When a turn of the loop of [_handle_client] raises, the exception is
    logged and the connection is closed. *)
Lemma handle_client_raise (running client_socket : nat) (w w1 : world) (e : exn) :
  handle_frame sha256_hex client_info w = (Raise e, w1) →
  _handle_client sha256_hex (S running) client_socket client_info w
  = (Ok (), hung_up client_socket client_info
              (add_log (match e with
                        | BluetoothError => LogBluetoothHandlerError
                        | _ => LogHandlerError e
                        end) w1)).
Proof.
  intros H. unfold _handle_client, try_finally, try_except. cbn [handler_loop].
  rewrite bind_unfold, H. unfold hung_up.
  unfold mbind, M_bind, mret, M_ret, sock_close, forget_connection, signal, _log.
  by destruct e.
Qed.

(** C10.  A [file_request] whose [filename] is absent, or is the empty
    string (or any other value that Python takes for false), is dropped:
    [_process_message] returns with the state as it was; the turn of the
    loop that received it reads its frame and nothing else, sends nothing,
    changes nothing else in the state and lets the loop go on. *)
Theorem empty_file_request_dropped (w : world) (d : list (string * json))
    (prefix payload more : bytes) (text : string) :
  dict_lookup "type" d = Some (JStr "file_request") →
  not_value (dict_lookup "filename" d) = true →
  length prefix = 4%nat → from_bytes prefix = Z.of_nat (length payload) →
  payload ≠ [] → Z.of_nat (length payload) <= 1048576 →
  stream_bytes (incoming w) = prefix ++ payload ++ more →
  decode_utf8 payload = Some text → loads text = Some (JObj d) →
  _process_message sha256_hex (JObj d) w = (Ok (), w)
  ∧ ∃ st' cs',
      handle_frame sha256_hex client_info w
      = (Ok Continue, set_socket st' (calls w ++ cs') w)
      ∧ stream_bytes st' = more
      ∧ received cs' = prefix ++ payload
      ∧ forallb is_recv cs' = true
      ∧ sent cs' = [].
Proof.
  intros Ht Hf Hp Hfb Hne Hlen Hst Hd Hl.
  split; [by apply file_request_dropped|].
  destruct (frame_processed_in_limit sha256_hex client_info w prefix payload more
              Hp Hfb Hne Hlen Hst)
    as (st' & cs' & Hh & Hs & Hrc & Hall).
  exists st', cs'. split_and!; auto using only_recv_sent.
  rewrite Hh, bind_unfold, (dispatch_decoded _ _ _ _ Hd Hl).
  by rewrite file_request_dropped.
Qed.

(** C4 (what the code does instead).  A request for a name that the catalog
    does not have gets no [File not found] answer: [get_file_path] returns
    [None], [os.path.exists(None)] raises [TypeError], the turn of the loop
    raises it, nothing is sent, and [_handle_client] logs the exception and
    closes the connection, leaving unread what follows. *)
Theorem unknown_name_closes_connection (running client_socket : nat) (w : world)
    (name : string) (more : bytes) :
  name ≠ EmptyString → shared_files w !! name = None →
  Z.of_nat (length (payload (FileRequest name))) <= 1048576 →
  stream_bytes (incoming w) = frame (FileRequest name) ++ more →
  ∃ st' cs',
    _handle_client sha256_hex (S running) client_socket client_info w
    = (Ok (), hung_up client_socket client_info
                (add_log (LogHandlerError TypeError)
                         (set_socket st' (calls w ++ cs') w)))
    ∧ stream_bytes st' = more
    ∧ forallb is_recv cs' = true
    ∧ sent cs' = [].
Proof.
  intros Hne Hcat Hlen Hst.
  destruct (frame_spec (FileRequest name)) as (prefix & Hfr & _ & Hp & Hf); [lia|].
  rewrite Hfr, <- app_assoc in Hst.
  destruct (frame_processed_in_limit sha256_hex client_info w prefix
              (payload (FileRequest name)) more Hp Hf (payload_nonempty _) Hlen Hst)
    as (st' & cs' & Hh & Hs & Hrc & Hall).
  exists st', cs'. split_and!; auto using only_recv_sent.
  apply (handle_client_raise running client_socket w
           (set_socket st' (calls w ++ cs') w) TypeError).
  rewrite Hh, bind_unfold.
  rewrite (dispatch_decoded _ (dumps (to_json (FileRequest name)))
             (to_json (FileRequest name)) _).
  - cbn [to_json]. rewrite (file_request_unknown_name _ name); done.
  - apply decode_encode_utf8.
  - apply loads_dumps, to_json_well_formed.
Qed.

End ServerRequests.

Lemma unknown_name_closes_connection_witness :
  ∃ st' cs',
    Network._handle_client (λ _, EmptyString) 1 0 ("AA:BB"%string, 1)
      (Protocol.delivery (Protocol.FileRequest "nope.txt") (Protocol.frame Protocol.Ping))
    = (Wire.Ok (),
       Network.hung_up 0 ("AA:BB"%string, 1)
         (Wire.add_log (Wire.LogHandlerError Wire.TypeError)
            (Wire.set_socket st' ([] ++ cs')
               (Protocol.delivery (Protocol.FileRequest "nope.txt")
                  (Protocol.frame Protocol.Ping)))))
    ∧ Wire.stream_bytes st' = Protocol.frame Protocol.Ping
    ∧ forallb Wire.is_recv cs' = true
    ∧ Wire.sent cs' = [].
Proof.
  apply (unknown_name_closes_connection (λ _, EmptyString) ("AA:BB"%string, 1) 0 0
           (Protocol.delivery (Protocol.FileRequest "nope.txt")
              (Protocol.frame Protocol.Ping))
           "nope.txt" (Protocol.frame Protocol.Ping)).
  - discriminate.
  - reflexivity.
  - vm_compute. discriminate.
  - reflexivity.
Defined.

Lemma empty_file_request_dropped_witness :
  Network._process_message (λ _, EmptyString)
    (Protocol.to_json (Protocol.FileRequest EmptyString))
    (Protocol.world_of
       (Wire.Chunk (Protocol.frame (Protocol.FileRequest EmptyString)) Wire.Closed))
  = (Wire.Ok (),
     Protocol.world_of
       (Wire.Chunk (Protocol.frame (Protocol.FileRequest EmptyString)) Wire.Closed))
  ∧ Network._process_message (λ _, EmptyString)
      (PyJson.JObj [("type"%string, PyJson.JStr "file_request")])
      (Protocol.world_of
         (Wire.Chunk
            ([Byte.x00; Byte.x00; Byte.x00; Byte.x18]
             ++ Wire.encode_utf8
                  (PyJson.dumps
                     (PyJson.JObj [("type"%string, PyJson.JStr "file_request")])))
            Wire.Closed))
    = (Wire.Ok (),
       Protocol.world_of
         (Wire.Chunk
            ([Byte.x00; Byte.x00; Byte.x00; Byte.x18]
             ++ Wire.encode_utf8
                  (PyJson.dumps
                     (PyJson.JObj [("type"%string, PyJson.JStr "file_request")])))
            Wire.Closed)).
Proof.
  split.
  - apply (empty_file_request_dropped (λ _, EmptyString) ("AA:BB"%string, 1)
             (Protocol.world_of
                (Wire.Chunk (Protocol.frame (Protocol.FileRequest EmptyString))
                            Wire.Closed))
             [("type"%string, PyJson.JStr "file_request");
              ("filename"%string, PyJson.JStr EmptyString)]
             (take 4 (Protocol.frame (Protocol.FileRequest EmptyString)))
             (Protocol.payload (Protocol.FileRequest EmptyString)) []
             (PyJson.dumps (Protocol.to_json (Protocol.FileRequest EmptyString))));
      try reflexivity; vm_compute; (reflexivity || discriminate).
  - apply (empty_file_request_dropped (λ _, EmptyString) ("AA:BB"%string, 1)
             (Protocol.world_of
                (Wire.Chunk
                   ([Byte.x00; Byte.x00; Byte.x00; Byte.x18]
                    ++ Wire.encode_utf8
                         (PyJson.dumps
                            (PyJson.JObj
                               [("type"%string, PyJson.JStr "file_request")])))
                   Wire.Closed))
             [("type"%string, PyJson.JStr "file_request")]
             [Byte.x00; Byte.x00; Byte.x00; Byte.x18]
             (Wire.encode_utf8
                (PyJson.dumps
                   (PyJson.JObj [("type"%string, PyJson.JStr "file_request")])))
             []
             (PyJson.dumps
                (PyJson.JObj [("type"%string, PyJson.JStr "file_request")])));
      try reflexivity; vm_compute; (reflexivity || discriminate).
Defined.

(** ** The server: the list of files and the catalog *)

Section ServerCatalog.
Import PyJson Wire Protocol Network.

Variable sha256_hex : bytes → string.

Lemma lookup_foldl_delete (l : list string) : ∀ (m : gmap string file_info) k,
  foldl (λ m filename, delete filename m) m l !! k
  = if decide (k ∈ l) then None else m !! k.
Proof.
  induction l as [|x l IH]; intros m k; cbn [foldl].
  - by rewrite decide_False by apply not_elem_of_nil.
  - rewrite IH. destruct (decide (k ∈ l)) as [Hin|Hout].
    + by rewrite decide_True by (by right).
    + destruct (decide (k = x)) as [->|Hne].
      * rewrite decide_True by (by left). apply lookup_delete_eq.
      * rewrite decide_False by (by intros [?|?]%elem_of_cons).
        by apply lookup_delete_ne.
Qed.

Lemma files_to_remove_elem (w : world) (k : string) :
  k ∈ files_to_remove w ↔
  ∃ info, shared_files w !! k = Some info ∧ on_disk (disk w) info = false.
Proof.
  unfold files_to_remove. rewrite list_elem_of_fmap. split.
  - intros ([k' info] & -> & Hin). apply list_elem_of_In, filter_In in Hin as [Hin Hf].
    apply list_elem_of_In, elem_of_map_to_list in Hin.
    exists info. split; [done|]. by apply negb_true_iff in Hf.
  - intros (info & Hk & Hf). exists (k, info). split; [done|].
    apply list_elem_of_In, filter_In. split.
    + by apply list_elem_of_In, elem_of_map_to_list.
    + by apply negb_true_iff.
Qed.

Lemma pruned_catalog (w : world) :
  foldl (λ m filename, delete filename m) (shared_files w) (files_to_remove w)
  = kept_files w.
Proof.
  apply map_eq. intros k. rewrite lookup_foldl_delete. unfold kept_files.
  destruct (decide (k ∈ files_to_remove w)) as [Hin|Hout].
  - apply files_to_remove_elem in Hin as (info & Hk & Hf).
    symmetry. apply map_lookup_filter_None. right.
    intros info' Hk'. cbn. congruence.
  - destruct (shared_files w !! k) as [info|] eqn:Hk.
    + symmetry. apply map_lookup_filter_Some. split; [done|]. cbn.
      destruct (on_disk (disk w) info) eqn:Hf; [done|].
      exfalso. apply Hout, files_to_remove_elem. eauto.
    + symmetry. apply map_lookup_filter_None. by left.
Qed.

Lemma files_to_remove_nil (w : world) :
  files_to_remove w = [] ↔ kept_files w = shared_files w.
Proof.
  split.
  - intros Hnil. rewrite <- pruned_catalog, Hnil. done.
  - intros Heq. destruct (files_to_remove w) as [|k l] eqn:E; [done|].
    assert (k ∈ files_to_remove w) as Hin by (rewrite E; by left).
    apply files_to_remove_elem in Hin as (info & Hk & Hf).
    assert (kept_files w !! k = Some info) as Hkept by (by rewrite Heq).
    apply map_lookup_filter_Some in Hkept as [_ Hp]. cbn in Hp. congruence.
Qed.

Lemma get_shared_files_spec (w : world) :
  get_shared_files w
  = (Ok (map_to_list (kept_files w)).*1,
     set_catalog (kept_files w)
                 (if bool_decide (kept_files w = shared_files w)
                  then saved_db w else kept_files w) w).
Proof.
  unfold get_shared_files. rewrite pruned_catalog. do 2 f_equal.
  destruct (files_to_remove w) as [|k l] eqn:E.
  - apply files_to_remove_nil in E. by rewrite bool_decide_eq_true_2.
  - rewrite bool_decide_eq_false_2; [done|].
    intros Heq%files_to_remove_nil. congruence.
Qed.

Lemma file_list_loop_spec (items : list (string * file_info)) : ∀ (acc : list json)
    (w : world),
  (∀ k info, (k, info) ∈ items →
     shared_files w !! k = Some info ∧ is_Some (disk w !! path info)) →
  file_list_loop sha256_hex items.*1 acc w
  = (Ok (acc ++ map (file_entry sha256_hex (disk w)) items), w).
Proof.
  induction items as [|[k info] items IH]; intros acc w Hall;
    cbn [fmap list_fmap fst].
  - cbn. by rewrite app_nil_r.
  - destruct (Hall k info) as [Hk [content Hc]]; [by left|].
    cbn [file_list_loop]. rewrite bind_unfold. unfold get_file_path. rewrite Hk.
    cbn [fmap option_fmap option_map]. rewrite bind_unfold.
    unfold os_path_exists. rewrite Hc.
    rewrite bool_decide_eq_true_2 by (by eexists).
    rewrite bind_unfold. unfold os_path_getsize. rewrite Hc.
    rewrite bind_unfold. unfold _get_file_hash. rewrite Hc.
    rewrite IH.
    + rewrite <- app_assoc. cbn [map app]. unfold file_entry at 2.
      cbn [fst snd]. by rewrite Hc.
    + intros k' info' Hin. apply Hall. by right.
Qed.

(** C3, amended.  Serving a [file_list_request] first deletes from the
    catalog every entry whose path is not on disk (and saves the catalog
    when it deleted one), then answers with the names, sizes and hashes of
    the entries that remain; an entry whose path is on disk is left as it
    was, and the files on disk are not touched. *)
Theorem file_list_request_prunes_catalog (w : world) :
  let kept := kept_files w in
  let response :=
    JObj [("type"%string, JStr "file_list_response");
          ("files"%string,
           JArr (map (file_entry sha256_hex (disk w)) (map_to_list kept)))] in
  _handle_file_list_request sha256_hex w
  = (_send_message response;; mret ())
      (set_catalog kept
         (if bool_decide (kept = shared_files w) then saved_db w else kept) w)
  ∧ (∀ name info,
       shared_files w !! name = Some info → is_Some (disk w !! path info) →
       kept !! name = Some info)
  ∧ (∀ name info,
       shared_files w !! name = Some info → disk w !! path info = None →
       kept !! name = None)
  ∧ (∀ name, shared_files w !! name = None → kept !! name = None).
Proof.
  intros kept response. split_and!.
  - unfold _handle_file_list_request. rewrite bind_unfold, get_shared_files_spec.
    fold kept. rewrite bind_unfold.
    rewrite (file_list_loop_spec (map_to_list kept) []).
    + reflexivity.
    + intros k info Hin. apply elem_of_map_to_list in Hin. cbn. split; [done|].
      apply map_lookup_filter_Some in Hin as [_ Hp]. cbn in Hp.
      unfold on_disk in Hp. by apply bool_decide_eq_true_1 in Hp.
  - intros name info Hn Hd. apply map_lookup_filter_Some. split; [done|].
    cbn. unfold on_disk. by apply bool_decide_eq_true_2.
  - intros name info Hn Hd. apply map_lookup_filter_None. right.
    intros info' Hn' Hp. cbn in Hp. unfold on_disk in Hp.
    apply bool_decide_eq_true_1 in Hp as [c Hc]. congruence.
  - intros name Hn. apply map_lookup_filter_None. by left.
Qed.

End ServerCatalog.

Lemma file_list_request_prunes_catalog_witness :
  Network.kept_files Protocol.stale_catalog !! "gone.txt"%string = None.
Proof.
  apply (file_list_request_prunes_catalog (λ _, EmptyString) Protocol.stale_catalog)
    with (info := {| Wire.path := "/tmp/gone.txt"; Wire.size := 3;
                     Wire.hash := "ab"; Wire.added_time := 0 |});
    reflexivity.
Defined.

(** C3 as stated fails: serving a [file_list_request] changes the catalog
    that has an entry whose file is gone. *)
Lemma file_list_request_mutates_catalog :
  Wire.shared_files
    (snd (Network._handle_file_list_request (λ _, EmptyString)
            Protocol.stale_catalog))
  ≠ Wire.shared_files Protocol.stale_catalog.
Proof.
  intros H. apply (f_equal (λ m, m !! "gone.txt"%string)) in H.
  vm_compute in H. discriminate H.
Qed.

(** ** Sending and receiving a file *)

Section FileTransfer.
Import PyJson Wire Protocol Network.

Lemma world_same (w : world) (save : string) (old : bytes) :
  disk w !! save = Some old →
  set_disk (<[save := old ++ []]> (disk w)) (set_socket (incoming w) (calls w ++ []) w)
  = w.
Proof.
  intros Hd. destruct w. unfold set_disk, set_socket. cbn in *.
  by rewrite !app_nil_r, insert_id.
Qed.

Lemma send_file_loop_spec (fuel : nat) : ∀ (data : bytes) (w : world),
  (length data <= fuel)%nat →
  ∃ cs,
    send_file_loop fuel data w = (Ok (), set_socket (incoming w) (calls w ++ cs) w)
    ∧ sent cs = data
    ∧ forallb small_send cs = true.
Proof.
  induction fuel as [|fuel IH]; intros data w Hlen.
  - destruct data; [|cbn in Hlen; lia]. exists []. cbn.
    rewrite app_nil_r. by destruct w.
  - destruct data as [|b data].
    { exists []. cbn. rewrite app_nil_r. by destruct w. }
    cbn [send_file_loop]. rewrite bind_unfold. unfold sock_send at 1.
    set (d := b :: data) in *.
    destruct (IH (drop chunk_size d)
                 (set_socket (incoming w) (calls w ++ [Send (take chunk_size d)]) w))
      as (cs & Hr & Hs & Hall).
    { rewrite length_drop. unfold d in *. cbn [length] in *.
      unfold chunk_size. lia. }
    exists (Send (take chunk_size d) :: cs). rewrite Hr. split_and!.
    + unfold set_socket. cbn. by rewrite <- app_assoc.
    + cbn [sent]. by rewrite Hs, take_drop.
    + cbn [forallb small_send]. rewrite Hall, andb_true_r.
      apply Nat.leb_le. rewrite length_take. lia.
Qed.

(** The loop that receives a file, on any stream: it writes to the file
    what it receives, asks for no more than 4096 bytes at a time and for no
    more than what is missing, and ends when the size is reached, when the
    connection is closed, or when a read raises. *)
Lemma receive_file_loop_spec (fuel : nat) : ∀ (save : string) (N r : Z) (w : world)
    (old : bytes),
  disk w !! save = Some old → r <= N → N - r <= Z.of_nat fuel →
  ∃ got st' cs',
    stream_bytes (incoming w) = got ++ stream_bytes st'
    ∧ closes st' = closes (incoming w)
    ∧ received cs' = got
    ∧ forallb small_recv cs' = true
    ∧ r + Z.of_nat (length got) <= N
    ∧ ((receive_file_loop fuel save N r w
        = (Ok (r + Z.of_nat (length got)), received_into save old got st' cs' w)
        ∧ (r + Z.of_nat (length got) < N →
           stream_bytes st' = [] ∧ closes st' = true))
       ∨ (receive_file_loop fuel save N r w
          = (Raise BluetoothError, received_into save old got st' cs' w)
          ∧ r + Z.of_nat (length got) < N
          ∧ stream_bytes st' = [] ∧ closes st' = false)).
Proof.
  induction fuel as [|fuel IH]; intros save N r w old Hd Hr Hfuel.
  - exists [], (incoming w), []. assert (r = N) as -> by lia.
    cbn [receive_file_loop]. rewrite Z.ltb_irrefl.
    unfold received_into. rewrite world_same by done.
    split_and!; [done|done|done|done|cbn; lia|]. left. split; [|lia].
    cbn [length]. by rewrite Z.add_0_r.
  - cbn [receive_file_loop]. destruct (r <? N) eqn:Hlt.
    2:{ exists [], (incoming w), []. assert (r = N) as -> by lia.
        unfold received_into. rewrite world_same by done.
        split_and!; [done|done|done|done|cbn; lia|]. left. split; [|lia].
        cbn [length]. by rewrite Z.add_0_r. }
    apply Z.ltb_lt in Hlt.
    set (n := Z.to_nat (Z.min 4096 (N - r))).
    assert (0 < n)%nat as Hn by (unfold n; lia).
    assert ((n <=? chunk_size)%nat = true) as Hsmall.
    { apply Nat.leb_le. unfold n, chunk_size. lia. }
    rewrite bind_unfold. unfold sock_recv.
    pose proof (recv_spec n (incoming w) Hn) as Hrecv.
    destruct (recv n (incoming w)) as [[chunk st1]|].
    + destruct Hrecv as (Hb & Hc & Hl & He).
      destruct chunk as [|c chunk].
      * destruct He as [He Hcl]; [done|].
        exists [], st1, [Recv n []]. rewrite He in Hb. cbn [app] in Hb.
        split_and!.
        -- by rewrite He.
        -- done.
        -- done.
        -- cbn [forallb small_recv]. by rewrite Hsmall.
        -- cbn; lia.
        -- left. split.
           ++ cbn [length]. rewrite Z.add_0_r. do 2 f_equal.
              unfold received_into, set_disk, set_socket. destruct w. cbn in *.
              by rewrite app_nil_r, insert_id.
           ++ intros _. split; [done|]. by rewrite Hc.
      * set (w1 := set_disk (<[save := old ++ c :: chunk]> (disk w))
                     (set_socket st1 (calls w ++ [Recv n (c :: chunk)]) w)).
        assert (Z.of_nat (length (c :: chunk)) <= N - r) as Hfit
          by (unfold n in Hl; lia).
        destruct (IH save N (r + Z.of_nat (length (c :: chunk))) w1
                     (old ++ c :: chunk))
          as (got & st' & cs' & Hsb & Hcl & Hrc & Hall & Hle & Hres).
        { unfold w1. cbn. apply lookup_insert_eq. }
        { lia. }
        { cbn [length] in *. lia. }
        assert (received_into save (old ++ c :: chunk) got st' cs' w1
                = received_into save old ((c :: chunk) ++ got) st'
                    (Recv n (c :: chunk) :: cs') w) as Hw.
        { unfold received_into, w1, set_disk, set_socket. cbn.
          rewrite insert_insert_eq, <- !app_assoc. reflexivity. }
        assert ((file_write save (c :: chunk);;
                 receive_file_loop fuel save N
                   (r + Z.of_nat (length (c :: chunk))))
                  (set_socket st1 (calls w ++ [Recv n (c :: chunk)]) w)
                = receive_file_loop fuel save N
                    (r + Z.of_nat (length (c :: chunk))) w1) as Hstep.
        { rewrite bind_unfold. unfold file_write. cbn [disk set_socket].
          by rewrite Hd. }
        exists ((c :: chunk) ++ got), st', (Recv n (c :: chunk) :: cs').
        rewrite Hstep.
        assert (r + Z.of_nat (length ((c :: chunk) ++ got))
                = r + Z.of_nat (length (c :: chunk)) + Z.of_nat (length got)) as Hsum
          by (rewrite length_app; lia).
        rewrite Hsum. split_and!.
        -- rewrite Hb. cbn [w1 incoming set_disk set_socket] in Hsb.
           by rewrite Hsb, app_assoc.
        -- by rewrite Hcl.
        -- cbn [received]. by rewrite Hrc.
        -- cbn [forallb small_recv]. by rewrite Hsmall, Hall.
        -- lia.
        -- rewrite <- Hw. destruct Hres as [[Hres Hend]|(Hres & Hlt' & Hnil & Hbr)].
           ++ left. by split.
           ++ right. by split_and!.
    + destruct Hrecv as [He Hcl].
      exists [], (incoming w), [Recv n []].
      split_and!.
      * by rewrite He.
      * done.
      * done.
      * cbn [forallb small_recv]. by rewrite Hsmall.
      * cbn; lia.
      * right. split_and!; [|cbn; lia|done|done].
        do 2 f_equal. unfold received_into, set_disk, set_socket.
        destruct w. cbn in *. by rewrite app_nil_r, insert_id.
Qed.

Lemma receive_file_loop_done (fuel : nat) (save : string) (N r : Z) (w : world) :
  N <= r → receive_file_loop fuel save N r w = (Ok r, w).
Proof.
  intros H. assert ((r <? N) = false) as Hlt by lia.
  destruct fuel; cbn [receive_file_loop]; by rewrite Hlt.
Qed.

(** The end of [request_file] on a response that declares the size [N] *)
Lemma save_file_spec (peer filename save : string) (d : list (string * json))
    (N : Z) (w : world) :
  dict_lookup "size" d = Some (JInt N) →
  ∃ got st' cs',
    stream_bytes (incoming w) = got ++ stream_bytes st'
    ∧ closes st' = closes (incoming w)
    ∧ received cs' = got
    ∧ forallb small_recv cs' = true
    ∧ (0 <= N → Z.of_nat (length got) <= N)
    ∧ ((Z.of_nat (length got) = N
        ∧ save_file peer filename save (JObj d) w
          = (Ok true, add_event (on_file_received filename peer)
                        (file_saved save got st' cs' w)))
       ∨ (Z.of_nat (length got) ≠ N
          ∧ save_file peer filename save (JObj d) w
            = (Ok false, add_log (LogIncomplete (Z.of_nat (length got)) N)
                           (file_saved save got st' cs' w))
          ∧ (0 <= N → stream_bytes st' = [] ∧ closes st' = true))
       ∨ (Z.of_nat (length got) < N
          ∧ save_file peer filename save (JObj d) w
            = (Raise BluetoothError,
               set_disk (<[save := got]> (disk w))
                        (set_socket st' (calls w ++ cs') w))
          ∧ stream_bytes st' = [] ∧ closes st' = false)).
Proof.
  intros Hsize. unfold save_file.
  erewrite bind_ok by (unfold py_get, mret, M_ret; by rewrite Hsize).
  cbn [default from_option id].
  erewrite bind_ok by reflexivity.
  set (w0 := set_disk (<[save := []]> (disk w)) w).
  erewrite bind_ok by reflexivity.
  destruct (Z.lt_ge_cases N 0) as [Hneg|Hpos].
  - erewrite bind_ok by (by apply receive_file_loop_done; lia).
    exists [], (incoming w), []. split_and!; try done; try lia.
    right. left. cbn [length]. split_and!; [lia| |lia].
    erewrite bind_ok by reflexivity.
    assert ((0 =? N) = false) as -> by lia.
    erewrite bind_ok by reflexivity.
    unfold mret, M_ret, file_saved, w0, add_log, set_disk, set_socket. cbn.
    reflexivity.
  - destruct (receive_file_loop_spec (Z.to_nat N) save N 0 w0 [])
      as (got & st' & cs' & Hsb & Hcl & Hrc & Hall & Hle & Hres).
    { unfold w0. cbn. apply lookup_insert_eq. }
    { lia. }
    { lia. }
    assert (received_into save [] got st' cs' w0
            = set_disk (<[save := got]> (disk w))
                       (set_socket st' (calls w ++ cs') w)) as Hw.
    { unfold received_into, w0, set_disk, set_socket. cbn.
      by rewrite insert_insert_eq. }
    rewrite Hw in Hres. rewrite Z.add_0_l in *.
    exists got, st', cs'. split_and!; try done.
    destruct Hres as [[Hres Hend]|(Hres & Hlt & Hnil & Hbr)].
    + erewrite bind_ok by exact Hres.
      erewrite bind_ok by reflexivity.
      destruct (Z.of_nat (length got) =? N) eqn:E.
      * left. split; [lia|].
        erewrite bind_ok by reflexivity.
        unfold mret, M_ret, file_saved, add_event, set_disk, set_socket. cbn.
        by rewrite <- app_assoc.
      * right. left. split_and!; [lia| |intros _; apply Hend; lia].
        erewrite bind_ok by reflexivity.
        unfold mret, M_ret, file_saved, add_log, set_disk, set_socket. cbn.
        by rewrite <- app_assoc.
    + right. right. erewrite bind_raise by exact Hres. by split_and!.
Qed.

Lemma response_fields (fn : option string) (N : Z) (err : option string) :
  ∃ d, to_json (FileResponse true fn (Some N) err) = JObj d
       ∧ dict_lookup "success" d = Some (JBool true)
       ∧ dict_lookup "size" d = Some (JInt N)
       ∧ truthy (JObj d) = true.
Proof. destruct fn, err; eexists; split; reflexivity || (split_and!; reflexivity). Qed.

(** [request_file] up to the response: it connects, sends the request,
    reads the frame of a response that says [success], and goes on to save
    the file. *)
Lemma request_file_header (peer filename save : string) (port : Z) (rest : list Z)
    (fn : option string) (N : Z) (err : option string) (w : world) (tail : bytes) :
  let m := FileResponse true fn (Some N) err in
  Z.of_nat (length (payload (FileRequest filename))) < 4294967296 →
  Z.of_nat (length (payload m)) <= 1048576 →
  stream_bytes (incoming w) = frame m ++ tail →
  ∃ st2 cs2,
    request_file peer filename save (Some (port :: rest)) w
    = try_except (save_file peer filename save (to_json m))
                 (download_failed peer filename)
                 (set_socket st2 (calls w ++ cs2) w)
    ∧ stream_bytes st2 = tail
    ∧ closes st2 = closes (incoming w)
    ∧ received cs2 = frame m
    ∧ sent cs2 = frame (FileRequest filename).
Proof.
  intros m Hreq Hlen Hst.
  destruct (frame_spec m) as (prefix & Hfr & _ & Hp & Hf); [lia|].
  destruct (frame_spec (FileRequest filename)) as (rprefix & Hrfr & Hrp & _ & _);
    [lia|].
  unfold request_file.
  erewrite try_except_bind_ok by reflexivity.
  set (w1 := set_socket (incoming w) (calls w ++ [Connect peer port]) w).
  destruct (send_message_spec (to_json (FileRequest filename)) w1)
    as (rprefix' & Hrp' & _ & _ & Hs); [exact Hreq|].
  unfold payload in Hrp. rewrite Hrp in Hrp'. injection Hrp' as <-.
  change (JObj [("type"%string, JStr "file_request");
                ("filename"%string, JStr filename)])
    with (to_json (FileRequest filename)).
  erewrite try_except_bind_ok by exact Hs. cbn [negb].
  set (w2 := set_socket (incoming w1)
               (calls w1 ++ [Send rprefix;
                             Send (encode_utf8 (dumps (to_json (FileRequest filename))))])
               w1) in *.
  rewrite Hfr, <- app_assoc in Hst.
  destruct (receive_message_spec (to_json m) w2 prefix tail
              (to_json_well_formed m) Hp Hf Hlen Hst)
    as (st3 & cs3 & Hr & Hs3 & Hc3 & Hrc3 & Hsn3).
  erewrite try_except_bind_ok by exact Hr.
  destruct (response_fields fn N err) as (d & Hd & Hsucc & _ & Htruthy).
  fold m in Hd. rewrite Hd, Htruthy. cbn [negb].
  erewrite try_except_bind_ok
    by (unfold py_get, mret, M_ret; by rewrite Hsucc).
  cbn [not_value truthy negb].
  exists st3, ([Connect peer port; Send rprefix;
                Send (encode_utf8 (dumps (to_json (FileRequest filename))))] ++ cs3).
  split_and!.
  - f_equal. unfold w2, w1, set_socket. cbn. by rewrite <- !app_assoc.
  - done.
  - by rewrite Hc3.
  - cbn [app received]. by rewrite Hrc3, Hfr.
  - cbn [app sent]. rewrite Hsn3, app_nil_r. by rewrite Hrfr.
Qed.

(** Every way [request_file] ends once the response says [success] and
    declares the size [N]: the bytes [got] that arrived after the response
    are in the destination file in each of them. *)
Lemma fetch_outcome (peer filename save : string) (port : Z) (rest : list Z)
    (fn : option string) (N : Z) (err : option string) (w : world) (tail : bytes) :
  let m := FileResponse true fn (Some N) err in
  Z.of_nat (length (payload (FileRequest filename))) < 4294967296 →
  Z.of_nat (length (payload m)) <= 1048576 →
  stream_bytes (incoming w) = frame m ++ tail →
  ∃ got st' cs_head cs_file,
    tail = got ++ stream_bytes st'
    ∧ closes st' = closes (incoming w)
    ∧ received cs_head = frame m
    ∧ sent cs_head = frame (FileRequest filename)
    ∧ received cs_file = got
    ∧ forallb small_recv cs_file = true
    ∧ (0 <= N → Z.of_nat (length got) <= N)
    ∧ ((Z.of_nat (length got) = N
        ∧ request_file peer filename save (Some (port :: rest)) w
          = (Ok true, add_event (on_file_received filename peer)
                        (file_saved save got st' (cs_head ++ cs_file) w)))
       ∨ (Z.of_nat (length got) ≠ N
          ∧ request_file peer filename save (Some (port :: rest)) w
            = (Ok false, add_log (LogIncomplete (Z.of_nat (length got)) N)
                           (file_saved save got st' (cs_head ++ cs_file) w))
          ∧ (0 <= N → stream_bytes st' = [] ∧ closes st' = true))
       ∨ (Z.of_nat (length got) < N
          ∧ request_file peer filename save (Some (port :: rest)) w
            = (Ok false,
               add_log (LogBluetoothDownloading filename)
                 (set_disk (<[save := got]> (disk w))
                    (set_socket st' (calls w ++ cs_head ++ cs_file) w)))
          ∧ stream_bytes st' = [] ∧ closes st' = false)).
Proof.
  intros m Hreq Hlen Hst.
  destruct (request_file_header peer filename save port rest fn N err w tail
              Hreq Hlen Hst)
    as (st2 & cs2 & Hrun & Hs2 & Hc2 & Hrc2 & Hsn2).
  destruct (response_fields fn N err) as (d & Hd & _ & Hsize & _).
  fold m in Hrun, Hd. rewrite Hd in Hrun.
  set (w2 := set_socket st2 (calls w ++ cs2) w) in *.
  destruct (save_file_spec peer filename save d N w2 Hsize)
    as (got & st' & cs' & Hsb & Hcl & Hrc & Hall & Hbound & Hres).
  exists got, st', cs2, cs'. cbn [w2 incoming set_socket] in Hsb, Hcl.
  split_and!; auto.
  - by rewrite <- Hs2.
  - by rewrite Hcl.
  - rewrite Hrun. unfold try_except.
    destruct Hres as [[Hn Hres]|[(Hn & Hres & Hend)|(Hn & Hres & Hnil & Hbr)]];
      rewrite Hres.
    + left. split; [done|]. f_equal. unfold file_saved, w2, set_disk, set_socket.
      cbn. by rewrite <- !app_assoc.
    + right. left. split_and!; [done| |done]. f_equal.
      unfold file_saved, w2, set_disk, set_socket. cbn. by rewrite <- !app_assoc.
    + right. right. split_and!; [done| |done|done].
      unfold download_failed, mbind, M_bind, _log, mret, M_ret, w2, add_log,
        set_disk, set_socket. cbn. by rewrite <- !app_assoc.
Qed.

Variable sha256_hex : bytes → string.

(** The server answers a request for a file of the catalog that is on disk
    with the frame of the response and then the bytes of the file, in
    chunks of at most 4096 bytes. *)
Lemma serve_file (w : world) (name : string) (info : file_info) (data : bytes) :
  let header := FileResponse true (Some name) (Some (Z.of_nat (length data))) None in
  shared_files w !! name = Some info → disk w !! path info = Some data →
  name ≠ EmptyString →
  Z.of_nat (length (payload header)) < 4294967296 →
  ∃ prefix cs_file,
    frame header = prefix ++ payload header
    ∧ _process_message sha256_hex (to_json (FileRequest name)) w
      = (Ok (), set_socket (incoming w)
                  (calls w ++ [Send prefix; Send (payload header)] ++ cs_file) w)
    ∧ sent cs_file = data
    ∧ forallb small_send cs_file = true.
Proof.
  intros header Hcat Hdisk Hne Hlen.
  destruct (frame_spec header) as (prefix & Hfr & Hp & _ & _); [lia|].
  destruct (send_file_loop_spec (length data) data
              (set_socket (incoming w)
                 (calls w ++ [Send prefix; Send (payload header)]) w))
    as (cs & Hloop & Hsent & Hall); [lia|].
  exists prefix, cs. split_and!; auto.
  cbn [to_json]. rewrite process_file_request by reflexivity.
  unfold _handle_file_request.
  erewrite bind_ok by reflexivity.
  change (dict_lookup "filename"
            [("type"%string, JStr "file_request"); ("filename"%string, JStr name)])
    with (Some (JStr name)). cbn iota.
  assert (truthy (JStr name) = true) as ->.
  { cbn. destruct name; [done|reflexivity]. }
  cbn [negb].
  erewrite bind_ok by (unfold get_file_path; by rewrite Hcat).
  cbn [fmap option_fmap option_map].
  erewrite bind_ok
    by (unfold os_path_exists; rewrite Hdisk, bool_decide_eq_true_2 by (by eexists);
        reflexivity).
  cbn iota.
  erewrite bind_ok by (unfold os_path_getsize; by rewrite Hdisk).
  change (JObj [("type"%string, JStr "file_response"); ("success"%string, JBool true);
                ("filename"%string, JStr name);
                ("size"%string, JInt (Z.of_nat (length data)))])
    with (to_json header).
  destruct (send_message_spec (to_json header) w)
    as (prefix' & Hp' & _ & _ & Hs); [exact Hlen|].
  unfold payload in Hp. rewrite Hp in Hp'. injection Hp' as <-.
  erewrite bind_ok by exact Hs.
  unfold try_except, send_file. cbn [disk set_socket]. rewrite Hdisk.
  fold (payload header). rewrite Hloop.
  f_equal. unfold set_socket. cbn. by rewrite <- !app_assoc.
Qed.

Lemma file_saved_disk (save : string) (got : bytes) (st' : stream)
    (cs' : list call) (w : world) :
  disk (file_saved save got st' cs' w) !! save = Some got.
Proof. unfold file_saved. cbn. apply lookup_insert_eq. Qed.

(** [request_file] returns [True] exactly when the bytes written to the
    destination are as many as the response declared. *)
Lemma fetch_success_iff (peer filename save : string) (port : Z) (rest : list Z)
    (fn : option string) (N : Z) (err : option string) (w : world) (tail : bytes) :
  let m := FileResponse true fn (Some N) err in
  let run := request_file peer filename save (Some (port :: rest)) w in
  Z.of_nat (length (payload (FileRequest filename))) < 4294967296 →
  Z.of_nat (length (payload m)) <= 1048576 →
  stream_bytes (incoming w) = frame m ++ tail →
  ∃ (b : bool) (got : bytes),
    fst run = Ok b
    ∧ disk (snd run) !! save = Some got
    ∧ (b = true ↔ Z.of_nat (length got) = N).
Proof.
  intros m run Hreq Hlen Hst.
  destruct (fetch_outcome peer filename save port rest fn N err w tail Hreq Hlen Hst)
    as (got & st' & ch & cf & _ & _ & _ & _ & _ & _ & _ & Hres).
  unfold run.
  destruct Hres as [[Hn Hres]|[(Hn & Hres & _)|(Hn & Hres & _)]]; rewrite Hres.
  - exists true, got. split_and!; [done|apply file_saved_disk|done].
  - exists false, got. split_and!; [done|apply file_saved_disk|].
    split; [discriminate|done].
  - exists false, got. split_and!; [done| |split; [discriminate|lia]].
    cbn. apply lookup_insert_eq.
Qed.

(** C5.  For every file of the catalog that is on disk, the server answers
    the request with the frame of a response that declares the size of the
    file, followed by the bytes of the file; on a connection that delivers
    this, in whatever chunks, [request_file] reads the response, then reads
    exactly the bytes of the file, asking for at most 4096 bytes at a time,
    writes them to the destination, which then holds the bytes of the source
    file, and returns [True].  And whatever arrives after a response that
    declares the size [N], [request_file] returns [True] exactly when the
    bytes it wrote are [N]. *)
Theorem file_transfer_exact (ws wc : world) (name save peer : string)
    (info : file_info) (data more : bytes) (port : Z) (rest : list Z) :
  let header := FileResponse true (Some name) (Some (Z.of_nat (length data))) None in
  shared_files ws !! name = Some info → disk ws !! path info = Some data →
  name ≠ EmptyString →
  Z.of_nat (length (payload header)) <= 1048576 →
  Z.of_nat (length (payload (FileRequest name))) < 4294967296 →
  stream_bytes (incoming wc) = frame header ++ data ++ more →
  (∃ cs,
     _process_message sha256_hex (to_json (FileRequest name)) ws
     = (Ok (), set_socket (incoming ws) (calls ws ++ cs) ws)
     ∧ sent cs = frame header ++ data)
  ∧ (∃ st' cs_head cs_file,
       request_file peer name save (Some (port :: rest)) wc
       = (Ok true, add_event (on_file_received name peer)
                     (file_saved save data st' (cs_head ++ cs_file) wc))
       ∧ disk (snd (request_file peer name save (Some (port :: rest)) wc)) !! save
         = Some data
       ∧ stream_bytes st' = more
       ∧ received cs_head = frame header
       ∧ received cs_file = data
       ∧ forallb small_recv cs_file = true)
  ∧ (∀ (w : world) (fn : option string) (N : Z) (err : option string)
       (tail : bytes),
       Z.of_nat (length (payload (FileResponse true fn (Some N) err))) <= 1048576 →
       stream_bytes (incoming w)
       = frame (FileResponse true fn (Some N) err) ++ tail →
       ∃ (b : bool) (got : bytes),
         fst (request_file peer name save (Some (port :: rest)) w) = Ok b
         ∧ disk (snd (request_file peer name save (Some (port :: rest)) w)) !! save
           = Some got
         ∧ (b = true ↔ Z.of_nat (length got) = N)).
Proof.
  intros header Hcat Hdisk Hne Hlen Hreq Hst. split_and!.
  - destruct (serve_file ws name info data Hcat Hdisk Hne)
      as (prefix & cs & Hfr & Hrun & Hsent & _); [fold header; lia|].
    exists ([Send prefix; Send (payload header)] ++ cs). split; [exact Hrun|].
    cbn [app sent]. fold header in Hfr. by rewrite Hsent, Hfr, <- app_assoc.
  - destruct (fetch_outcome peer name save port rest (Some name)
                (Z.of_nat (length data)) None wc (data ++ more) Hreq Hlen Hst)
      as (got & st' & ch & cf & Htail & _ & Hrh & _ & Hrf & Hall & Hbound & Hres).
    assert (Z.of_nat (length got) <= Z.of_nat (length data)) as Hle by lia.
    destruct Hres as [[Hn Hres]|[(Hn & Hres & Hend)|(Hn & Hres & Hnil & _)]].
    + assert (length got = length data) as Hl by lia.
      apply app_inj_1 in Htail as [<- Hmore]; [|done].
      exists st', ch, cf. rewrite Hres. split_and!; auto.
      apply file_saved_disk.
    + destruct Hend as [Hnil _]; [lia|]. rewrite Hnil, app_nil_r in Htail.
      apply (f_equal length) in Htail. rewrite length_app in Htail. lia.
    + rewrite Hnil, app_nil_r in Htail.
      apply (f_equal length) in Htail. rewrite length_app in Htail. lia.
  - intros w fn N err tail Hlen' Hst'.
    exact (fetch_success_iff peer name save port rest fn N err w tail
             Hreq Hlen' Hst').
Qed.

(** C2, amended.  When the connection closes after delivering fewer bytes
    than the response declared, [request_file] logs the incomplete transfer
    with the number of bytes received and the number expected and returns
    [False]; the destination file stays on disk and holds the bytes that
    were received. *)
Theorem partial_transfer_reported (wc : world) (peer filename save : string)
    (port : Z) (rest : list Z) (fn : option string) (N : Z) (err : option string)
    (data : bytes) :
  let m := FileResponse true fn (Some N) err in
  Z.of_nat (length (payload (FileRequest filename))) < 4294967296 →
  Z.of_nat (length (payload m)) <= 1048576 →
  stream_bytes (incoming wc) = frame m ++ data →
  closes (incoming wc) = true →
  Z.of_nat (length data) < N →
  ∃ st' cs',
    request_file peer filename save (Some (port :: rest)) wc
    = (Ok false, add_log (LogIncomplete (Z.of_nat (length data)) N)
                   (file_saved save data st' cs' wc))
    ∧ disk (snd (request_file peer filename save (Some (port :: rest)) wc)) !! save
      = Some data.
Proof.
  intros m Hreq Hlen Hst Hcl Hshort.
  destruct (fetch_outcome peer filename save port rest fn N err wc data Hreq Hlen Hst)
    as (got & st' & ch & cf & Htail & Hcl' & _ & _ & _ & _ & Hbound & Hres).
  assert (Z.of_nat (length got) <= Z.of_nat (length data)) as Hle.
  { apply (f_equal length) in Htail. rewrite length_app in Htail. lia. }
  destruct Hres as [[Hn Hres]|[(Hn & Hres & Hend)|(Hn & Hres & Hnil & Hbr)]].
  - lia.
  - destruct Hend as [Hnil _]; [lia|]. rewrite Hnil, app_nil_r in Htail. subst got.
    exists st', (ch ++ cf). rewrite Hres. split; [done|]. apply file_saved_disk.
  - congruence.
Qed.

End FileTransfer.

Lemma partial_transfer_reported_witness :
  ∃ st' cs',
    Network.request_file "AA:BB" "a.bin" "/tmp/out.bin" (Some [1])
      Protocol.short_delivery
    = (Wire.Ok false,
       Wire.add_log (Wire.LogIncomplete 1 2)
         (Network.file_saved "/tmp/out.bin" [Byte.x41] st' cs'
            Protocol.short_delivery))
    ∧ Wire.disk (snd (Network.request_file "AA:BB" "a.bin" "/tmp/out.bin" (Some [1])
                        Protocol.short_delivery)) !! "/tmp/out.bin"%string
      = Some [Byte.x41].
Proof.
  apply (partial_transfer_reported Protocol.short_delivery "AA:BB" "a.bin"
           "/tmp/out.bin" 1 [] (Some "a.bin"%string) 2 None [Byte.x41]).
  - vm_compute. reflexivity.
  - vm_compute. discriminate.
  - reflexivity.
  - reflexivity.
  - reflexivity.
Defined.

Lemma file_transfer_exact_witness :
  Wire.disk
    (snd (Network.request_file "AA:BB" "a.bin" "/tmp/out.bin" (Some [1])
            (Protocol.delivery
               (Protocol.FileResponse true (Some "a.bin"%string) (Some 2) None)
               [Byte.x41; Byte.x42])))
    !! "/tmp/out.bin"%string
  = Some [Byte.x41; Byte.x42].
Proof.
  destruct (file_transfer_exact (λ _, EmptyString) Protocol.sharing_one_file
              (Protocol.delivery
                 (Protocol.FileResponse true (Some "a.bin"%string) (Some 2) None)
                 [Byte.x41; Byte.x42])
              "a.bin" "/tmp/out.bin" "AA:BB"
              {| Wire.path := "/srv/a.bin"; Wire.size := 2; Wire.hash := "cd";
                 Wire.added_time := 0 |}
              [Byte.x41; Byte.x42] [] 1 [])
    as (_ & (st' & ch & cf & _ & Hd & _) & _).
  - reflexivity.
  - reflexivity.
  - discriminate.
  - vm_compute. discriminate.
  - vm_compute. reflexivity.
  - reflexivity.
  - exact Hd.
Defined.

(** C2 as stated fails: after the connection closed one byte short of the
    two that were declared, the destination file is still on disk. *)
Lemma partial_file_remains :
  fst (Network.request_file "AA:BB" "a.bin" "/tmp/out.bin" (Some [1])
         Protocol.short_delivery) = Wire.Ok false
  ∧ Wire.disk (snd (Network.request_file "AA:BB" "a.bin" "/tmp/out.bin" (Some [1])
                      Protocol.short_delivery)) !! "/tmp/out.bin"%string
    ≠ None.
Proof.
  split.
  - vm_compute. reflexivity.
  - vm_compute. discriminate.
Qed.

(** ** The client: the list of files of a peer *)

Section Lookup.
Import PyJson Wire Protocol Network.

Lemma grows_ret {A} (a : A) : grows (mret a).
Proof. intros w. exists []. cbn. by rewrite app_nil_r. Qed.

Lemma grows_raise {A} (e : exn) : grows (raise (A := A) e).
Proof. intros w. exists []. cbn. by rewrite app_nil_r. Qed.

Lemma grows_log (l : log_entry) : grows (_log l).
Proof. intros w. exists []. cbn. by rewrite app_nil_r. Qed.

Lemma grows_recv (n : nat) : grows (sock_recv n).
Proof.
  intros w. unfold sock_recv. destruct (recv n (incoming w)) as [[c st]|];
    eexists; reflexivity.
Qed.

Lemma grows_send (data : bytes) : grows (sock_send data).
Proof. intros w. eexists. reflexivity. Qed.

Lemma grows_close : grows sock_close.
Proof. intros w. eexists. reflexivity. Qed.

Lemma grows_bind {A B} (m : M A) (f : A → M B) :
  grows m → (∀ a, grows (f a)) → grows (m ≫= f).
Proof.
  intros Hm Hf w. rewrite bind_unfold. destruct (Hm w) as [cs Hcs].
  destruct (m w) as [[a|e] w1]; cbn in Hcs.
  - destruct (Hf a w1) as [cs' Hcs']. exists (cs ++ cs').
    by rewrite Hcs', Hcs, app_assoc.
  - by exists cs.
Qed.

Lemma grows_try_except {A} (m : M A) (h : exn → M A) :
  grows m → (∀ e, grows (h e)) → grows (try_except m h).
Proof.
  intros Hm Hh w. unfold try_except. destruct (Hm w) as [cs Hcs].
  destruct (m w) as [[a|e] w1]; cbn in Hcs.
  - by exists cs.
  - destruct (Hh e w1) as [cs' Hcs']. exists (cs ++ cs').
    by rewrite Hcs', Hcs, app_assoc.
Qed.

Lemma grows_receive_exact (n : nat) : grows (_receive_exact n).
Proof.
  unfold _receive_exact. generalize (@nil Byte.byte). generalize n at 1 as fuel.
  intros fuel. induction fuel as [|fuel IH]; intros acc; cbn [receive_exact_loop];
    destruct (length acc <? n)%nat; try apply grows_ret.
  apply grows_bind; [apply grows_recv|]. intros [|c chunk]; [apply grows_ret|apply IH].
Qed.

Lemma grows_send_message (v : json) : grows (_send_message v).
Proof.
  unfold _send_message. destruct (to_bytes4 _).
  - apply grows_bind; [apply grows_send|]. intros _.
    apply grows_bind; [apply grows_send|]. intros _. apply grows_ret.
  - apply grows_bind; [apply grows_log|]. intros _. apply grows_ret.
Qed.

Lemma grows_receive_message : grows _receive_message.
Proof.
  unfold _receive_message. apply grows_try_except.
  - apply grows_bind; [apply grows_receive_exact|].
    intros [[|b l]|]; try apply grows_ret.
    destruct (1048576 <? _); [apply grows_ret|].
    apply grows_bind; [apply grows_receive_exact|].
    intros [[|b' l']|]; try apply grows_ret.
    apply grows_bind; [|intros; apply grows_ret].
    unfold decode_message. destruct (decode_utf8 _); [|apply grows_raise].
    destruct (loads _); [apply grows_ret|apply grows_raise].
  - intros e. apply grows_bind; [apply grows_log|]. intros _. apply grows_ret.
Qed.

Lemma grows_py_get (v : json) (k : string) : grows (py_get v k).
Proof. destruct v; try apply (grows_raise AttributeError). apply grows_ret. Qed.

(** With a service found, [get_peer_files] opens a connection first. *)
Lemma get_peer_files_connects (peer : string) (port : Z) (rest : list Z) (w : world) :
  ∃ cs, calls (snd (get_peer_files peer (Some (port :: rest)) w))
        = calls w ++ Connect peer port :: cs.
Proof.
  unfold get_peer_files.
  set (k := (sent_ok ← _send_message (JObj [("type"%string, JStr "file_list_request")]);
             if negb sent_ok then mret None
             else
               response ← _receive_message;
               sock_close;;
               match response with
               | None => mret None
               | Some response =>
                   if negb (truthy response) then mret None
                   else
                     msg_type ← py_get response "type";
                     if is_str msg_type "file_list_response" then
                       files ← py_get response "files";
                       mret (Some (default (JArr []) files))
                     else mret None
               end)).
  set (h := λ e : exn,
              match e with
              | BluetoothError => _log (LogBluetoothGettingFiles peer)
              | _ => _log (LogFailedGettingFiles peer e)
              end;;
              mret (@None json)).
  assert (grows (try_except k h)) as Hg.
  { apply grows_try_except.
    - unfold k. apply grows_bind; [apply grows_send_message|].
      intros []; cbn [negb]; [|apply grows_ret].
      apply grows_bind; [apply grows_receive_message|]. intros response.
      apply grows_bind; [apply grows_close|]. intros _.
      destruct response as [response|]; [|apply grows_ret].
      destruct (negb (truthy response)); [apply grows_ret|].
      apply grows_bind; [apply grows_py_get|]. intros t.
      destruct (is_str t "file_list_response"); [|apply grows_ret].
      apply grows_bind; [apply grows_py_get|]. intros f. apply grows_ret.
    - intros e. unfold h. apply grows_bind; [|intros; apply grows_ret].
      destruct e; apply grows_log. }
  destruct (Hg (set_socket (incoming w) (calls w ++ [Connect peer port]) w))
    as [cs Hcs].
  exists cs. erewrite try_except_bind_ok by reflexivity.
  fold k. fold h. rewrite Hcs. cbn. by rewrite <- app_assoc.
Qed.

End Lookup.

(** ** The peer registry *)

Section Registry.
Import Discovery.

Lemma elapsed_lt_spec (now t w : Q) :
  elapsed_lt now t w = true ↔ (now - t < w)%Q.
Proof.
  unfold elapsed_lt. rewrite negb_true_iff, <- not_true_iff_false, Qle_bool_iff.
  split; [apply Qnot_le_lt | apply Qlt_not_le].
Qed.

Lemma elapsed_gt_spec (now t w : Q) :
  elapsed_gt now t w = true ↔ (w < now - t)%Q.
Proof.
  unfold elapsed_gt. rewrite negb_true_iff, <- not_true_iff_false, Qle_bool_iff.
  split; [apply Qnot_le_lt | apply Qlt_not_le].
Qed.

Lemma add_peer_lookup now a n si s :
  ∃ p, peers (_add_peer now a n si s).1 !! a = Some p
     ∧ last_seen_of (_add_peer now a n si s).1 !! a = Some now
     ∧ address p = a
     ∧ last_seen p = now
     ∧ first_seen p = match peers s !! a with
                      | Some old => first_seen old
                      | None => now
                      end.
Proof.
  eexists. cbn. rewrite !lookup_insert_eq. repeat split; reflexivity.
Qed.

Lemma add_peer_other now a n si s k :
  k ≠ a →
  peers (_add_peer now a n si s).1 !! k = peers s !! k
  ∧ last_seen_of (_add_peer now a n si s).1 !! k = last_seen_of s !! k.
Proof. intros Hk. cbn. rewrite !lookup_insert_ne by done. done. Qed.

(** *** Queries *)

Lemma last_seen_read_spec l a :
  (last_seen_read l a).1 = seen_of l a
  ∧ (∀ k, seen_of (last_seen_read l a).2 k = seen_of l k)
  ∧ (∀ k v, l !! k = Some v → (last_seen_read l a).2 !! k = Some v).
Proof.
  unfold last_seen_read, seen_of.
  destruct (l !! a) as [v|] eqn:E; cbn; repeat split; auto.
  - intros k. destruct (decide (k = a)) as [->|Hk].
    + rewrite lookup_insert_eq, E. done.
    + rewrite lookup_insert_ne by done. done.
  - intros k v Hv. destruct (decide (k = a)) as [->|Hk]; [congruence|].
    rewrite lookup_insert_ne by done. done.
Qed.

Lemma get_peers_loop_spec now items : ∀ l acc,
  (∀ info, info ∈ (get_peers_loop now items l acc).1 ↔
     info ∈ acc ∨ ∃ a, (a, info) ∈ items ∧ elapsed_lt now (seen_of l a) 120 = true)
  ∧ (∀ k v, l !! k = Some v → (get_peers_loop now items l acc).2 !! k = Some v).
Proof.
  induction items as [|[a i] rest IH]; intros l acc; cbn [get_peers_loop].
  - split; [|done]. intros info. split; [auto|].
    intros [H|(a & H & _)]; [done|]. by apply elem_of_nil in H.
  - destruct (last_seen_read_spec l a) as (Hv & Hsame & Hkeep).
    destruct (last_seen_read l a) as [seen l'] eqn:E. cbn in Hv, Hsame, Hkeep.
    subst seen.
    destruct (elapsed_lt now (seen_of l a) 120) eqn:Hlt.
    + destruct (IH l' (acc ++ [i])) as [IH1 IH2]. split.
      * intros info. rewrite IH1, elem_of_app, list_elem_of_singleton.
        split.
        -- intros [[H| ->]|(b & Hb & Hlt')].
           ++ by left.
           ++ right. exists a. split; [left|done].
           ++ right. exists b. rewrite Hsame in Hlt'. split; [by right|done].
        -- intros [H|(b & Hb & Hlt')]; [by left; left|].
           apply elem_of_cons in Hb as [Hb|Hb].
           ++ inversion Hb; subst. left; by right.
           ++ right. exists b. by rewrite Hsame.
      * intros k v Hk. apply IH2, Hkeep, Hk.
    + destruct (IH l' acc) as [IH1 IH2]. split.
      * intros info. rewrite IH1. split.
        -- intros [H|(b & Hb & Hlt')]; [by left|].
           right. exists b. rewrite Hsame in Hlt'. split; [by right|done].
        -- intros [H|(b & Hb & Hlt')]; [by left|].
           apply elem_of_cons in Hb as [Hb|Hb].
           ++ inversion Hb; subst. congruence.
           ++ right. exists b. by rewrite Hsame.
      * intros k v Hk. apply IH2, Hkeep, Hk.
Qed.

Lemma get_peers_spec now s :
  (∀ info, info ∈ (get_peers now s).1 ↔
     ∃ a, peers s !! a = Some info
          ∧ elapsed_lt now (seen_of (last_seen_of s) a) 120 = true)
  ∧ peers (get_peers now s).2 = peers s
  ∧ (∀ k v, last_seen_of s !! k = Some v →
            last_seen_of (get_peers now s).2 !! k = Some v).
Proof.
  unfold get_peers.
  destruct (get_peers_loop_spec now (map_to_list (peers s)) (last_seen_of s) [])
    as [H1 H2].
  destruct (get_peers_loop now (map_to_list (peers s)) (last_seen_of s) [])
    as [active l]. cbn in *. repeat split; auto.
  - rewrite H1. intros [H|(a & Ha & Hlt)]; [by apply elem_of_nil in H|].
    exists a. by rewrite <- elem_of_map_to_list.
  - intros (a & Ha & Hlt). apply H1. right. exists a.
    by rewrite elem_of_map_to_list.
Qed.

(** *** The cleanup pass *)

Lemma peers_to_remove_elem now (l : gmap string Q) a :
  a ∈ peers_to_remove now l ↔
  ∃ t, l !! a = Some t ∧ elapsed_gt now t 180 = true.
Proof.
  unfold peers_to_remove. rewrite list_elem_of_bind. split.
  - intros ([k t] & Hin & Hk). apply elem_of_map_to_list in Hk.
    destruct (elapsed_gt now t 180) eqn:E.
    + apply list_elem_of_singleton in Hin as ->. eauto.
    + by apply elem_of_nil in Hin.
  - intros (t & Hl & E). exists (a, t). rewrite E, elem_of_map_to_list.
    split; [by left|done].
Qed.

Lemma bind_keys_NoDup (f : Q → bool) (items : list (string * Q)) :
  NoDup items.*1 →
  NoDup (items ≫= λ '(address, t), if f t then [address] else []).
Proof.
  induction items as [|[k t] rest IH]; cbn; intros Hnd; [constructor|].
  apply NoDup_cons in Hnd as [Hk Hnd].
  destruct (f t); cbn; [|by apply IH].
  apply NoDup_cons. split; [|by apply IH].
  intros Hin. apply Hk. apply list_elem_of_bind in Hin as ([k' t'] & Hin & Hk').
  destruct (f t'); [|by apply elem_of_nil in Hin].
  apply list_elem_of_singleton in Hin as ->.
  apply list_elem_of_fmap. by exists (k', t').
Qed.

Lemma peers_to_remove_NoDup now (l : gmap string Q) :
  NoDup (peers_to_remove now l).
Proof. apply bind_keys_NoDup, NoDup_fst_map_to_list. Qed.

Lemma lost_count_app a evs evs' :
  lost_count a (evs ++ evs') = (lost_count a evs + lost_count a evs')%nat.
Proof. unfold lost_count. by rewrite List.filter_app, length_app. Qed.

Lemma remove_peer_spec x s evs :
  keys_ok s →
  let r := remove_peer x (s, evs) in
  keys_ok r.1
  ∧ has_on_peer_lost r.1 = has_on_peer_lost s
  ∧ has_on_peer_found r.1 = has_on_peer_found s
  ∧ peers r.1 !! x = None
  ∧ lost_count x r.2 = (lost_count x evs + lost_events s x)%nat
  ∧ (∀ q, peers s !! x = Some q → has_on_peer_lost s = true → on_peer_lost q ∈ r.2)
  ∧ (∀ e, e ∈ evs → e ∈ r.2)
  ∧ (∀ a, a ≠ x →
       peers r.1 !! a = peers s !! a
       ∧ last_seen_of r.1 !! a = last_seen_of s !! a
       ∧ lost_count a r.2 = lost_count a evs).
Proof.
  intros Hok. unfold remove_peer, lost_events.
  destruct (peers s !! x) as [info|] eqn:E; cbn.
  - pose proof (Hok _ _ E) as Haddr.
    repeat split.
    + intros k q Hk. cbn in Hk. apply lookup_delete_Some in Hk as [_ Hk]. eauto.
    + apply lookup_delete_eq.
    + unfold lost_count. rewrite List.filter_app, length_app. f_equal.
      destruct (has_on_peer_lost s); [|done]. cbn.
      rewrite Haddr, String.eqb_refl. done.
    + intros q [= <-] ->. apply elem_of_app. right. by left.
    + intros e He. apply elem_of_app. by left.
    + by rewrite lookup_delete_ne.
    + by rewrite lookup_delete_ne.
    + unfold lost_count. rewrite List.filter_app, length_app.
      destruct (has_on_peer_lost s); cbn; [|lia].
      rewrite Haddr. destruct (String.eqb_spec x a); [congruence|]. cbn. lia.
  - repeat split; auto. intros q [=].
Qed.

Lemma remove_peers_spec l : ∀ s evs,
  NoDup l → keys_ok s →
  let r := foldl (λ acc address, remove_peer address acc) (s, evs) l in
  keys_ok r.1
  ∧ has_on_peer_lost r.1 = has_on_peer_lost s
  ∧ has_on_peer_found r.1 = has_on_peer_found s
  ∧ (∀ e, e ∈ evs → e ∈ r.2)
  ∧ (∀ a, a ∈ l →
       peers r.1 !! a = None
       ∧ lost_count a r.2 = (lost_count a evs + lost_events s a)%nat
       ∧ (∀ q, peers s !! a = Some q → has_on_peer_lost s = true →
               on_peer_lost q ∈ r.2))
  ∧ (∀ a, a ∉ l →
       peers r.1 !! a = peers s !! a
       ∧ last_seen_of r.1 !! a = last_seen_of s !! a
       ∧ lost_count a r.2 = lost_count a evs).
Proof.
  induction l as [|x l IH]; intros s evs Hnd Hok; cbn [foldl].
  - cbn. split_and!; auto. intros a Ha. by apply elem_of_nil in Ha.
  - apply NoDup_cons in Hnd as [Hx Hnd].
    destruct (remove_peer_spec x s evs Hok)
      as (Hok1 & Hl1 & Hf1 & Hx1 & Hc1 & He1 & Hk1 & Ho1).
    destruct (remove_peer x (s, evs)) as [s1 evs1] eqn:E1. cbn [fst snd] in *.
    destruct (IH s1 evs1 Hnd Hok1) as (Hok2 & Hl2 & Hf2 & Hk2 & Hin2 & Hout2).
    split_and!; try congruence; auto.
    + intros a Ha. apply elem_of_cons in Ha as [->|Ha].
      * destruct (Hout2 x Hx) as (-> & _ & ->). repeat split; auto.
      * assert (a ≠ x) as Hne by (intros ->; done).
        destruct (Hin2 a Ha) as (-> & -> & Hq).
        destruct (Ho1 a Hne) as (Hp & _ & ->).
        repeat split; auto.
        -- unfold lost_events. rewrite Hp, Hl1. done.
        -- intros q Hq' Hfl. apply Hq; [by rewrite Hp|by rewrite Hl1].
    + intros a Ha. apply not_elem_of_cons in Ha as [Hne Ha].
      destruct (Hout2 a Ha) as (-> & -> & ->).
      destruct (Ho1 a Hne) as (-> & -> & ->). done.
Qed.

Lemma cleanup_pass_spec now s :
  keys_ok s →
  let r := cleanup_pass now s in
  keys_ok r.1
  ∧ has_on_peer_lost r.1 = has_on_peer_lost s
  ∧ has_on_peer_found r.1 = has_on_peer_found s
  ∧ (∀ a T, last_seen_of s !! a = Some T → elapsed_gt now T 180 = true →
       peers r.1 !! a = None
       ∧ lost_count a r.2 = lost_events s a
       ∧ (∀ q, peers s !! a = Some q → has_on_peer_lost s = true →
               on_peer_lost q ∈ r.2))
  ∧ (∀ a, (∀ T, last_seen_of s !! a = Some T → elapsed_gt now T 180 = false) →
       peers r.1 !! a = peers s !! a
       ∧ last_seen_of r.1 !! a = last_seen_of s !! a
       ∧ lost_count a r.2 = 0%nat).
Proof.
  intros Hok. unfold cleanup_pass.
  destruct (remove_peers_spec _ s [] (peers_to_remove_NoDup now (last_seen_of s)) Hok)
    as (Hok' & Hl & Hf & _ & Hin & Hout).
  cbn. split_and!; auto.
  - intros a T Ha Hgt. apply Hin. apply peers_to_remove_elem. eauto.
  - intros a Ha. apply Hout. rewrite peers_to_remove_elem.
    intros (T & HT & Hgt). specialize (Ha T HT). congruence.
Qed.

(** *** Invariants along runs *)

Lemma keys_ok_init found lost : keys_ok (init found lost).
Proof. intros k q Hk. cbn in Hk. by rewrite lookup_empty in Hk. Qed.

Lemma keys_ok_add now a n si s : keys_ok s → keys_ok (_add_peer now a n si s).1.
Proof.
  intros Hok k q. cbn. destruct (decide (k = a)) as [->|Hk].
  - rewrite lookup_insert_eq. by intros [= <-].
  - rewrite lookup_insert_ne by done. apply Hok.
Qed.

Lemma keys_ok_step now o s : keys_ok s → keys_ok (step now o s).1.
Proof.
  intros Hok. destruct o as [a n si|a n [[|sv rest]|]| |]; cbn [step _check_peer_service fst]; auto.
  - by apply keys_ok_add.
  - by apply keys_ok_add.
  - destruct (get_peers_spec now s) as (_ & Hp & _).
    intros k q. rewrite Hp. apply Hok.
  - by apply cleanup_pass_spec.
Qed.

Lemma flags_step now o s :
  has_on_peer_lost (step now o s).1 = has_on_peer_lost s.
Proof.
  destruct o as [a n si|a n [[|sv rest]|]| |]; cbn [step _check_peer_service fst]; auto.
  - unfold get_peers. by destruct (get_peers_loop _ _ _ _).
  - unfold cleanup_pass. generalize (peers_to_remove now (last_seen_of s)).
    generalize (@nil event). revert s.
    assert (∀ l s evs, has_on_peer_lost
              (foldl (λ acc address, remove_peer address acc) (s, evs) l).1
            = has_on_peer_lost s) as H; [|by intros; apply H].
    induction l as [|x l IH]; intros s evs; cbn [foldl]; [done|].
    unfold remove_peer at 2. destruct (peers s !! x); by rewrite IH.
Qed.

Lemma run_app ops1 ops2 s :
  (run (ops1 ++ ops2) s).1 = (run ops2 (run ops1 s).1).1.
Proof.
  revert s. induction ops1 as [|[now o] ops1 IH]; intros s; cbn [run app]; [done|].
  destruct (step now o s) as [s' evs] eqn:E.
  specialize (IH s'). destruct (run (ops1 ++ ops2) s') as [s2 e2].
  destruct (run ops1 s') as [s3 e3]. cbn in *. done.
Qed.

Lemma run_cons now o ops s :
  (run ((now, o) :: ops) s).1 = (run ops (step now o s).1).1.
Proof.
  cbn [run]. destruct (step now o s) as [s' evs]. cbn [fst].
  by destruct (run ops s').
Qed.

Lemma keys_ok_run ops : ∀ s, keys_ok s → keys_ok (run ops s).1.
Proof.
  induction ops as [|[now o] ops IH]; intros s Hok; [done|].
  rewrite run_cons. by apply IH, keys_ok_step.
Qed.

Lemma flags_run ops : ∀ s, has_on_peer_lost (run ops s).1 = has_on_peer_lost s.
Proof.
  induction ops as [|[now o] ops IH]; intros s; [done|].
  by rewrite run_cons, IH, flags_step.
Qed.

Lemma remove_peers_sub l : ∀ s evs k q,
  peers (foldl (λ acc address, remove_peer address acc) (s, evs) l).1 !! k = Some q →
  peers s !! k = Some q.
Proof.
  induction l as [|x l IH]; intros s evs k q; cbn [foldl]; [done|].
  unfold remove_peer at 2. destruct (peers s !! x) eqn:E.
  - intros H%IH. cbn in H. by apply lookup_delete_Some in H as [_ H].
  - apply IH.
Qed.

Lemma stamps_ok_step t0 now o s :
  (t0 <= now)%Q → stamps_ok t0 s → stamps_ok now (step now o s).1.
Proof.
  intros Hle Hok.
  assert (stamps_ok now s) as Hnow.
  { intros k q Hk. destruct (Hok k q Hk). split; [done|lra]. }
  assert (∀ a n si, stamps_ok now (_add_peer now a n si s).1) as Hadd.
  { intros a n si k q. cbn. destruct (decide (k = a)) as [->|Hk].
    - rewrite lookup_insert_eq. intros [= <-]. cbn.
      destruct (peers s !! a) as [old|] eqn:E.
      + destruct (Hok a old E). split; lra.
      + split; lra.
    - rewrite lookup_insert_ne by done. apply Hnow. }
  destruct o as [a n si|a n [[|sv rest]|]| |]; cbn [step _check_peer_service fst]; auto.
  - destruct (get_peers_spec now s) as (_ & Hp & _).
    intros k q. rewrite Hp. apply Hnow.
  - intros k q Hk. apply remove_peers_sub in Hk. exact (Hnow k q Hk).
Qed.

Lemma stamps_ok_run ops : ∀ t0 s,
  monotone_from t0 ops → stamps_ok t0 s →
  ∃ t1, stamps_ok t1 (run ops s).1.
Proof.
  induction ops as [|[now o] ops IH]; intros t0 s Hm Hok; [by exists t0|].
  destruct Hm as [Hle Hm]. rewrite run_cons.
  eapply IH; [exact Hm|]. by eapply stamps_ok_step.
Qed.

Lemma first_seen_step now o s a p :
  o ≠ OpCleanup → peers s !! a = Some p →
  ∃ p', peers (step now o s).1 !! a = Some p' ∧ first_seen p' = first_seen p.
Proof.
  intros Ho Hp.
  assert (∀ b n si, ∃ p', peers (_add_peer now b n si s).1 !! a = Some p'
                          ∧ first_seen p' = first_seen p) as Hadd.
  { intros b n si. cbn. destruct (decide (a = b)) as [<-|Hk].
    - rewrite lookup_insert_eq, Hp. eauto.
    - rewrite lookup_insert_ne by done. eauto. }
  destruct o as [b n si|b n [[|sv rest]|]| |]; cbn [step _check_peer_service fst]; eauto.
  - destruct (get_peers_spec now s) as (_ & -> & _). eauto.
  - done.
Qed.

Lemma first_seen_run ops : ∀ s a p,
  no_cleanup ops → peers s !! a = Some p →
  ∃ p', peers (run ops s).1 !! a = Some p' ∧ first_seen p' = first_seen p.
Proof.
  induction ops as [|[now o] ops IH]; intros s a p Hno Hp; [by exists p|].
  apply Forall_cons in Hno as [Ho Hno]. rewrite run_cons.
  destruct (first_seen_step now o s a p Ho Hp) as (p1 & Hp1 & <-).
  by apply IH.
Qed.

Lemma quiet_step a T p now o s :
  keys_ok s →
  match o with
  | OpAdd b _ _ => b ≠ a
  | OpProbe b _ _ => b ≠ a
  | OpGetPeers => True
  | OpCleanup => (now - T <= 180)%Q
  end →
  peers s !! a = Some p → last_seen_of s !! a = Some T →
  peers (step now o s).1 !! a = Some p
  ∧ last_seen_of (step now o s).1 !! a = Some T.
Proof.
  intros Hok Ho Hp Hl.
  destruct o as [b n si|b n [[|sv rest]|]| |]; cbn [step _check_peer_service fst]; auto.
  - destruct (add_peer_other now b n si s a) as [-> ->]; auto.
  - destruct (add_peer_other now b n sv s a) as [-> ->]; auto.
  - destruct (get_peers_spec now s) as (_ & -> & Hkeep). auto.
  - destruct (cleanup_pass_spec now s Hok) as (_ & _ & _ & _ & Hout).
    destruct (Hout a) as (-> & -> & _); auto.
    intros T' HT'. assert (T' = T) as -> by congruence.
    apply not_true_iff_false. rewrite elapsed_gt_spec. lra.
Qed.

Lemma quiet_run a T p ops : ∀ s,
  keys_ok s → quiet_for a T ops →
  peers s !! a = Some p → last_seen_of s !! a = Some T →
  peers (run ops s).1 !! a = Some p
  ∧ last_seen_of (run ops s).1 !! a = Some T.
Proof.
  induction ops as [|[now o] ops IH]; intros s Hok Hq Hp Hl; [done|].
  apply Forall_cons in Hq as [Ho Hq]. rewrite run_cons. cbn in Ho.
  destruct (quiet_step a T p now o s Hok Ho Hp Hl) as [Hp' Hl'].
  apply IH; auto. by apply keys_ok_step.
Qed.

Lemma ttl_at (s : t) (a : string) (p : peer_info) (T now : Q) :
  keys_ok s → has_on_peer_lost s = true →
  peers s !! a = Some p → last_seen_of s !! a = Some T →
  ((now - T < 120)%Q → p ∈ (get_peers now s).1)
  ∧ ((120 <= now - T)%Q →
       (∀ q, q ∈ (get_peers now s).1 → address q ≠ a)
       ∧ peers (get_peers now s).2 !! a = Some p)
  ∧ ((180 < now - T)%Q →
       peers (cleanup_pass now s).1 !! a = None
       ∧ lost_count a (cleanup_pass now s).2 = 1%nat
       ∧ on_peer_lost p ∈ (cleanup_pass now s).2)
  ∧ ((now - T <= 180)%Q →
       peers (cleanup_pass now s).1 !! a = Some p
       ∧ lost_count a (cleanup_pass now s).2 = 0%nat).
Proof.
  intros Hok Hfl Hp Hl.
  destruct (get_peers_spec now s) as (Hin & Hsame & _).
  destruct (cleanup_pass_spec now s Hok) as (_ & _ & _ & Hgone & Hkept).
  assert (seen_of (last_seen_of s) a = T) as Hseen by (unfold seen_of; by rewrite Hl).
  split_and!.
  - intros Hlt. apply Hin. exists a. split; [done|].
    rewrite Hseen. by apply elapsed_lt_spec.
  - intros Hge. split; [|by rewrite Hsame].
    intros q Hq Ha. apply Hin in Hq as (k & Hk & Hlt).
    pose proof (Hok _ _ Hk) as Hkq. assert (k = a) as -> by congruence.
    rewrite Hseen in Hlt. apply elapsed_lt_spec in Hlt. lra.
  - intros Hgt. destruct (Hgone a T Hl) as (Hnone & Hcnt & Hev).
    { by apply elapsed_gt_spec. }
    split_and!; auto. rewrite Hcnt. unfold lost_events. by rewrite Hp, Hfl.
  - intros Hle. destruct (Hkept a) as (Hpa & _ & Hcnt).
    + intros T' HT'. assert (T' = T) as -> by congruence.
      apply not_true_iff_false. rewrite elapsed_gt_spec. lra.
    + split; [by rewrite Hpa|done].
Qed.

(** C8. A peer last added at time [T] (and, since then, neither added
    again nor evicted) is listed by [get_peers] at every time [now] with
    [now - T < 120]; from [now - T >= 120] on it is not listed although its
    record is still stored; a cleanup pass at time [now] deletes the record
    and fires exactly one [on_peer_lost] event for it when
    [now - T > 180], and keeps it and fires none otherwise. *)
Theorem registry_ttl (found : bool) (ops0 ops : list (Q * op)) (a : string)
    (n : option string) (si : gmap string pyval) (T now : Q) :
  quiet_for a T ops →
  let s0 := (run ops0 (init found true)).1 in
  let s := (run ops (_add_peer T a n si s0).1).1 in
  ∃ p, peers s !! a = Some p ∧ address p = a ∧ last_seen p = T
    ∧ ((now - T < 120)%Q → p ∈ (get_peers now s).1)
    ∧ ((120 <= now - T)%Q →
         (∀ q, q ∈ (get_peers now s).1 → address q ≠ a)
         ∧ peers (get_peers now s).2 !! a = Some p)
    ∧ ((180 < now - T)%Q →
         peers (cleanup_pass now s).1 !! a = None
         ∧ lost_count a (cleanup_pass now s).2 = 1%nat
         ∧ on_peer_lost p ∈ (cleanup_pass now s).2)
    ∧ ((now - T <= 180)%Q →
         peers (cleanup_pass now s).1 !! a = Some p
         ∧ lost_count a (cleanup_pass now s).2 = 0%nat).
Proof.
  intros Hq s0 s.
  assert (keys_ok s0) as Hok0 by apply keys_ok_run, keys_ok_init.
  assert (has_on_peer_lost s0 = true) as Hfl0 by (unfold s0; by rewrite flags_run).
  destruct (add_peer_lookup T a n si s0) as (p & Hp & Hl & Haddr & Hlast & _).
  pose proof (keys_ok_add T a n si s0 Hok0) as Hok1.
  destruct (quiet_run a T p ops _ Hok1 Hq Hp Hl) as [Hp' Hl'].
  exists p. do 3 (split; [done|]).
  apply ttl_at; auto.
  - by apply keys_ok_run.
  - unfold s. by rewrite flags_run.
Qed.

Lemma registry_ttl_witness :
  let ops := [(130%Q, OpGetPeers); (150%Q, OpCleanup);
              (160%Q, OpAdd "11:22" None ∅)] in
  quiet_for "AA:BB" 100 ops
  ∧ ∃ p, peers (run ops (_add_peer 100 "AA:BB" (Some "phone") ∅
                           (init true true)).1).1 !! "AA:BB" = Some p
         ∧ last_seen p = 100%Q.
Proof.
  intros ops.
  assert (quiet_for "AA:BB" 100 ops) as Hq.
  { repeat constructor; cbn; [lra | discriminate]. }
  split; [exact Hq|].
  destruct (registry_ttl true [] ops "AA:BB" (Some "phone") ∅ 100 200 Hq)
    as (p & Hp & _ & Hl & _).
  exists p. split; [exact Hp | exact Hl].
Defined.

(** C9. Along a run whose clock never goes back, every stored record has
    [first_seen <= last_seen] after every operation; a successful probe
    stores a record whose [last_seen] is the current time and whose
    [first_seen] is the current time on a first sighting and the stored
    [first_seen] otherwise; and no sequence of upserts and queries changes
    the [first_seen] of a stored record. *)
Theorem first_seen_set_once (found lost : bool) (t0 : Q) (pre : list (Q * op)) :
  monotone_from t0 pre →
  let s := (run pre (init found lost)).1 in
  (∀ a p, peers s !! a = Some p → (first_seen p <= last_seen p)%Q)
  ∧ (∀ now a n svc rest,
       let s' := (_check_peer_service now a n (Some (svc :: rest)) s).1 in
       ∃ p', peers s' !! a = Some p'
             ∧ last_seen p' = now
             ∧ last_seen_of s' !! a = Some now
             ∧ first_seen p' = match peers s !! a with
                               | Some p => first_seen p
                               | None => now
                               end)
  ∧ (∀ post a p, no_cleanup post → peers s !! a = Some p →
       ∃ p', peers (run post s).1 !! a = Some p'
             ∧ first_seen p' = first_seen p).
Proof.
  intros Hm s. split_and!.
  - assert (stamps_ok t0 (init found lost)) as H0.
    { intros k q Hk. cbn in Hk. by rewrite lookup_empty in Hk. }
    destruct (stamps_ok_run pre t0 _ Hm H0) as (t1 & H1).
    intros a p Hp. by destruct (H1 a p Hp).
  - intros now a n svc rest. cbn [_check_peer_service].
    destruct (add_peer_lookup now a n svc s) as (p' & Hp & Hl & _ & Hlast & Hfirst).
    exists p'. by split_and!.
  - intros post a p Hno Hp. by apply first_seen_run.
Qed.

Lemma first_seen_set_once_witness :
  let pre := [(10%Q, OpAdd "AA:BB" (Some "phone") ∅); (20%Q, OpCleanup);
              (30%Q, OpProbe "AA:BB" None (Some [∅]))] in
  monotone_from 0 pre
  ∧ ∀ a p, peers (run pre (init true true)).1 !! a = Some p →
           (first_seen p <= last_seen p)%Q.
Proof.
  intros pre.
  assert (monotone_from 0 pre) as Hm.
  { cbn. repeat split; lra. }
  split; [exact Hm|].
  exact (proj1 (first_seen_set_once true true 0 pre Hm)).
Defined.

End Registry.

(** ** The peer registry: scans, refreshes and the status *)

Section Scans.
Import Discovery Scanner.

Lemma with_peers_same (s : t) : with_peers s (peers s) (last_seen_of s) = s.
Proof. by destruct s. Qed.

Lemma found_count_app a evs evs' :
  found_count a (evs ++ evs') = (found_count a evs + found_count a evs')%nat.
Proof. unfold found_count. by rewrite List.filter_app, length_app. Qed.

Lemma consistent_init found lost : consistent (init found lost).
Proof.
  split; [apply keys_ok_init|]. intros a. cbn. rewrite !lookup_empty.
  split; intros [? [=]].
Qed.

(** *** Queries leave the registry as it is *)

Lemma get_peers_loop_same now items : ∀ l acc,
  (∀ a i, (a, i) ∈ items → is_Some (l !! a)) →
  (get_peers_loop now items l acc).2 = l.
Proof.
  induction items as [|[a i] rest IH]; intros l acc Hall; cbn [get_peers_loop];
    [done|].
  destruct (Hall a i) as [v Hv]; [by left|].
  unfold last_seen_read. rewrite Hv.
  destruct (elapsed_lt now v 120); apply IH; intros b j Hb; apply (Hall b j); by right.
Qed.

Lemma get_peers_same now s : consistent s → (get_peers now s).2 = s.
Proof.
  intros [_ Hdom]. unfold get_peers.
  pose proof (get_peers_loop_same now (map_to_list (peers s)) (last_seen_of s) []) as H.
  destruct (get_peers_loop now (map_to_list (peers s)) (last_seen_of s) [])
    as [active l]. cbn in *. rewrite H; [apply with_peers_same|].
  intros a i Hin. apply elem_of_map_to_list in Hin. apply Hdom. by eexists.
Qed.

Lemma get_peers_loop_length now items : ∀ l acc,
  (length (get_peers_loop now items l acc).1 <= length acc + length items)%nat
  ∧ ((∀ a i, (a, i) ∈ items → elapsed_lt now (seen_of l a) 120 = true) →
     length (get_peers_loop now items l acc).1 = (length acc + length items)%nat).
Proof.
  induction items as [|[a i] rest IH]; intros l acc; cbn [get_peers_loop].
  - cbn. split; [lia|intros _; lia].
  - destruct (last_seen_read_spec l a) as (Hv & Hsame & _).
    destruct (last_seen_read l a) as [seen l'] eqn:E. cbn in Hv, Hsame. subst seen.
    destruct (elapsed_lt now (seen_of l a) 120) eqn:Hlt.
    + destruct (IH l' (acc ++ [i])) as [IH1 IH2]. rewrite length_app in *.
      cbn [length] in *. split; [lia|]. intros Hall. rewrite IH2; [lia|].
      intros b j Hb. rewrite Hsame. apply (Hall b j). by right.
    + destruct (IH l' acc) as [IH1 IH2]. cbn [length]. split; [lia|].
      intros Hall. rewrite (Hall a i) in Hlt; [done|by left].
Qed.

(** *** The cleanup pass *)

Lemma remove_peer_consistent x s evs :
  consistent s →
  consistent (remove_peer x (s, evs)).1
  ∧ ∀ b, found_count b (remove_peer x (s, evs)).2 = found_count b evs.
Proof.
  intros [Hok Hdom]. unfold remove_peer.
  destruct (peers s !! x) as [info|] eqn:E; cbn [fst snd]; [|done].
  split; [split|].
  - intros k q Hk. cbn in Hk. apply lookup_delete_Some in Hk as [_ Hk]. eauto.
  - intros a. cbn. destruct (decide (a = x)) as [->|Hne].
    + rewrite !lookup_delete_eq. split; intros [? [=]].
    + rewrite !lookup_delete_ne by done. apply Hdom.
  - intros b. rewrite found_count_app. destruct (has_on_peer_lost s); cbn; lia.
Qed.

Lemma remove_peers_consistent l : ∀ s evs,
  consistent s →
  consistent (foldl (λ acc address, remove_peer address acc) (s, evs) l).1
  ∧ ∀ b, found_count b (foldl (λ acc address, remove_peer address acc) (s, evs) l).2
         = found_count b evs.
Proof.
  induction l as [|x l IH]; intros s evs Hc; cbn [foldl]; [done|].
  destruct (remove_peer_consistent x s evs Hc) as [Hc1 Hf1].
  destruct (remove_peer x (s, evs)) as [s1 evs1]. cbn [fst snd] in *.
  destruct (IH s1 evs1 Hc1) as [Hc2 Hf2]. split; [done|].
  intros b. by rewrite Hf2, Hf1.
Qed.

Lemma add_peer_consistent now a n si s :
  consistent s → consistent (_add_peer now a n si s).1.
Proof.
  intros [Hok Hdom]. split; [by apply keys_ok_add|].
  intros b. cbn. destruct (decide (b = a)) as [->|Hne].
  - rewrite !lookup_insert_eq. split; eauto.
  - rewrite !lookup_insert_ne by done. apply Hdom.
Qed.

Lemma check_peer_service_consistent now a n sv s :
  consistent s → consistent (_check_peer_service now a n sv s).1.
Proof.
  intros Hc. destruct sv as [[|svc rest]|]; cbn [_check_peer_service fst]; auto.
  by apply add_peer_consistent.
Qed.

Lemma registry_step_consistent now o s :
  consistent s → consistent (Discovery.step now o s).1.
Proof.
  intros Hc. destruct o as [a n si|a n sv| |]; cbn [Discovery.step fst].
  - by apply add_peer_consistent.
  - by apply check_peer_service_consistent.
  - by rewrite get_peers_same.
  - by apply remove_peers_consistent.
Qed.

(** *** The events of an upsert *)

Lemma add_peer_events now a n si s b :
  has_on_peer_found s = true →
  (found_count b (_add_peer now a n si s).2 + known s b
   = known (_add_peer now a n si s).1 b)%nat
  ∧ lost_count b (_add_peer now a n si s).2 = 0%nat
  ∧ has_on_peer_found (_add_peer now a n si s).1 = has_on_peer_found s
  ∧ has_on_peer_lost (_add_peer now a n si s).1 = has_on_peer_lost s.
Proof.
  intros Hf. unfold _add_peer, known. cbn [fst snd peers with_peers].
  rewrite Hf, andb_true_r. split_and!; try done.
  - destruct (decide (b = a)) as [->|Hne].
    + rewrite lookup_insert_eq. destruct (peers s !! a) eqn:E.
      * rewrite bool_decide_eq_false_2 by done. done.
      * rewrite bool_decide_eq_true_2 by done. unfold found_count. cbn.
        by rewrite String.eqb_refl.
    + rewrite lookup_insert_ne by done.
      destruct (bool_decide (peers s !! a = None)); [|done].
      unfold found_count. cbn.
      destruct (String.eqb_spec a b); [congruence|]. done.
  - by destruct (bool_decide (peers s !! a = None)).
Qed.


(** *** A refresh *)

Lemma refresh_peer_spec now x sv s evs :
  consistent s →
  let r := refresh_peer now x sv (s, evs) in
  (is_Some (peers s !! x) → consistent r.1)
  ∧ has_on_peer_lost r.1 = has_on_peer_lost s
  ∧ has_on_peer_found r.1 = has_on_peer_found s
  ∧ (∀ b, found_count b r.2 = found_count b evs)
  ∧ (∀ e, e ∈ evs → e ∈ r.2)
  ∧ (∀ a, a ≠ x →
       peers r.1 !! a = peers s !! a
       ∧ last_seen_of r.1 !! a = last_seen_of s !! a
       ∧ lost_count a r.2 = lost_count a evs)
  ∧ refreshed sv now x s evs r.
Proof.
  intros [Hok Hdom]. unfold refresh_peer, refreshed, known.
  destruct sv as [[|svc rest]|]; cbn zeta.
  - destruct (peers s !! x) as [info|] eqn:E.
    + destruct (proj1 (Hdom x)) as [v Hv]; [by rewrite E|]. rewrite Hv.
      pose proof (Hok _ _ E) as Haddr. cbn [fst snd peers last_seen_of with_peers
        has_on_peer_lost has_on_peer_found].
      split_and!; try done.
      * intros _. split.
        -- intros k q Hk. cbn in Hk. apply lookup_delete_Some in Hk as [_ Hk]. eauto.
        -- intros a. cbn. destruct (decide (a = x)) as [->|Hne].
           ++ rewrite !lookup_delete_eq. split; intros [? [=]].
           ++ rewrite !lookup_delete_ne by done. apply Hdom.
      * intros b. rewrite found_count_app. destruct (has_on_peer_lost s); cbn; lia.
      * intros e He. apply elem_of_app. by left.
      * intros a Hne. rewrite !lookup_delete_ne by done. split_and!; try done.
        rewrite lost_count_app. destruct (has_on_peer_lost s); cbn; [|lia].
        unfold lost_count. cbn. rewrite Haddr.
        destruct (String.eqb_spec x a); [congruence|]. cbn. lia.
      * apply lookup_delete_eq.
      * apply lookup_delete_eq.
      * rewrite lost_count_app. destruct (has_on_peer_lost s); cbn; [|lia].
        unfold lost_count. cbn. by rewrite Haddr, String.eqb_refl.
      * intros q [= <-] ->. apply elem_of_app. right. by left.
    + cbn [fst snd]. rewrite E. split_and!; try done; try lia.
      destruct (last_seen_of s !! x) eqn:E'; [|done].
      destruct (proj2 (Hdom x)) as [? ?]; [by eexists|congruence].
  - cbn [fst snd peers last_seen_of with_peers has_on_peer_lost has_on_peer_found].
    split_and!; try done.
    + intros Hx. split; [done|]. intros a. cbn.
      destruct (decide (a = x)) as [->|Hne].
      * rewrite lookup_insert_eq. split; [eauto|done].
      * rewrite lookup_insert_ne by done. apply Hdom.
    + intros a Hne. by rewrite lookup_insert_ne.
    + apply lookup_insert_eq.
  - cbn [fst snd]. split_and!; try done.
Qed.

Lemma refresh_loop_spec find time addresses : ∀ running s evs,
  consistent s → NoDup addresses →
  (∀ a, a ∈ addresses → is_Some (peers s !! a)) →
  (length addresses <= running)%nat →
  let r := refresh_loop running find time addresses (s, evs) in
  consistent r.1
  ∧ has_on_peer_lost r.1 = has_on_peer_lost s
  ∧ has_on_peer_found r.1 = has_on_peer_found s
  ∧ (∀ b, found_count b r.2 = found_count b evs)
  ∧ (∀ e, e ∈ evs → e ∈ r.2)
  ∧ (∀ a, a ∉ addresses →
       peers r.1 !! a = peers s !! a
       ∧ last_seen_of r.1 !! a = last_seen_of s !! a
       ∧ lost_count a r.2 = lost_count a evs)
  ∧ (∀ a, a ∈ addresses → refreshed (find a) (time a) a s evs r).
Proof.
  induction addresses as [|x l IH]; intros running s evs Hc Hnd Hin Hrun;
    cbn [refresh_loop].
  - cbn. split_and!; auto. intros a Ha. by apply elem_of_nil in Ha.
  - destruct running as [|running]; [cbn in Hrun; lia|].
    apply NoDup_cons in Hnd as [Hx Hnd].
    destruct (refresh_peer_spec (time x) x (find x) s evs Hc)
      as (Hc1 & Hl1 & Hf1 & Hfc1 & He1 & Ho1 & Hr1).
    destruct (refresh_peer (time x) x (find x) (s, evs)) as [s1 evs1] eqn:E1.
    cbn [fst snd] in *.
    assert (consistent s1) as Hc1' by (apply Hc1, Hin; by left).
    destruct (IH running s1 evs1 Hc1' Hnd) as (Hc2 & Hl2 & Hf2 & Hfc2 & He2 & Ho2 & Hr2).
    { intros a Ha. assert (a ≠ x) as Hne by (intros ->; done).
      destruct (Ho1 a Hne) as (-> & _). apply Hin. by right. }
    { cbn [length] in Hrun. lia. }
    split_and!.
    + done.
    + congruence.
    + congruence.
    + intros b. by rewrite Hfc2, Hfc1.
    + auto.
    + intros a Ha. apply not_elem_of_cons in Ha as [Hne Ha].
      destruct (Ho2 a Ha) as (-> & -> & ->). by apply Ho1.
    + intros a Ha. apply elem_of_cons in Ha as [->|Ha].
      * destruct (Ho2 x Hx) as (Hp & Hs & Hn).
        unfold refreshed in *. destruct (find x) as [[|svc rest]|]; cbn [fst snd] in *.
        -- destruct Hr1 as (? & ? & ? & Hq). split_and!; try congruence.
           intros q Hq1 Hq2. apply He2. by apply Hq.
        -- destruct Hr1 as (? & ? & ?). split_and!; congruence.
        -- destruct Hr1 as (? & ? & ?). split_and!; congruence.
      * assert (a ≠ x) as Hne by (intros ->; done).
        destruct (Ho1 a Hne) as (Hp & Hs & Hn).
        specialize (Hr2 a Ha). unfold refreshed, known in *.
        destruct (find a) as [[|svc rest]|]; cbn [fst snd] in *.
        -- destruct Hr2 as (? & ? & ? & Hq). rewrite Hp, Hl1, Hn in *.
           split_and!; auto.
        -- destruct Hr2 as (? & ? & ?). split_and!; congruence.
        -- destruct Hr2 as (? & ? & ?). split_and!; congruence.
Qed.

Lemma refresh_loop_take find time addresses : ∀ running acc,
  refresh_loop running find time addresses acc
  = refresh_loop running find time (take running addresses) acc.
Proof.
  induction addresses as [|x l IH]; intros running acc.
  - by rewrite take_nil.
  - destruct running as [|running]; [done|]. cbn [take refresh_loop]. apply IH.
Qed.


(** *** Events and records *)

Lemma balanced_trans s s1 e1 s2 e2 :
  balanced s (s1, e1) → balanced s1 (s2, e2) → balanced s (s2, e1 ++ e2).
Proof.
  intros H1 H2 a. specialize (H1 a). specialize (H2 a). cbn [fst snd] in *.
  rewrite found_count_app, lost_count_app. lia.
Qed.

Lemma balanced_refl s : balanced s (s, []).
Proof. intros a. cbn. lia. Qed.

Lemma lost_events_known s a :
  has_on_peer_lost s = true → lost_events s a = known s a.
Proof. intros Hl. unfold lost_events, known. by rewrite Hl. Qed.

Lemma check_peer_service_events now a n sv s :
  let r := _check_peer_service now a n sv s in
  has_on_peer_found r.1 = has_on_peer_found s
  ∧ has_on_peer_lost r.1 = has_on_peer_lost s
  ∧ (∀ b, lost_count b r.2 = 0%nat)
  ∧ (has_on_peer_found s = true → balanced s r).
Proof.
  destruct sv as [[|svc rest]|]; cbn [_check_peer_service]; cbn zeta;
    try (split_and!; [done|done|done|intros _; apply balanced_refl]).
  split_and!.
  - done.
  - done.
  - intros b. cbn. by destruct (_ && _).
  - intros Hf b. destruct (add_peer_events now a n svc s b Hf) as (H1 & H2 & _).
    rewrite H2. lia.
Qed.

Lemma registry_step_spec now o s :
  consistent s →
  let r := Discovery.step now o s in
  consistent r.1
  ∧ has_on_peer_found r.1 = has_on_peer_found s
  ∧ has_on_peer_lost r.1 = has_on_peer_lost s
  ∧ (has_on_peer_found s = true → has_on_peer_lost s = true → balanced s r).
Proof.
  intros Hc. cbn zeta. split; [by apply registry_step_consistent|].
  destruct o as [a n si|a n sv| |]; cbn [Discovery.step].
  - destruct (check_peer_service_events now a n (Some [si]) s) as (H1 & H2 & _ & H4).
    cbn [_check_peer_service] in *. auto.
  - destruct (check_peer_service_events now a n sv s) as (H1 & H2 & _ & H4). auto.
  - cbn [fst snd]. rewrite get_peers_same by done.
    split_and!; [done|done|intros _ _; apply balanced_refl].
  - destruct Hc as [Hok Hdom].
    destruct (remove_peers_spec _ s [] (peers_to_remove_NoDup now (last_seen_of s)) Hok)
      as (_ & Hl & Hf & _ & Hin & Hout).
    destruct (remove_peers_consistent (peers_to_remove now (last_seen_of s)) s [])
      as [_ Hfc]; [by split|].
    unfold cleanup_pass. split_and!; try done.
    intros _ Hlost a. rewrite Hfc. unfold found_count at 1. cbn [List.filter length].
    destruct (decide (a ∈ peers_to_remove now (last_seen_of s))) as [Ha|Ha].
    + destruct (Hin a Ha) as (Hp & Hn & _). rewrite Hn.
      rewrite lost_events_known by done. unfold known at 3. rewrite Hp.
      unfold lost_count. cbn. lia.
    + destruct (Hout a Ha) as (Hp & _ & Hn). rewrite Hn. unfold known. rewrite Hp.
      unfold lost_count. cbn. lia.
Qed.

Lemma refresh_spec running find time s :
  consistent s →
  let l := take running (map_to_list (peers s)).*1 in
  let r := refresh_peer_services running find time s in
  consistent r.1
  ∧ has_on_peer_found r.1 = has_on_peer_found s
  ∧ has_on_peer_lost r.1 = has_on_peer_lost s
  ∧ (∀ b, found_count b r.2 = 0%nat)
  ∧ (∀ a, a ∉ l →
       peers r.1 !! a = peers s !! a
       ∧ last_seen_of r.1 !! a = last_seen_of s !! a
       ∧ lost_count a r.2 = 0%nat)
  ∧ (∀ a, a ∈ l → refreshed (find a) (time a) a s [] r).
Proof.
  intros Hc l r.
  assert (∀ a, a ∈ l → is_Some (peers s !! a)) as Hin.
  { intros a Ha. apply (subseteq_take running) in Ha.
    apply list_elem_of_fmap in Ha as ([k q] & -> & Hk).
    apply elem_of_map_to_list in Hk. by eexists. }
  assert (NoDup l) as Hnd.
  { apply (sublist_NoDup _ (map_to_list (peers s)).*1);
      [apply NoDup_fst_map_to_list|apply sublist_take]. }
  assert (length l <= running)%nat as Hlen by (unfold l; rewrite length_take; lia).
  destruct (refresh_loop_spec find time l running s [] Hc Hnd Hin Hlen)
    as (H1 & H2 & H3 & H4 & _ & H6 & H7).
  unfold r, refresh_peer_services. rewrite refresh_loop_take. fold l.
  split_and!; auto.
Qed.

Lemma refresh_balanced running find time s :
  consistent s → has_on_peer_lost s = true →
  balanced s (refresh_peer_services running find time s).
Proof.
  intros Hc Hl a.
  destruct (refresh_spec running find time s Hc) as (_ & _ & _ & Hf & Hout & Hin).
  rewrite Hf.
  destruct (decide (a ∈ take running (map_to_list (peers s)).*1)) as [Ha|Ha].
  - specialize (Hin a Ha). unfold refreshed in Hin.
    destruct (find a) as [[|svc rest]|].
    + destruct Hin as (Hp & _ & Hn & _). rewrite Hn, Hl. unfold known at 3.
      rewrite Hp. unfold lost_count. cbn. lia.
    + destruct Hin as (Hp & _ & Hn). rewrite Hn. unfold known. rewrite Hp.
      unfold lost_count. cbn. lia.
    + destruct Hin as (Hp & _ & Hn). rewrite Hn. unfold known. rewrite Hp.
      unfold lost_count. cbn. lia.
  - destruct (Hout a Ha) as (Hp & _ & Hn). rewrite Hn. unfold known. rewrite Hp. lia.
Qed.

(** *** A scan *)

Lemma discovery_loop_events find time devs : ∀ running s evs,
  discovery_loop running find time devs (s, evs)
  = ((discovery_loop running find time devs (s, [])).1,
     evs ++ (discovery_loop running find time devs (s, [])).2).
Proof.
  induction devs as [|[a n] rest IH]; intros running s evs; cbn [discovery_loop].
  - cbn. by rewrite app_nil_r.
  - destruct running as [|running]; [cbn; by rewrite app_nil_r|].
    destruct (_check_peer_service (time a) a n (find a) s) as [s' e'].
    rewrite (IH running s' (evs ++ e')), (IH running s' ([] ++ e')).
    cbn [fst snd app]. by rewrite app_assoc.
Qed.

Lemma discovery_loop_cons find time a n rest running s :
  discovery_loop (S running) find time ((a, n) :: rest) (s, [])
  = let c := _check_peer_service (time a) a n (find a) s in
    let r := discovery_loop running find time rest (c.1, []) in
    (r.1, c.2 ++ r.2).
Proof.
  cbn [discovery_loop].
  destruct (_check_peer_service (time a) a n (find a) s) as [s' e'].
  rewrite discovery_loop_events. reflexivity.
Qed.

Lemma check_peer_service_lookup now a n sv s :
  let r := _check_peer_service now a n sv s in
  (∀ b p, peers s !! b = Some p →
     ∃ p', peers r.1 !! b = Some p' ∧ first_seen p' = first_seen p)
  ∧ (∀ b, b ≠ a →
       peers r.1 !! b = peers s !! b ∧ last_seen_of r.1 !! b = last_seen_of s !! b)
  ∧ ((∀ svc rest, sv ≠ Some (svc :: rest)) → r = (s, []))
  ∧ (∀ svc rest, sv = Some (svc :: rest) →
       ∃ p, peers r.1 !! a = Some p ∧ address p = a ∧ last_seen p = now
            ∧ last_seen_of r.1 !! a = Some now).
Proof.
  destruct sv as [[|svc rest]|]; cbn [_check_peer_service]; cbn zeta.
  - split_and!; eauto. intros ? ? [=].
  - split_and!.
    + intros b p Hp. cbn. destruct (decide (b = a)) as [->|Hne].
      * rewrite lookup_insert_eq, Hp. eauto.
      * rewrite lookup_insert_ne by done. eauto.
    + intros b Hne. by apply add_peer_other.
    + intros H. by destruct (H svc rest).
    + intros svc' rest' _.
      destruct (add_peer_lookup now a n svc s) as (p & Hp & Hl & Ha & Hls & _).
      eauto 10.
  - split_and!; eauto. intros ? ? [=].
Qed.

Lemma discovery_loop_spec find time devs : ∀ running s,
  consistent s →
  let r := discovery_loop running find time devs (s, []) in
  consistent r.1
  ∧ has_on_peer_found r.1 = has_on_peer_found s
  ∧ has_on_peer_lost r.1 = has_on_peer_lost s
  ∧ (has_on_peer_found s = true → balanced s r)
  ∧ (∀ b, lost_count b r.2 = 0%nat)
  ∧ (∀ b p, peers s !! b = Some p →
       ∃ p', peers r.1 !! b = Some p' ∧ first_seen p' = first_seen p)
  ∧ (∀ b, (b ∉ devs.*1 ∨ ∀ svc rest, find b ≠ Some (svc :: rest)) →
       peers r.1 !! b = peers s !! b ∧ last_seen_of r.1 !! b = last_seen_of s !! b)
  ∧ (∀ b svc rest, find b = Some (svc :: rest) →
       stamped_at time s b ∨ ((length devs <= running)%nat ∧ b ∈ devs.*1) →
       stamped_at time r.1 b).
Proof.
  induction devs as [|[a n] rest IH]; intros running s Hc.
  - cbn [discovery_loop fst snd]. split_and!.
    + done.
    + done.
    + done.
    + intros _. apply balanced_refl.
    + done.
    + eauto.
    + done.
    + intros b svc rest' _ [H|[_ H]]; [done|]. by apply elem_of_nil in H.
  - destruct running as [|running].
    { cbn [discovery_loop fst snd]. split_and!.
      + done.
      + done.
      + done.
      + intros _. apply balanced_refl.
      + done.
      + eauto.
      + done.
      + intros b svc rest' _ [H|[H _]]; [done|]. cbn in H. lia. }
    rewrite discovery_loop_cons. cbn zeta.
    destruct (check_peer_service_events (time a) a n (find a) s) as (Hf1 & Hl1 & Hn1 & Hb1).
    destruct (check_peer_service_lookup (time a) a n (find a) s) as (Hk1 & Ho1 & Hno1 & Hadd1).
    pose proof (check_peer_service_consistent (time a) a n (find a) s Hc) as Hc1.
    destruct (_check_peer_service (time a) a n (find a) s) as [s1 e1].
    cbn [fst snd] in *.
    destruct (IH running s1 Hc1) as (Hc2 & Hf2 & Hl2 & Hb2 & Hn2 & Hk2 & Ho2 & Hst2).
    destruct (discovery_loop running find time rest (s1, [])) as [s2 e2].
    cbn [fst snd] in *. split_and!.
    + done.
    + congruence.
    + congruence.
    + intros Hf. apply (balanced_trans s s1 e1 s2 e2); [by apply Hb1|].
      apply Hb2. congruence.
    + intros b. by rewrite lost_count_app, Hn1, Hn2.
    + intros b p Hp. destruct (Hk1 b p Hp) as (p1 & Hp1 & <-). by apply Hk2.
    + intros b Hb.
      assert (peers s1 !! b = peers s !! b ∧ last_seen_of s1 !! b = last_seen_of s !! b)
        as [<- <-].
      { destruct (decide (b = a)) as [->|Hne]; [|by apply Ho1].
        destruct Hb as [Hb|Hb].
        - exfalso. apply Hb. cbn. by left.
        - by injection (Hno1 Hb) as -> _. }
      apply Ho2. destruct Hb as [Hb|Hb]; [left|by right].
      intros Hin. apply Hb. cbn. by right.
    + intros b svc rest' Hfind Hb. apply (Hst2 b svc rest' Hfind).
      destruct (decide (b = a)) as [->|Hne].
      * left. destruct (Hadd1 svc rest' Hfind) as (p & ? & ? & ? & ?). by exists p.
      * destruct Hb as [(p & Hp & Ha & Hls & Ht)|[Hlen Hin]].
        -- left. exists p. destruct (Ho1 b Hne) as [-> ->]. done.
        -- right. cbn in Hlen, Hin. apply elem_of_cons in Hin as [?|Hin]; [done|].
           split; [lia|done].
Qed.

(** *** Every operation *)

Lemma scanner_step_spec o s :
  consistent s →
  let r := Scanner.step o s in
  consistent r.1
  ∧ has_on_peer_found r.1 = has_on_peer_found s
  ∧ has_on_peer_lost r.1 = has_on_peer_lost s
  ∧ (has_on_peer_found s = true → has_on_peer_lost s = true → balanced s r).
Proof.
  intros Hc. destruct o as [now o|running find time|running [devs|] find time];
    cbn [Scanner.step]; cbn zeta.
  - by apply registry_step_spec.
  - destruct (refresh_spec running find time s Hc) as (H1 & H2 & H3 & _).
    split_and!; auto. intros _ Hl. by apply refresh_balanced.
  - cbn [_perform_discovery].
    destruct (discovery_loop_spec find time devs running s Hc) as (H1 & H2 & H3 & H4 & _).
    split_and!; auto.
  - cbn [_perform_discovery fst snd]. split_and!; auto.
    intros _ _. apply balanced_refl.
Qed.

Lemma scanner_run_spec ops : ∀ s,
  consistent s →
  let r := Scanner.run ops s in
  consistent r.1
  ∧ has_on_peer_found r.1 = has_on_peer_found s
  ∧ has_on_peer_lost r.1 = has_on_peer_lost s
  ∧ (has_on_peer_found s = true → has_on_peer_lost s = true → balanced s r).
Proof.
  induction ops as [|o ops IH]; intros s Hc; cbn [Scanner.run]; cbn zeta.
  - cbn. split_and!; auto. intros _ _. apply balanced_refl.
  - destruct (scanner_step_spec o s Hc) as (Hc1 & Hf1 & Hl1 & Hb1).
    destruct (Scanner.step o s) as [s1 e1]. cbn [fst snd] in *.
    destruct (IH s1 Hc1) as (Hc2 & Hf2 & Hl2 & Hb2).
    destruct (Scanner.run ops s1) as [s2 e2]. cbn [fst snd] in *.
    split_and!; try congruence.
    intros Hf Hl. apply (balanced_trans s s1 e1 s2 e2); [by apply Hb1|].
    apply Hb2; congruence.
Qed.


(** Whatever adds, probes, queries, cleanup passes, refreshes and scans
    have run on a registry that started empty, every record is stored under
    its own address and the addresses with a record are the addresses with
    an entry in [last_seen]; so [get_peers], which reads [last_seen]
    through a [defaultdict], never creates an entry there: it leaves the
    registry as it found it. *)
Theorem registry_stays_consistent (found lost : bool) (ops : list Scanner.op) :
  let s := (Scanner.run ops (init found lost)).1 in
  (∀ a q, peers s !! a = Some q → address q = a)
  ∧ (∀ a, is_Some (peers s !! a) ↔ is_Some (last_seen_of s !! a))
  ∧ (∀ now, (get_peers now s).2 = s).
Proof.
  intros s.
  destruct (scanner_run_spec ops (init found lost) (consistent_init found lost))
    as ([Hok Hdom] & _).
  split_and!.
  - exact Hok.
  - exact Hdom.
  - intros now. apply get_peers_same. by split.
Qed.

(** With both callbacks installed, the events of any sequence of
    operations on a registry that started empty account for its records:
    for every address, the [on_peer_found] events are as many as the
    [on_peer_lost] events, plus one when the address has a record.  So a
    peer is never announced twice without having been lost in between, and
    never lost without having been announced. *)
Theorem found_and_lost_alternate (ops : list Scanner.op) (a : string) :
  let r := Scanner.run ops (init true true) in
  found_count a r.2 = (lost_count a r.2 + known r.1 a)%nat.
Proof.
  intros r.
  destruct (scanner_run_spec ops (init true true) (consistent_init true true))
    as (_ & _ & _ & Hb).
  specialize (Hb eq_refl eq_refl a). fold r in Hb.
  unfold known at 1 in Hb. cbn [init peers] in Hb. rewrite lookup_empty in Hb. lia.
Qed.

(** A refresh drops at once a known peer whose service lookup finds
    nothing, however recently it was seen: its record and its entry in
    [last_seen] are deleted, and with the callback installed exactly one
    [on_peer_lost] is fired for it, with its record. *)
Theorem refresh_drops_silent_peer (found lost : bool) (ops : list Scanner.op)
    (running : nat) (find : lookup) (time : string → Q) (a : string) (p : peer_info) :
  let s := (Scanner.run ops (init found lost)).1 in
  let r := refresh_peer_services running find time s in
  peers s !! a = Some p → find a = Some [] → (size (peers s) <= running)%nat →
  peers r.1 !! a = None
  ∧ last_seen_of r.1 !! a = None
  ∧ lost_count a r.2 = (if lost then 1 else 0)%nat
  ∧ (lost = true → on_peer_lost p ∈ r.2).
Proof.
  intros s r Hp Hfind Hrun.
  destruct (scanner_run_spec ops (init found lost) (consistent_init found lost))
    as (Hc & _ & Hl & _). fold s in Hc, Hl. cbn [init has_on_peer_lost] in Hl.
  destruct (refresh_spec running find time s Hc) as (_ & _ & _ & _ & _ & Hin).
  assert (a ∈ take running (map_to_list (peers s)).*1) as Ha.
  { rewrite take_ge.
    - apply list_elem_of_fmap. exists (a, p). split; [done|].
      by apply elem_of_map_to_list.
    - rewrite length_fmap, length_map_to_list. exact Hrun. }
  specialize (Hin a Ha). unfold refreshed in Hin. rewrite Hfind in Hin.
  destruct Hin as (H1 & H2 & H3 & H4). fold r in H1, H2, H3, H4.
  split_and!.
  - exact H1.
  - exact H2.
  - rewrite H3, Hl. unfold known. rewrite Hp. unfold lost_count. cbn.
    by destruct lost.
  - intros ->. by apply H4.
Qed.

(** A refresh that finds the service of a known peer stamps the entry of
    the peer in [last_seen] with the current time and leaves its record as
    it was, the [last_seen] of the record included; it fires no event for
    the peer.  From then on the peer is listed by [get_peers] while less
    than 120 seconds have passed since the refresh, and a cleanup pass keeps
    it while no more than 180 seconds have passed.  A peer whose lookup
    raises is left as it was. *)
Theorem refresh_keeps_answering_peer (found lost : bool) (ops : list Scanner.op)
    (running : nat) (find : lookup) (time : string → Q) (a : string) (p : peer_info) :
  let s := (Scanner.run ops (init found lost)).1 in
  let r := refresh_peer_services running find time s in
  peers s !! a = Some p → (size (peers s) <= running)%nat →
  (∀ svc rest, find a = Some (svc :: rest) →
     peers r.1 !! a = Some p
     ∧ last_seen_of r.1 !! a = Some (time a)
     ∧ lost_count a r.2 = 0%nat
     ∧ (∀ now, (now - time a < 120)%Q → p ∈ (get_peers now r.1).1)
     ∧ (∀ now, (now - time a <= 180)%Q →
          peers (cleanup_pass now r.1).1 !! a = Some p))
  ∧ (find a = None →
     peers r.1 !! a = Some p
     ∧ last_seen_of r.1 !! a = last_seen_of s !! a
     ∧ lost_count a r.2 = 0%nat).
Proof.
  intros s r Hp Hrun.
  destruct (scanner_run_spec ops (init found lost) (consistent_init found lost))
    as (Hc & _). fold s in Hc.
  destruct (refresh_spec running find time s Hc) as (Hc' & _ & _ & _ & _ & Hin).
  fold r in Hc'.
  assert (a ∈ take running (map_to_list (peers s)).*1) as Ha.
  { rewrite take_ge.
    - apply list_elem_of_fmap. exists (a, p). split; [done|].
      by apply elem_of_map_to_list.
    - rewrite length_fmap, length_map_to_list. exact Hrun. }
  specialize (Hin a Ha). unfold refreshed in Hin. fold r in Hin. split.
  - intros svc rest Hfind. rewrite Hfind in Hin. destruct Hin as (H1 & H2 & H3).
    rewrite Hp in H1. split_and!.
    + exact H1.
    + exact H2.
    + exact H3.
    + intros now Hlt. apply get_peers_spec. exists a. split; [done|].
      unfold seen_of. rewrite H2. cbn. by apply elapsed_lt_spec.
    + intros now Hle.
      destruct (cleanup_pass_spec now r.1 (proj1 Hc')) as (_ & _ & _ & _ & Hkept).
      destruct (Hkept a) as (Hk & _); [|by rewrite Hk].
      intros T HT. rewrite H2 in HT. injection HT as <-.
      apply not_true_iff_false. rewrite elapsed_gt_spec. lra.
  - intros Hfind. rewrite Hfind in Hin. destruct Hin as (H1 & H2 & H3).
    rewrite Hp in H1. done.
Qed.

(** A scan only adds: it keeps every record, with its [first_seen], and
    fires no [on_peer_lost]; a peer that the scan does not come across, or
    whose service lookup finds nothing or raises, keeps its record and its
    entry in [last_seen] as they were; and every device found, whose
    lookup finds the service, has afterwards a record and an entry in
    [last_seen] stamped with the time of its probe.  A scan in which the
    search for devices raises changes nothing. *)
Theorem scan_only_adds (found lost : bool) (ops : list Scanner.op) (running : nat)
    (find : lookup) (time : string → Q) (devices : list (string * option string)) :
  let s := (Scanner.run ops (init found lost)).1 in
  let r := _perform_discovery running (Some devices) find time s in
  (length devices <= running)%nat →
  (∀ a p, peers s !! a = Some p →
     ∃ p', peers r.1 !! a = Some p' ∧ first_seen p' = first_seen p)
  ∧ (∀ a, lost_count a r.2 = 0%nat)
  ∧ (∀ a, (a ∉ devices.*1 ∨ ∀ svc rest, find a ≠ Some (svc :: rest)) →
       peers r.1 !! a = peers s !! a ∧ last_seen_of r.1 !! a = last_seen_of s !! a)
  ∧ (∀ a svc rest, a ∈ devices.*1 → find a = Some (svc :: rest) →
       ∃ p, peers r.1 !! a = Some p ∧ address p = a ∧ last_seen p = time a
            ∧ last_seen_of r.1 !! a = Some (time a))
  ∧ _perform_discovery running None find time s = (s, []).
Proof.
  intros s r Hrun.
  destruct (scanner_run_spec ops (init found lost) (consistent_init found lost))
    as (Hc & _). fold s in Hc.
  destruct (discovery_loop_spec find time devices running s Hc)
    as (_ & _ & _ & _ & Hn & Hk & Ho & Hst).
  split_and!.
  - exact Hk.
  - exact Hn.
  - exact Ho.
  - intros a svc rest Ha Hfind. apply (Hst a svc rest Hfind). right. by split.
  - reflexivity.
Qed.

(** The status counts every record as a peer and, as active, the records
    that [get_peers] lists: the active peers are never more than the peers,
    and they are all of them when every peer was seen less than 120 seconds
    ago.  Asking for the status leaves the records as they were. *)
Theorem status_counts {A} (current_time : Q) (running : bool) (info : A) (s : t) :
  let st := (get_discovery_status current_time running info s).1 in
  total_peers st = size (peers s)
  ∧ active_peers st = length (get_peers current_time s).1
  ∧ (active_peers st <= total_peers st)%nat
  ∧ ((∀ a p, peers s !! a = Some p →
        (current_time - seen_of (last_seen_of s) a < 120)%Q) →
     active_peers st = total_peers st)
  ∧ peers (get_discovery_status current_time running info s).2 = peers s
  ∧ is_running st = running ∧ local_info st = info.
Proof.
  intros st. unfold st, get_discovery_status.
  destruct (get_peers_spec current_time s) as (_ & Hsame & _).
  pose proof (get_peers_loop_length current_time (map_to_list (peers s))
                (last_seen_of s) []) as [Hle Heq].
  unfold get_peers in *.
  destruct (get_peers_loop current_time (map_to_list (peers s)) (last_seen_of s) [])
    as [active l]. cbn [fst snd length total_peers active_peers is_running local_info]
    in *.
  rewrite length_map_to_list in *. split_and!.
  - done.
  - done.
  - lia.
  - intros Hall. rewrite Heq; [lia|]. intros a i Hin.
    apply elem_of_map_to_list in Hin. apply elapsed_lt_spec. by eapply Hall.
  - done.
  - done.
  - done.
Qed.

End Scans.

Lemma refresh_drops_silent_peer_witness :
  Discovery.peers
    (Scanner.refresh_peer_services 1 (λ _, Some []) (λ _, 20%Q)
       (Scanner.run [Scanner.Registry 10 (Discovery.OpAdd "AA:BB" (Some "phone"%string) ∅)]
          (Discovery.init true true)).1).1 !! "AA:BB"%string = None.
Proof.
  apply (refresh_drops_silent_peer true true
           [Scanner.Registry 10 (Discovery.OpAdd "AA:BB" (Some "phone"%string) ∅)]
           1 (λ _, Some []) (λ _, 20%Q) "AA:BB"
           {| Discovery.address := "AA:BB"; Discovery.name := "phone";
              Discovery.port := PStr "Unknown";
              Discovery.service_name := PStr "Unknown";
              Discovery.first_seen := 10; Discovery.last_seen := 10 |}).
  - reflexivity.
  - reflexivity.
  - vm_compute. lia.
Defined.

Lemma refresh_keeps_answering_peer_witness :
  Discovery.last_seen_of
    (Scanner.refresh_peer_services 1 (λ _, Some [∅]) (λ _, 20%Q)
       (Scanner.run [Scanner.Registry 10 (Discovery.OpAdd "AA:BB" (Some "phone"%string) ∅)]
          (Discovery.init true true)).1).1 !! "AA:BB"%string = Some 20%Q.
Proof.
  apply (refresh_keeps_answering_peer true true
           [Scanner.Registry 10 (Discovery.OpAdd "AA:BB" (Some "phone"%string) ∅)]
           1 (λ _, Some [∅]) (λ _, 20%Q) "AA:BB"
           {| Discovery.address := "AA:BB"; Discovery.name := "phone";
              Discovery.port := PStr "Unknown";
              Discovery.service_name := PStr "Unknown";
              Discovery.first_seen := 10; Discovery.last_seen := 10 |})
    with (svc := ∅) (rest := []).
  - reflexivity.
  - vm_compute. lia.
  - reflexivity.
Defined.

Lemma scan_only_adds_witness :
  ∃ p, Discovery.peers
         (Scanner._perform_discovery 2 (Some [("AA:BB"%string, None)])
            (λ _, Some [∅]) (λ _, 20%Q)
            (Scanner.run [] (Discovery.init true true)).1).1 !! "AA:BB"%string
       = Some p
       ∧ Discovery.address p = "AA:BB"%string ∧ Discovery.last_seen p = 20%Q
       ∧ Discovery.last_seen_of
           (Scanner._perform_discovery 2 (Some [("AA:BB"%string, None)])
              (λ _, Some [∅]) (λ _, 20%Q)
              (Scanner.run [] (Discovery.init true true)).1).1 !! "AA:BB"%string
         = Some 20%Q.
Proof.
  apply (scan_only_adds true true [] 2 (λ _, Some [∅]) (λ _, 20%Q)
           [("AA:BB"%string, None)])
    with (svc := ∅) (rest := []).
  - cbn. lia.
  - cbn. by left.
  - reflexivity.
Defined.

(** ** The file manager *)

Section Catalog.
Import PyJson Wire Network Manager.

Variable sha256_hex : bytes → string.

Lemma has_slash_app (a b : string) :
  has_slash (a ++ b) = has_slash a || has_slash b.
Proof.
  induction a as [|c a IH]; [done|].
  change (String c a ++ b)%string with (String c (a ++ b)%string).
  cbn [has_slash]. by rewrite IH, orb_assoc.
Qed.

Lemma basename_no_slash (p : string) : has_slash p = false → basename p = p.
Proof.
  destruct p as [|c r]; [done|]. cbn [has_slash basename].
  intros [Hc Hr]%orb_false_iff. by rewrite Hr, Hc.
Qed.

Lemma has_slash_basename (p : string) : has_slash (basename p) = false.
Proof.
  induction p as [|c r IH]; [done|]. cbn [basename].
  destruct (has_slash r) eqn:Hr; [exact IH|].
  destruct (Ascii.eqb c "/") eqn:Hc; [exact Hr|].
  cbn [has_slash]. by rewrite Hc, Hr.
Qed.

Lemma basename_app_slash (dir name : string) :
  has_slash name = false → basename (dir ++ String "/" name) = name.
Proof.
  intros Hn. induction dir as [|c dir IH].
  - change (basename (String "/" name) = name). cbn [basename].
    by rewrite Hn.
  - change (String c dir ++ String "/" name)%string
      with (String c (dir ++ String "/" name)%string).
    cbn [basename]. rewrite has_slash_app. cbn [has_slash]. rewrite Ascii.eqb_refl.
    cbn [orb]. rewrite orb_true_r. exact IH.
Qed.

Ltac run_manager :=
  unfold add_shared_file, remove_shared_file, get_file_info, is_file_shared,
    lookup_entry, store, forget, _save_shared_files, _calculate_file_hash,
    os_path_exists, os_path_getsize, get_file_path, mbind, M_bind, mret, M_ret.

(** What [add_shared_file] does with a file that is on disk *)
Lemma add_shared_file_on_disk (t : Z) (wr : bool) (p : string) (content : bytes)
    (w : world) :
  disk w !! p = Some content → sha256_hex content ≠ EmptyString →
  add_shared_file sha256_hex t wr p w
  = _save_shared_files wr
      (match shared_files w !! basename p with
       | Some old =>
           if String.eqb (hash old) (sha256_hex content) then w
           else set_catalog (<[basename p := entry_of sha256_hex (disk w) t p]>
                               (shared_files w)) (saved_db w) w
       | None =>
           set_catalog (<[basename p := entry_of sha256_hex (disk w) t p]>
                          (shared_files w)) (saved_db w) w
       end).
Proof.
  intros Hd Hh. unfold entry_of. rewrite Hd. cbn [default from_option id].
  unfold add_shared_file.
  erewrite bind_ok
    by (unfold os_path_exists; rewrite Hd, bool_decide_eq_true_2 by (by eexists);
        reflexivity).
  cbn [negb].
  erewrite bind_ok by (unfold os_path_getsize; by rewrite Hd).
  erewrite bind_ok by (unfold _calculate_file_hash; by rewrite Hd).
  destruct (sha256_hex content) as [|c h] eqn:E; [done|].
  rewrite bind_unfold. unfold lookup_entry at 1. rewrite bind_unfold.
  destruct (shared_files w !! basename p) as [old|]; [|reflexivity].
  destruct (String.eqb (hash old) (String c h)); reflexivity.
Qed.


Lemma add_shared_file_refused (t : Z) (wr : bool) (p : string) (w : world) :
  (disk w !! p = None ∨ ∃ content, disk w !! p = Some content
                                   ∧ sha256_hex content = EmptyString) →
  add_shared_file sha256_hex t wr p w = (Ok false, w).
Proof.
  intros [Hd|(content & Hd & Hh)]; unfold add_shared_file.
  - erewrite bind_ok
      by (unfold os_path_exists; rewrite Hd, bool_decide_eq_false_2 by (by intros [? ?]);
          reflexivity).
    reflexivity.
  - erewrite bind_ok
      by (unfold os_path_exists; rewrite Hd, bool_decide_eq_true_2 by (by eexists);
          reflexivity).
    cbn [negb].
    erewrite bind_ok by (unfold os_path_getsize; by rewrite Hd).
    erewrite bind_ok by (unfold _calculate_file_hash; by rewrite Hd).
    by rewrite Hh.
Qed.

Lemma listed_after (w : world) (k : string) (info : file_info) :
  shared_files w !! k = Some info → is_Some (disk w !! path info) →
  ∃ names, fst (get_shared_files w) = Ok names ∧ k ∈ names.
Proof.
  intros Hk Hd. rewrite get_shared_files_spec. eexists. split; [reflexivity|].
  apply list_elem_of_fmap. exists (k, info). split; [done|].
  apply elem_of_map_to_list, map_lookup_filter_Some. split; [done|].
  cbn. unfold on_disk. by apply bool_decide_eq_true_2.
Qed.

(** Adding a file that is on disk, under a name that is new to the catalog
    or whose entry has another hash, stores under the base name of the path
    an entry with the path, the size and the hash of the file and the
    current time, and saves the catalog when the database can be written,
    which is what it returns.  The files on disk are not touched; the name
    has no slash; [get_file_path] then gives the path for the name, and
    [get_shared_files] lists it. *)
Theorem add_shared_file_stores (t : Z) (wr : bool) (p : string) (content : bytes)
    (w : world) :
  let r := add_shared_file sha256_hex t wr p w in
  let e := {| path := p; size := Z.of_nat (length content);
              hash := sha256_hex content; added_time := t |} in
  disk w !! p = Some content → sha256_hex content ≠ EmptyString →
  (∀ old, shared_files w !! basename p = Some old → hash old ≠ sha256_hex content) →
  r.1 = Ok wr
  ∧ shared_files r.2 = <[basename p := e]> (shared_files w)
  ∧ saved_db r.2 = (if wr then <[basename p := e]> (shared_files w) else saved_db w)
  ∧ disk r.2 = disk w
  ∧ has_slash (basename p) = false
  ∧ fst (get_file_path (JStr (basename p)) r.2) = Ok (Some p)
  ∧ ∃ names, fst (get_shared_files r.2) = Ok names ∧ basename p ∈ names.
Proof.
  intros r e Hd Hh Hnew.
  assert (r = _save_shared_files wr
                (set_catalog (<[basename p := e]> (shared_files w)) (saved_db w) w))
    as Hr.
  { unfold r. rewrite (add_shared_file_on_disk t wr p content w Hd Hh).
    unfold entry_of. rewrite Hd. cbn [default from_option id]. fold e.
    destruct (shared_files w !! basename p) as [old|] eqn:E; [|done].
    specialize (Hnew old eq_refl).
    destruct (String.eqb_spec (hash old) (sha256_hex content)); done. }
  assert (shared_files r.2 = <[basename p := e]> (shared_files w) ∧ disk r.2 = disk w)
    as [Hsf Hdisk].
  { rewrite Hr. unfold _save_shared_files. by destruct wr. }
  split_and!.
  - rewrite Hr. unfold _save_shared_files. by destruct wr.
  - exact Hsf.
  - rewrite Hr. unfold _save_shared_files. by destruct wr.
  - exact Hdisk.
  - apply has_slash_basename.
  - unfold get_file_path. cbn [fst]. by rewrite Hsf, lookup_insert_eq.
  - apply (listed_after r.2 (basename p) e).
    + by rewrite Hsf, lookup_insert_eq.
    + rewrite Hdisk. cbn. by eexists.
Qed.

(** Adding a file whose base name is in the catalog with the hash of the
    file changes no entry: the entry keeps its path and its time, also when
    the file added is at another path. *)
Theorem add_same_content_keeps_entry (t : Z) (wr : bool) (p : string)
    (content : bytes) (old : file_info) (w : world) :
  let r := add_shared_file sha256_hex t wr p w in
  disk w !! p = Some content → sha256_hex content ≠ EmptyString →
  shared_files w !! basename p = Some old → hash old = sha256_hex content →
  r.1 = Ok wr
  ∧ shared_files r.2 = shared_files w
  ∧ saved_db r.2 = (if wr then shared_files w else saved_db w)
  ∧ disk r.2 = disk w
  ∧ fst (get_file_path (JStr (basename p)) r.2) = Ok (Some (path old)).
Proof.
  intros r Hd Hh Hold Hsame.
  assert (r = _save_shared_files wr w) as Hr.
  { unfold r. rewrite (add_shared_file_on_disk t wr p content w Hd Hh), Hold.
    by rewrite Hsame, String.eqb_refl. }
  rewrite Hr. unfold _save_shared_files, get_file_path.
  destruct wr; cbn; by rewrite Hold.
Qed.

(** Whatever the path, [add_shared_file] returns a truth value, touches no
    file on disk and no entry of the catalog but the one of the base name
    of the path; a path that is not on disk is refused with the state
    unchanged; and when it returns [True], the name is in the catalog and
    the saved catalog is the catalog. *)
Theorem add_shared_file_frame (t : Z) (wr : bool) (p : string) (w : world) :
  let r := add_shared_file sha256_hex t wr p w in
  (∃ b, r.1 = Ok b)
  ∧ disk r.2 = disk w
  ∧ (∀ k, k ≠ basename p → shared_files r.2 !! k = shared_files w !! k)
  ∧ (disk w !! p = None → r = (Ok false, w))
  ∧ (r.1 = Ok true →
     is_Some (shared_files r.2 !! basename p) ∧ saved_db r.2 = shared_files r.2).
Proof.
  intros r. unfold r.
  destruct (disk w !! p) as [content|] eqn:Hd.
  2:{ rewrite add_shared_file_refused by (by left). split_and!; eauto; done. }
  destruct (decide (sha256_hex content = EmptyString)) as [Hh|Hh].
  { rewrite add_shared_file_refused by (right; eauto). split_and!; eauto; done. }
  rewrite (add_shared_file_on_disk t wr p content w Hd Hh).
  unfold _save_shared_files.
  destruct (shared_files w !! basename p) as [old|] eqn:E;
    [destruct (String.eqb (hash old) (sha256_hex content))|];
    destruct wr; cbn [fst snd shared_files saved_db disk set_catalog];
    (split_and!;
     [eauto | done
      | intros k Hk; by rewrite ?lookup_insert_ne by done
      | done
      | intros Hb; first [discriminate Hb
                         | rewrite ?lookup_insert_eq, ?E; split; eauto]]).
Qed.

Lemma remove_shared_file_known (wr : bool) (k : string) (w : world) :
  is_Some (shared_files w !! k) →
  remove_shared_file wr k w
  = _save_shared_files wr (set_catalog (delete k (shared_files w)) (saved_db w) w).
Proof.
  intros [info Hk]. unfold remove_shared_file. rewrite bind_unfold.
  unfold lookup_entry at 1. by rewrite Hk.
Qed.

(** Removing a name that is not shared returns [False] and changes
    nothing.  Removing a shared name deletes its entry and no other, saves
    the catalog when the database can be written, which is what it returns,
    and touches no file on disk.  And removing the name of a file that was
    just added under a new name gives back the catalog as it was before. *)
Theorem remove_shared_file_undoes_add (wr : bool) (k : string) (w : world) :
  let r := remove_shared_file wr k w in
  (shared_files w !! k = None → r = (Ok false, w))
  ∧ (is_Some (shared_files w !! k) →
     r.1 = Ok wr
     ∧ shared_files r.2 = delete k (shared_files w)
     ∧ saved_db r.2 = (if wr then delete k (shared_files w) else saved_db w)
     ∧ disk r.2 = disk w
     ∧ fst (is_file_shared k r.2) = Ok false)
  ∧ (∀ t wr' p content,
       disk w !! p = Some content → sha256_hex content ≠ EmptyString →
       shared_files w !! basename p = None →
       let w1 := (add_shared_file sha256_hex t wr' p w).2 in
       (remove_shared_file wr (basename p) w1).1 = Ok wr
       ∧ shared_files (remove_shared_file wr (basename p) w1).2 = shared_files w
       ∧ disk (remove_shared_file wr (basename p) w1).2 = disk w).
Proof.
  intros r. split_and!.
  - intros Hk. unfold r, remove_shared_file. rewrite bind_unfold.
    unfold lookup_entry. by rewrite Hk.
  - intros Hk. unfold r. rewrite remove_shared_file_known by done.
    unfold _save_shared_files, is_file_shared.
    destruct wr; cbn [fst snd shared_files saved_db disk set_catalog];
      rewrite lookup_delete_eq;
      (rewrite bool_decide_eq_false_2 by (by intros [? ?])); done.
  - intros t wr' p content Hd Hh Hnew w1.
    assert (shared_files w1 = <[basename p := entry_of sha256_hex (disk w) t p]>
                                (shared_files w) ∧ disk w1 = disk w) as [Hsf Hdisk].
    { unfold w1. rewrite (add_shared_file_on_disk t wr' p content w Hd Hh), Hnew.
      unfold _save_shared_files. by destruct wr'. }
    rewrite remove_shared_file_known by (by rewrite Hsf, lookup_insert_eq).
    unfold _save_shared_files.
    destruct wr; cbn [fst snd shared_files saved_db disk set_catalog];
      rewrite Hsf, delete_insert_eq, Hdisk;
      (rewrite delete_id by done); done.
Qed.


(** [get_file_info] answers [None] for a name that is not shared and for
    an entry whose file is gone, which it leaves in the catalog.  For an
    entry whose file is on disk it compares sizes only: when the size on
    disk is the size of the entry it returns the entry as stored, whatever
    the content is now; when the size differs it returns the entry with the
    size and the hash of what is on disk, stores it, and saves the catalog
    when the database can be written. *)
Theorem get_file_info_tracks_size (wr : bool) (k : string) (w : world) :
  let r := get_file_info sha256_hex wr k w in
  (shared_files w !! k = None → r = (Ok None, w))
  ∧ (∀ info, shared_files w !! k = Some info →
       (disk w !! path info = None → r = (Ok None, w))
       ∧ (∀ content : bytes, disk w !! path info = Some content →
            (Z.of_nat (length content) = size info → r = (Ok (Some info), w))
            ∧ (Z.of_nat (length content) ≠ size info →
               let e := {| path := path info; size := Z.of_nat (length content);
                           hash := sha256_hex content;
                           added_time := added_time info |} in
               r.1 = Ok (Some e)
               ∧ shared_files r.2 = <[k := e]> (shared_files w)
               ∧ saved_db r.2
                 = (if wr then <[k := e]> (shared_files w) else saved_db w)
               ∧ disk r.2 = disk w))).
Proof.
  intros r. unfold r, get_file_info. split.
  { intros Hk. rewrite bind_unfold. unfold lookup_entry. by rewrite Hk. }
  intros info Hk. erewrite bind_ok by (unfold lookup_entry; by rewrite Hk).
  split.
  { intros Hd.
    erewrite bind_ok
      by (unfold os_path_exists; rewrite Hd, bool_decide_eq_false_2 by (by intros [? ?]);
          reflexivity).
    reflexivity. }
  intros content Hd.
  erewrite bind_ok
    by (unfold os_path_exists; rewrite Hd, bool_decide_eq_true_2 by (by eexists);
        reflexivity).
  cbn [negb].
  erewrite bind_ok by (unfold os_path_getsize; by rewrite Hd).
  split.
  - intros Hsz. by assert ((Z.of_nat (length content) =? size info) = true) as -> by lia.
  - intros Hsz. cbn zeta.
    assert ((Z.of_nat (length content) =? size info) = false) as -> by lia.
    cbn [negb].
    erewrite bind_ok by (unfold _calculate_file_hash; by rewrite Hd).
    unfold store, _save_shared_files, mbind, M_bind, mret, M_ret.
    by destruct wr.
Qed.

(** [get_file_by_hash] changes nothing; an entry it returns is an entry of
    the catalog with the hash asked for, and it returns none exactly when
    the catalog has no entry with this hash. *)
Theorem get_file_by_hash_finds (h : string) (w : world) :
  let r := get_file_by_hash h w in
  r.2 = w
  ∧ (∀ k info, r.1 = Ok (Some (k, info)) →
       shared_files w !! k = Some info ∧ hash info = h)
  ∧ (r.1 = Ok None ↔ ∀ k info, shared_files w !! k = Some info → hash info ≠ h).
Proof.
  intros r. unfold r, get_file_by_hash. cbn [fst snd]. split_and!.
  - done.
  - intros k info [= Hf]. apply find_some in Hf as [Hin Hh].
    apply list_elem_of_In, elem_of_map_to_list in Hin. split; [done|].
    by apply String.eqb_eq in Hh.
  - split.
    + intros [= Hf] k info Hk Hh.
      pose proof (find_none _ _ Hf (k, info)) as Hn. cbn in Hn.
      rewrite Hh, String.eqb_refl in Hn. discriminate Hn.
      by apply list_elem_of_In, elem_of_map_to_list.
    + intros Hall. f_equal.
      destruct (find _ _) as [[k info]|] eqn:Hf; [|done].
      apply find_some in Hf as [Hin Hh].
      apply list_elem_of_In, elem_of_map_to_list in Hin.
      apply String.eqb_eq in Hh. by destruct (Hall k info Hin).
Qed.

Lemma sum_sizes_app (l l' : list listed_file) :
  sum_sizes (l ++ l') = sum_sizes l + sum_sizes l'.
Proof. induction l as [|f l IH]; cbn [app sum_sizes]; lia. Qed.

Lemma summary_loop_spec (d : gmap string bytes) (items : list (string * file_info)) :
  ∀ (acc : summary) (w : world), disk w = d →
  let listed := map listing (List.filter (λ kv, on_disk d (snd kv)) items) in
  summary_loop items acc w
  = (Ok {| total_files := total_files acc;
           total_size := total_size acc + sum_sizes listed;
           files := files acc ++ listed |}, w).
Proof.
  induction items as [|[k info] items IH]; intros acc w Hd; cbn zeta.
  - cbn. rewrite Z.add_0_r, app_nil_r. by destruct acc.
  - cbn [summary_loop List.filter snd]. rewrite bind_unfold.
    unfold os_path_exists at 1. rewrite Hd.
    change (bool_decide (is_Some (d !! path info))) with (on_disk d info).
    destruct (on_disk d info); cbn [negb].
    + rewrite IH by done. cbn [total_files total_size files map sum_sizes listing
                                 fst snd lf_size].
      rewrite <- app_assoc. cbn [app]. do 3 f_equal. lia.
    + by rewrite IH.
Qed.

(** The summary changes nothing.  Its [total_files] counts every entry of
    the catalog, also those whose file is gone; its [files] are the entries
    whose file is on disk, with the sizes stored in the catalog, and its
    [total_size] is the sum of these sizes: the files listed may be fewer
    than [total_files]. *)
Theorem summary_totals (w : world) :
  let r := get_shared_files_summary w in
  r.2 = w
  ∧ ∃ sm, r.1 = Ok sm
          ∧ total_files sm = base.size (shared_files w)
          ∧ total_size sm = sum_sizes (files sm)
          ∧ (length (files sm) <= total_files sm)%nat
          ∧ (∀ f, f ∈ files sm ↔
               ∃ k info, shared_files w !! k = Some info
                         ∧ is_Some (disk w !! path info)
                         ∧ f = listing (k, info)).
Proof.
  intros r. unfold r, get_shared_files_summary.
  rewrite (summary_loop_spec (disk w)) by done. cbn [fst snd]. split; [done|].
  eexists. split; [reflexivity|].
  cbn [total_files total_size files app]. split_and!.
  - done.
  - lia.
  - rewrite length_map, <- length_map_to_list.
    apply List.filter_length_le.
  - intros f. rewrite list_elem_of_In, in_map_iff. split.
    + intros ([k info] & <- & Hin). apply filter_In in Hin as [Hin Hon].
      apply list_elem_of_In, elem_of_map_to_list in Hin. exists k, info.
      split_and!; [done| |done]. cbn in Hon. unfold on_disk in Hon.
      by apply bool_decide_eq_true_1 in Hon.
    + intros (k & info & Hk & Hd & ->). exists (k, info). split; [done|].
      apply filter_In. split.
      * by apply list_elem_of_In, elem_of_map_to_list.
      * cbn. unfold on_disk. by apply bool_decide_eq_true_2.
Qed.


(** *** Validation *)

Lemma set_catalog_same (w : world) : set_catalog (shared_files w) (saved_db w) w = w.
Proof. by destruct w. Qed.

Lemma validate_loop_spec (d : gmap string bytes) (items : list (string * file_info)) :
  ∀ (acc : list string) (w : world),
  disk w = d → NoDup items.*1 →
  (∀ k info, (k, info) ∈ items → shared_files w !! k = Some info) →
  ∃ sf,
    validate_loop sha256_hex items acc w
    = (Ok (acc ++ (List.filter (λ kv, negb (on_disk d (snd kv))) items).*1),
       set_catalog sf (saved_db w) w)
    ∧ (∀ k info, (k, info) ∈ items → on_disk d info = true →
         sf !! k = Some (validated_entry sha256_hex d info))
    ∧ (∀ k, (k ∉ items.*1 ∨ ∃ info, (k, info) ∈ items ∧ on_disk d info = false) →
         sf !! k = shared_files w !! k).
Proof.
  induction items as [|[k0 info0] items IH]; intros acc w Hd Hnd Hcat.
  - exists (shared_files w). cbn. rewrite app_nil_r, set_catalog_same.
    split_and!; [done| |done]. intros k info Hin. by apply elem_of_nil in Hin.
  - cbn [fmap list_fmap fst] in Hnd. apply NoDup_cons in Hnd as [Hk0 Hnd].
    pose proof (Hcat k0 info0 ltac:(by left)) as Hk0cat.
    cbn [validate_loop List.filter snd]. rewrite bind_unfold.
    unfold os_path_exists at 1. rewrite Hd.
    change (bool_decide (is_Some (d !! path info0))) with (on_disk d info0).
    destruct (on_disk d info0) eqn:Hon; cbn [negb].
    + set (v := validated_entry sha256_hex d info0).
      set (w1 := set_catalog (<[k0 := v]> (shared_files w)) (saved_db w) w).
      assert (∃ content : bytes, d !! path info0 = Some content) as [content Hc].
      { unfold on_disk in Hon. by apply bool_decide_eq_true_1 in Hon as [c Hc]; eauto. }
      assert (check_integrity sha256_hex k0 info0 w = (Ok (), w1)) as Hstep.
      { unfold check_integrity, w1, v, validated_entry, refreshed_entry.
        rewrite Hc. cbn [default from_option id].
        destruct (String.eqb (hash info0) EmptyString); cbn [negb].
        - unfold mret, M_ret. by rewrite insert_id, set_catalog_same.
        - rewrite bind_unfold. unfold _calculate_file_hash at 1. rewrite Hd, Hc.
          destruct (String.eqb (sha256_hex content) (hash info0)); cbn [negb].
          + unfold mret, M_ret. by rewrite insert_id, set_catalog_same.
          + rewrite bind_unfold. unfold os_path_getsize at 1. rewrite Hd, Hc.
            reflexivity. }
      erewrite bind_ok by exact Hstep.
      destruct (IH acc w1) as (sf & Hrun & Hin & Hout).
      { done. }
      { done. }
      { intros k info Hkin. unfold w1. cbn.
        rewrite lookup_insert_ne; [apply Hcat; by right|].
        intros <-. apply Hk0. apply list_elem_of_fmap. by exists (k0, info). }
      exists sf. rewrite Hrun. split_and!.
      * done.
      * intros k info Hkin Hkon. apply elem_of_cons in Hkin as [[= -> ->]|Hkin].
        -- rewrite Hout by (by left). unfold w1. cbn. apply lookup_insert_eq.
        -- by apply Hin.
      * intros k Hk.
        assert (k ≠ k0) as Hne.
        { intros ->. destruct Hk as [Hk|(info & Hkin & Hoff)].
          - apply Hk. cbn. by left.
          - apply elem_of_cons in Hkin as [[= ->]|Hkin]; [congruence|].
            apply Hk0. apply list_elem_of_fmap. by exists (k0, info). }
        rewrite Hout.
        -- unfold w1. cbn. by rewrite lookup_insert_ne.
        -- destruct Hk as [Hk|(info & Hkin & Hoff)].
           ++ left. intros Hkin. apply Hk. cbn. by right.
           ++ right. exists info. split; [|done].
              apply elem_of_cons in Hkin as [[= -> ->]|Hkin]; [done|done].
    + destruct (IH (acc ++ [k0]) w) as (sf & Hrun & Hin & Hout).
      { done. }
      { done. }
      { intros k info Hkin. apply Hcat. by right. }
      exists sf. rewrite Hrun. cbn [fmap list_fmap fst]. rewrite <- app_assoc.
      split_and!.
      * done.
      * intros k info Hkin Hkon. apply elem_of_cons in Hkin as [[= -> ->]|Hkin];
          [congruence|by apply Hin].
      * intros k [Hk|(info & Hkin & Hoff)].
        -- apply Hout. left. intros Hkin. apply Hk. cbn. by right.
        -- apply elem_of_cons in Hkin as [[= -> ->]|Hkin].
           ++ apply Hout. by left.
           ++ apply Hout. right. eauto.
Qed.

Lemma forget_all_spec (l : list string) : ∀ w,
  forget_all l w
  = (Ok (), set_catalog (foldl (λ m filename, delete filename m) (shared_files w) l)
                        (saved_db w) w).
Proof.
  induction l as [|x l IH]; intros w; cbn [forget_all foldl].
  - unfold mret, M_ret. by rewrite set_catalog_same.
  - rewrite bind_unfold. unfold forget at 1. by rewrite IH.
Qed.

Lemma validated_entry_path d info : path (validated_entry sha256_hex d info) = path info.
Proof.
  unfold validated_entry, refreshed_entry.
  destruct (String.eqb (hash info) EmptyString); [done|].
  by destruct (String.eqb _ (hash info)).
Qed.

Lemma validated_entry_idem d info :
  validated_entry sha256_hex d (validated_entry sha256_hex d info)
  = validated_entry sha256_hex d info.
Proof.
  destruct (String.eqb (hash info) EmptyString) eqn:He.
  { unfold validated_entry. rewrite He. cbn iota. by rewrite He. }
  destruct (String.eqb (sha256_hex (default [] (d !! path info : option bytes)))
                       (hash info)) eqn:Hs.
  { unfold validated_entry. rewrite He, Hs. cbn iota. by rewrite He, Hs. }
  unfold validated_entry at 2. rewrite He, Hs. cbn iota.
  unfold validated_entry, refreshed_entry. cbn [hash path added_time].
  rewrite String.eqb_refl, He, Hs.
  by destruct (String.eqb (sha256_hex _) EmptyString).
Qed.

(** What [validate_shared_files] returns and leaves *)
Lemma validate_shared_files_run (wr : bool) (w : world) :
  let gone := (List.filter (λ kv, negb (on_disk (disk w) (snd kv)))
                           (map_to_list (shared_files w))).*1 in
  let sf := validated_entry sha256_hex (disk w) <$> kept_files w in
  validate_shared_files sha256_hex wr w
  = (Ok gone,
     set_catalog sf (match gone with
                     | [] => saved_db w
                     | _ :: _ => if wr then sf else saved_db w
                     end) w).
Proof.
  intros gone sf. unfold validate_shared_files.
  erewrite bind_ok by reflexivity.
  destruct (validate_loop_spec (disk w) (map_to_list (shared_files w)) [] w eq_refl
              (NoDup_fst_map_to_list _)) as (sf1 & Hrun & Hin & Hout).
  { intros k info Hk. by apply elem_of_map_to_list. }
  erewrite bind_ok by exact Hrun. cbn [app]. fold gone.
  erewrite bind_ok by apply forget_all_spec.
  cbn [shared_files saved_db set_catalog].
  assert (foldl (λ m filename, delete filename m) sf1 gone = sf) as ->.
  { apply map_eq. intros k. rewrite lookup_foldl_delete. unfold sf.
    rewrite lookup_fmap. unfold kept_files.
    destruct (shared_files w !! k) as [info|] eqn:Hk.
    - destruct (on_disk (disk w) info) eqn:Hon.
      + rewrite decide_False.
        * rewrite (Hin k info) by (by try apply elem_of_map_to_list).
          symmetry. erewrite (proj2 (map_lookup_filter_Some _ _ _ _)); [done|].
          by split.
        * intros Hg. apply list_elem_of_fmap in Hg as ([k' info'] & -> & Hg).
          apply list_elem_of_In, filter_In in Hg as [Hg Hoff].
          apply list_elem_of_In, elem_of_map_to_list in Hg. cbn in *.
          rewrite Hk in Hg. injection Hg as <-. by rewrite Hon in Hoff.
      + rewrite decide_True.
        * symmetry. rewrite (proj2 (map_lookup_filter_None _ _ _)); [done|].
          right. intros info' Hk'. cbn. congruence.
        * apply list_elem_of_fmap. exists (k, info). split; [done|].
          apply list_elem_of_In, filter_In. split.
          -- by apply list_elem_of_In, elem_of_map_to_list.
          -- cbn. by rewrite Hon.
    - rewrite (proj2 (map_lookup_filter_None _ _ _)) by (by left). cbn.
      destruct (decide (k ∈ gone)); [done|].
      rewrite Hout; [done|]. left. intros Hkin.
      apply list_elem_of_fmap in Hkin as ([k' info'] & -> & Hkin).
      apply elem_of_map_to_list in Hkin. cbn in *. congruence. }
  destruct gone as [|g gone']; [reflexivity|].
  unfold _save_shared_files, mbind, M_bind, mret, M_ret.
  destruct wr; reflexivity.
Qed.


Lemma filter_none {A} (f : A → bool) (l : list A) :
  (∀ x, x ∈ l → f x = false) → List.filter f l = [].
Proof.
  induction l as [|x l IH]; intros Hall; [done|]. cbn [List.filter].
  rewrite (Hall x) by (by left). apply IH. intros y Hy. apply Hall. by right.
Qed.

Lemma kept_files_all (w : world) :
  (∀ k info, shared_files w !! k = Some info → on_disk (disk w) info = true) →
  kept_files w = shared_files w.
Proof.
  intros Hall. apply map_eq. intros k. unfold kept_files.
  destruct (shared_files w !! k) as [info|] eqn:Hk.
  - apply map_lookup_filter_Some. split; [done|]. cbn. by eapply Hall.
  - apply map_lookup_filter_None. by left.
Qed.

(** [validate_shared_files] returns the names whose file is gone and
    deletes their entries; it touches no file.  An entry that stays and has
    a hash that differs from the hash of its file gets the hash and the size
    of the file; the other entries that stay are left as they were.  So
    afterwards every entry has its file on disk and a hash that is empty or
    is the hash of the file, and validating again returns no name and
    changes nothing.  The catalog is saved only when an entry was deleted
    (and the database can be written): otherwise the hashes that were
    corrected are in memory only. *)
Theorem validation_settles (wr : bool) (w : world) :
  let r := validate_shared_files sha256_hex wr w in
  (∃ invalid, r.1 = Ok invalid
     ∧ (∀ k, k ∈ invalid ↔
          ∃ info, shared_files w !! k = Some info ∧ disk w !! path info = None)
     ∧ (invalid = [] → saved_db r.2 = saved_db w)
     ∧ (invalid ≠ [] → saved_db r.2 = if wr then shared_files r.2 else saved_db w))
  ∧ shared_files r.2 = validated_entry sha256_hex (disk w) <$> kept_files w
  ∧ disk r.2 = disk w
  ∧ (∀ k info, shared_files r.2 !! k = Some info →
       ∃ content : bytes, disk w !! path info = Some content
         ∧ (hash info = EmptyString ∨ hash info = sha256_hex content))
  ∧ (∀ wr', validate_shared_files sha256_hex wr' r.2 = (Ok [], r.2)).
Proof.
  intros r. unfold r. rewrite validate_shared_files_run. cbn zeta.
  set (gone := (List.filter (λ kv, negb (on_disk (disk w) (snd kv)))
                            (map_to_list (shared_files w))).*1).
  set (sf := validated_entry sha256_hex (disk w) <$> kept_files w).
  cbn [fst snd shared_files saved_db disk set_catalog].
  assert (∀ k info, sf !! k = Some info →
            ∃ info0 (content : bytes),
              shared_files w !! k = Some info0
              ∧ info = validated_entry sha256_hex (disk w) info0
              ∧ disk w !! path info = Some content
              ∧ disk w !! path info0 = Some content) as Hsf.
  { intros k info Hk. unfold sf in Hk. rewrite lookup_fmap in Hk.
    destruct (kept_files w !! k) as [info0|] eqn:Hk0; [|done].
    injection Hk as <-. apply map_lookup_filter_Some in Hk0 as [Hk0 Hon].
    cbn in Hon. unfold on_disk in Hon.
    apply bool_decide_eq_true_1 in Hon as [content Hc].
    exists info0, content. rewrite validated_entry_path. done. }
  split_and!.
  - exists gone. split_and!.
    + done.
    + intros k. unfold gone. rewrite list_elem_of_fmap. split.
      * intros ([k' info] & -> & Hin).
        apply list_elem_of_In, filter_In in Hin as [Hin Hoff].
        apply list_elem_of_In, elem_of_map_to_list in Hin. exists info.
        split; [done|]. cbn in Hoff. apply negb_true_iff in Hoff.
        unfold on_disk in Hoff. apply bool_decide_eq_false_1 in Hoff.
        destruct (disk w !! path info) eqn:E; [|done]. destruct Hoff. by eexists.
      * intros (info & Hk & Hd). exists (k, info). split; [done|].
        apply list_elem_of_In, filter_In. split.
        -- by apply list_elem_of_In, elem_of_map_to_list.
        -- cbn. apply negb_true_iff. unfold on_disk. rewrite Hd.
           apply bool_decide_eq_false_2. by intros [? ?].
    + by intros ->.
    + by destruct gone.
  - done.
  - done.
  - intros k info Hk. destruct (Hsf k info Hk) as (info0 & content & _ & -> & Hc & Hc0).
    exists content. split; [done|].
    unfold validated_entry, refreshed_entry. rewrite Hc0. cbn [default from_option id].
    destruct (String.eqb_spec (hash info0) EmptyString) as [He|He]; [by left|].
    destruct (String.eqb_spec (sha256_hex content) (hash info0)) as [Hs|Hs];
      [by right|by right].
  - intros wr'.
    set (w' := set_catalog sf match gone with
                              | [] => saved_db w
                              | _ :: _ => if wr then sf else saved_db w
                              end w).
    rewrite validate_shared_files_run. cbn zeta.
    assert (∀ k info, shared_files w' !! k = Some info → on_disk (disk w') info = true)
      as Hall.
    { intros k info Hk. destruct (Hsf k info Hk) as (_ & content & _ & _ & Hc & _).
      unfold on_disk. apply bool_decide_eq_true_2. by eexists. }
    rewrite filter_none.
    2:{ intros [k info] Hin. apply elem_of_map_to_list in Hin. cbn [snd].
        by rewrite (Hall k info). }
    rewrite kept_files_all by done. cbn [fmap list_fmap].
    assert (validated_entry sha256_hex (disk w') <$> shared_files w' = shared_files w')
      as ->.
    { change (shared_files w') with sf. change (disk w') with (disk w). unfold sf.
      rewrite <- map_fmap_compose. apply map_fmap_ext. intros k info _. cbn.
      apply validated_entry_idem. }
    by rewrite set_catalog_same.
Qed.

(** After [get_shared_files] every name it lists resolves: the catalog has
    an entry for it whose file is on disk, and [get_file_path] gives the
    path of that file.  Listing again gives the same names and changes
    nothing more. *)
Theorem listing_settles (w : world) :
  let r := get_shared_files w in
  get_shared_files r.2 = (r.1, r.2)
  ∧ ∃ names, r.1 = Ok names
      ∧ ∀ k, k ∈ names →
          ∃ info, shared_files r.2 !! k = Some info
                  ∧ is_Some (disk r.2 !! path info)
                  ∧ fst (get_file_path (JStr k) r.2) = Ok (Some (path info)).
Proof.
  intros r. pose proof (get_shared_files_spec w) as Hr. fold r in Hr.
  set (w' := set_catalog (kept_files w)
               (if bool_decide (kept_files w = shared_files w)
                then saved_db w else kept_files w) w) in *.
  destruct r as [res w1]. injection Hr as -> ->. cbn [fst snd].
  assert (∀ k info, shared_files w' !! k = Some info → on_disk (disk w') info = true)
    as Hall.
  { intros k info Hk. cbn in Hk. by apply map_lookup_filter_Some in Hk as [_ Hon]. }
  assert (kept_files w' = kept_files w) as Hkept.
  { by rewrite kept_files_all. }
  split.
  - rewrite get_shared_files_spec, Hkept.
    change (shared_files w') with (kept_files w).
    rewrite bool_decide_eq_true_2 by done.
    change (kept_files w) with (shared_files w') at 2. by rewrite set_catalog_same.
  - eexists. split; [reflexivity|]. intros k Hk.
    apply list_elem_of_fmap in Hk as ([k' info] & -> & Hk).
    apply elem_of_map_to_list in Hk. exists info. cbn [fst].
    pose proof (Hall k' info Hk) as Hon. unfold on_disk in Hon.
    apply bool_decide_eq_true_1 in Hon. split_and!; [done|done|].
    unfold get_file_path. cbn [fst]. change (shared_files w') with (kept_files w).
    by rewrite Hk.
Qed.

End Catalog.

Lemma add_shared_file_stores_witness :
  Wire.shared_files
    (Manager.add_shared_file (λ _, "ef"%string) 7 true "/srv/a.bin"
       Protocol.sharing_one_file).2
  = <["a.bin"%string := {| Wire.path := "/srv/a.bin"; Wire.size := 2;
                           Wire.hash := "ef"; Wire.added_time := 7 |}]>
      (Wire.shared_files Protocol.sharing_one_file).
Proof.
  apply (add_shared_file_stores (λ _, "ef"%string) 7 true "/srv/a.bin"
           [Byte.x41; Byte.x42] Protocol.sharing_one_file).
  - reflexivity.
  - discriminate.
  - intros old Hold. vm_compute in Hold. injection Hold as <-. discriminate.
Defined.

Lemma add_same_content_keeps_entry_witness :
  Wire.shared_files
    (Manager.add_shared_file (λ _, "cd"%string) 7 true "/tmp/a.bin"
       (Wire.set_disk (<["/tmp/a.bin"%string := [Byte.x41; Byte.x42]]>
                         (Wire.disk Protocol.sharing_one_file))
                      Protocol.sharing_one_file)).2
  = Wire.shared_files Protocol.sharing_one_file.
Proof.
  apply (add_same_content_keeps_entry (λ _, "cd"%string) 7 true "/tmp/a.bin"
           [Byte.x41; Byte.x42]
           {| Wire.path := "/srv/a.bin"; Wire.size := 2; Wire.hash := "cd";
              Wire.added_time := 0 |}
           (Wire.set_disk (<["/tmp/a.bin"%string := [Byte.x41; Byte.x42]]>
                             (Wire.disk Protocol.sharing_one_file))
                          Protocol.sharing_one_file)).
  - reflexivity.
  - discriminate.
  - reflexivity.
  - reflexivity.
Defined.

(** ** Reading from a connection, whatever it delivers *)

Section Reading.
Import PyJson Wire Network Protocol Session.

Lemma receive_exact_loop_any (fuel : nat) : ∀ (n : nat) (acc : bytes) (w : world),
  (length acc <= n)%nat → (n - length acc <= fuel)%nat →
  let r := receive_exact_loop fuel n acc w in
  ∃ cs,
    r.2 = set_socket (incoming r.2) (calls w ++ cs) w
    ∧ forallb is_recv cs = true
    ∧ stream_bytes (incoming w) = received cs ++ stream_bytes (incoming r.2)
    ∧ (length acc + length (received cs) <= n)%nat
    ∧ closes (incoming r.2) = closes (incoming w)
    ∧ match r.1 with
      | Ok (Some data) => data = acc ++ received cs ∧ length data = n
      | Ok None =>
          (length acc + length (received cs) < n)%nat
          ∧ stream_bytes (incoming r.2) = [] ∧ closes (incoming w) = true
      | Raise e =>
          e = BluetoothError ∧ (length acc + length (received cs) < n)%nat
          ∧ stream_bytes (incoming r.2) = [] ∧ closes (incoming w) = false
      end.
Proof.
  induction fuel as [|fuel IH]; intros n acc w Hacc Hfuel; cbn zeta.
  - cbn [receive_exact_loop].
    assert ((length acc <? n)%nat = false) as -> by (apply Nat.ltb_ge; lia).
    exists []. unfold mret, M_ret. cbn [fst snd received length].
    rewrite set_socket_same, !app_nil_r. split_and!; try done; try lia.
  - cbn [receive_exact_loop]. destruct (length acc <? n)%nat eqn:Hlt.
    2:{ apply Nat.ltb_ge in Hlt. exists []. unfold mret, M_ret.
        cbn [fst snd received length]. rewrite set_socket_same, !app_nil_r.
        split_and!; try done; try lia. }
    apply Nat.ltb_lt in Hlt. rewrite bind_unfold. unfold sock_recv.
    pose proof (recv_spec (n - length acc) (incoming w)) as Hr.
    destruct (recv (n - length acc) (incoming w)) as [[chunk st1]|].
    + destruct Hr as (Hb & Hc & Hl & He); [lia|].
      destruct chunk as [|c chunk].
      * destruct He as [He Hcl]; [done|].
        exists [Recv (n - length acc) []]. cbn. rewrite He in Hb. cbn in Hb.
        split_and!; try done; try lia. by rewrite He.
      * set (w1 := set_socket st1 (calls w ++ [Recv (n - length acc) (c :: chunk)]) w).
        destruct (IH n (acc ++ c :: chunk) w1) as (cs & Hw & Hall & Hsb & Hlen & Hcl & Hres).
        { rewrite length_app. lia. }
        { rewrite length_app. cbn [length] in *. lia. }
        exists (Recv (n - length acc) (c :: chunk) :: cs).
        rewrite length_app in Hlen. cbn [received]. rewrite length_app.
        split_and!.
        -- rewrite Hw at 1. unfold w1, set_socket. cbn. by rewrite <- app_assoc.
        -- done.
        -- rewrite Hb. cbn [w1 incoming set_socket] in Hsb. by rewrite Hsb, app_assoc.
        -- lia.
        -- rewrite Hcl. done.
        -- destruct (receive_exact_loop fuel n (acc ++ c :: chunk) w1).1 as [[data|]|e].
           ++ destruct Hres as [Hdata Hn]. by rewrite <- app_assoc in Hdata.
           ++ destruct Hres as (Hlt' & ? & Hclw). cbn [w1 incoming set_socket] in Hclw.
              rewrite length_app in Hlt'. split_and!; [lia|done|congruence].
           ++ destruct Hres as (? & Hlt' & ? & Hclw). cbn [w1 incoming set_socket] in Hclw.
              rewrite length_app in Hlt'. split_and!; [done|lia|done|congruence].
    + destruct Hr as [He Hcl]; [lia|].
      exists [Recv (n - length acc) []]. cbn. rewrite He.
      split_and!; try done; lia.
Qed.

(** [_receive_exact] never takes from the connection more than the bytes
    it was asked for, in whatever chunks they arrive and whatever follows
    them: it makes calls to [recv] only, what these received is the start
    of what the connection delivers and the rest stays there.  It returns
    the bytes when they are as many as asked for; it returns [None] only
    when the connection was closed before, and raises only when the
    connection broke before: what had arrived until then is lost. *)
Theorem receive_exact_never_overreads (n : nat) (w : world) :
  let r := _receive_exact n w in
  ∃ cs,
    r.2 = set_socket (incoming r.2) (calls w ++ cs) w
    ∧ forallb is_recv cs = true
    ∧ stream_bytes (incoming w) = received cs ++ stream_bytes (incoming r.2)
    ∧ (length (received cs) <= n)%nat
    ∧ match r.1 with
      | Ok (Some data) => data = received cs ∧ length data = n
      | Ok None =>
          (length (received cs) < n)%nat
          ∧ stream_bytes (incoming r.2) = [] ∧ closes (incoming w) = true
      | Raise e =>
          e = BluetoothError ∧ (length (received cs) < n)%nat
          ∧ stream_bytes (incoming r.2) = [] ∧ closes (incoming w) = false
      end.
Proof.
  intros r. unfold r, _receive_exact.
  destruct (receive_exact_loop_any n n [] w) as (cs & H1 & H2 & H3 & H4 & _ & H6);
    [cbn; lia|cbn; lia|].
  exists cs. cbn [length app] in *. split_and!; try done.
Qed.

End Reading.

(** ** Requests and their answers *)

Section Exchanges.
Import PyJson Wire Network Protocol Session.

Variable sha256_hex : bytes → string.

Lemma frame_of_spec (v : json) :
  Z.of_nat (length (encode_utf8 (dumps v))) < 4294967296 →
  ∃ prefix, frame_of v = prefix ++ encode_utf8 (dumps v)
            ∧ to_bytes4 (Z.of_nat (length (encode_utf8 (dumps v)))) = Some prefix
            ∧ length prefix = 4%nat
            ∧ from_bytes prefix = Z.of_nat (length (encode_utf8 (dumps v))).
Proof.
  intros Hlen.
  destruct (from_bytes_to_bytes4 (Z.of_nat (length (encode_utf8 (dumps v)))))
    as (prefix & Hp & Hf); [lia|].
  exists prefix. unfold frame_of. rewrite Hp. split_and!; auto.
  by eapply to_bytes4_length.
Qed.

Lemma frame_of_message (m : Message) : frame m = frame_of (to_json m).
Proof. reflexivity. Qed.

Lemma send_message_frame (v : json) (w : world) :
  Z.of_nat (length (encode_utf8 (dumps v))) < 4294967296 →
  ∃ cs, _send_message v w = (Ok true, set_socket (incoming w) (calls w ++ cs) w)
        ∧ sent cs = frame_of v ∧ received cs = [].
Proof.
  intros Hlen. destruct (frame_of_spec v Hlen) as (prefix & Hfr & Hp & _ & _).
  destruct (send_message_spec v w Hlen) as (prefix' & Hp' & _ & _ & Hs).
  rewrite Hp in Hp'. injection Hp' as <-.
  exists [Send prefix; Send (encode_utf8 (dumps v))]. split_and!.
  - exact Hs.
  - cbn [sent]. by rewrite app_nil_r, Hfr.
  - done.
Qed.

Lemma receive_message_frame (v : json) (w : world) (more : bytes) :
  well_formed v = true →
  Z.of_nat (length (encode_utf8 (dumps v))) <= 1048576 →
  stream_bytes (incoming w) = frame_of v ++ more →
  ∃ st' cs',
    _receive_message w = (Ok (Some v), set_socket st' (calls w ++ cs') w)
    ∧ stream_bytes st' = more
    ∧ closes st' = closes (incoming w)
    ∧ received cs' = frame_of v
    ∧ sent cs' = []
    ∧ forallb is_recv cs' = true.
Proof.
  intros Hwf Hlen Hst.
  destruct (frame_of_spec v) as (prefix & Hfr & _ & Hp & Hf); [lia|].
  rewrite Hfr, <- app_assoc in Hst.
  destruct (receive_exact_ok 4 w prefix (encode_utf8 (dumps v) ++ more) Hst Hp)
    as (st1 & cs1 & Hr1 & Hs1 & Hc1 & Hrc1 & Hsn1 & Hall1).
  set (w1 := set_socket st1 (calls w ++ cs1) w) in *.
  destruct (receive_exact_ok (length (encode_utf8 (dumps v))) w1
              (encode_utf8 (dumps v)) more)
    as (st2 & cs2 & Hr2 & Hs2 & Hc2 & Hrc2 & Hsn2 & Hall2); [done|done|].
  exists st2, (cs1 ++ cs2).
  unfold _receive_message, try_except, mbind, M_bind. rewrite Hr1.
  destruct prefix as [|p0 prefix]; [done|].
  rewrite Hf.
  assert ((1048576 <? Z.of_nat (length (encode_utf8 (dumps v)))) = false) as -> by lia.
  rewrite Nat2Z.id, Hr2.
  pose proof (payload_nonempty v) as Hne.
  destruct (encode_utf8 (dumps v)) as [|d0 data'] eqn:Hd; [done|]. rewrite <- Hd in *.
  rewrite decode_message_dumps by done.
  unfold mret, M_ret. split_and!.
  - f_equal. unfold w1, set_socket. cbn. by rewrite <- app_assoc.
  - done.
  - by rewrite Hc2.
  - by rewrite received_app, Hrc1, Hrc2, Hfr.
  - by rewrite sent_app, Hsn1, Hsn2.
  - by rewrite forallb_app, Hall1, Hall2.
Qed.

(** On a connection that was closed without a byte, [_receive_message]
    returns [None]. *)
Lemma receive_message_closed (w : world) :
  stream_bytes (incoming w) = [] → closes (incoming w) = true →
  ∃ st' cs', _receive_message w = (Ok None, set_socket st' (calls w ++ cs') w)
             ∧ sent cs' = [] ∧ received cs' = [].
Proof.
  intros Hst Hcl.
  destruct (receive_exact_loop_any 4 4 [] w) as (cs & Hw & Hall & Hsb & Hlen & _ & Hres);
    [cbn; lia|cbn; lia|].
  rewrite Hst in Hsb. symmetry in Hsb. apply app_eq_nil in Hsb as [Hrc _].
  unfold _receive_message, try_except. rewrite bind_unfold. unfold _receive_exact.
  destruct (receive_exact_loop 4 4 [] w) as [[[data|]|e] w1]; cbn [fst snd] in *.
  - destruct Hres as [-> Hn]. rewrite Hrc in Hn. cbn in Hn. lia.
  - exists (incoming w1), cs. rewrite <- Hw. split_and!; [done| |done].
    by apply only_recv_sent.
  - destruct Hres as (_ & _ & _ & Hbr). congruence.
Qed.

(** *** Ping *)

Lemma received_exchange (peer : string) (port : Z) (cs1 cs3 : list call) :
  received cs1 = [] →
  received ([Connect peer port] ++ cs1 ++ cs3 ++ [Close]) = received cs3.
Proof. intros H. rewrite !received_app, H. cbn. by rewrite app_nil_r. Qed.

Lemma sent_exchange (peer : string) (port : Z) (cs1 cs3 : list call) :
  sent cs3 = [] →
  sent ([Connect peer port] ++ cs1 ++ cs3 ++ [Close]) = sent cs1.
Proof. intros H. rewrite !sent_app, H. cbn. by rewrite app_nil_r. Qed.

Lemma ping_peer_answer (v : json) (peer : string) (port : Z) (rest : list Z)
    (w : world) (more : bytes) :
  well_formed v = true →
  Z.of_nat (length (encode_utf8 (dumps v))) <= 1048576 →
  stream_bytes (incoming w) = frame_of v ++ more →
  ∃ st' cs,
    ping_peer peer (Some (port :: rest)) w
    = (Ok (if truthy v then
             match v with
             | JObj d => JBool (is_str (dict_lookup "type" d) "pong")
             | _ => JBool false
             end
           else v), set_socket st' (calls w ++ cs) w)
    ∧ sent cs = frame Ping ∧ received cs = frame_of v
    ∧ stream_bytes st' = more ∧ last cs = Some Close.
Proof.
  intros Hwf Hlen Hst. unfold ping_peer.
  erewrite try_except_bind_ok by reflexivity.
  set (w1 := set_socket (incoming w) (calls w ++ [Connect peer port]) w).
  destruct (send_message_frame (to_json Ping) w1) as (cs1 & Hs & Hsent1 & Hrc1);
    [vm_compute; reflexivity|].
  change (JObj [("type"%string, JStr "ping")]) with (to_json Ping).
  erewrite try_except_bind_ok by exact Hs. cbn [negb].
  set (w2 := set_socket (incoming w1) (calls w1 ++ cs1) w1) in *.
  destruct (receive_message_frame v w2 more Hwf Hlen Hst)
    as (st3 & cs3 & Hr & Hs3 & _ & Hrc3 & Hsn3 & _).
  erewrite try_except_bind_ok by exact Hr.
  erewrite try_except_bind_ok by reflexivity.
  exists st3, ([Connect peer port] ++ cs1 ++ cs3 ++ [Close]).
  assert (set_socket st3 (calls w ++ [Connect peer port] ++ cs1 ++ cs3 ++ [Close]) w
          = set_socket (incoming (set_socket st3 (calls w2 ++ cs3) w2))
              (calls (set_socket st3 (calls w2 ++ cs3) w2) ++ [Close])
              (set_socket st3 (calls w2 ++ cs3) w2)) as Hw.
  { unfold w2, w1, set_socket. cbn. by rewrite <- !app_assoc. }
  rewrite Hw. split_and!.
  - unfold try_except. destruct (truthy v); cbn [negb]; [|reflexivity].
    destruct v as [ | | | | |d]; reflexivity.
  - rewrite sent_exchange by done. exact Hsent1.
  - rewrite received_exchange by done. exact Hrc3.
  - done.
  - rewrite !app_assoc. apply last_snoc.
Qed.



(** *** The list of files *)

Lemma file_entries_well_formed (d : gmap string bytes)
    (items : list (string * file_info)) :
  forallb well_formed (map (file_entry sha256_hex d) items) = true.
Proof. induction items as [|kv items IH]; [done|]. cbn. exact IH. Qed.

Lemma file_list_response_well_formed (files : list json) :
  forallb well_formed files = true →
  well_formed (JObj [("type"%string, JStr "file_list_response");
                     ("files"%string, JArr files)]) = true.
Proof.
  intros H. cbn [well_formed map fst snd distinct existsb forallb negb
                   String.eqb Ascii.eqb Bool.eqb andb orb].
  by rewrite H.
Qed.

(** The answer of the server to a request for the list of files *)
Lemma file_list_answer (ws : world) :
  let response :=
    JObj [("type"%string, JStr "file_list_response");
          ("files"%string,
           JArr (map (file_entry sha256_hex (disk ws))
                     (map_to_list (kept_files ws))))] in
  Z.of_nat (length (encode_utf8 (dumps response))) <= 1048576 →
  ∃ cs, calls (snd (_process_message sha256_hex (to_json FileListRequest) ws))
        = calls ws ++ cs
        ∧ fst (_process_message sha256_hex (to_json FileListRequest) ws) = Ok ()
        ∧ sent cs = frame_of response.
Proof.
  intros response Hlen.
  unfold _process_message. erewrite bind_ok by reflexivity.
  cbn [dict_lookup to_json is_str String.eqb Ascii.eqb Bool.eqb].
  unfold _handle_file_list_request.
  erewrite bind_ok by apply get_shared_files_spec.
  set (w1 := set_catalog (kept_files ws) _ ws).
  erewrite bind_ok.
  2:{ apply (file_list_loop_spec sha256_hex (map_to_list (kept_files ws)) [] w1).
      intros k info Hin. apply elem_of_map_to_list in Hin. cbn. split; [done|].
      apply map_lookup_filter_Some in Hin as [_ Hp]. cbn in Hp.
      unfold on_disk in Hp. by apply bool_decide_eq_true_1 in Hp. }
  cbn [app]. change (disk w1) with (disk ws). fold response.
  destruct (send_message_frame response w1) as (cs & Hs & Hsent & _); [lia|].
  erewrite bind_ok by exact Hs. exists cs. by split_and!.
Qed.

(** [get_peer_files] on a connection that delivers a dict that is not
    empty *)
Lemma get_peer_files_dict (d : list (string * json)) (peer : string) (port : Z)
    (rest : list Z) (wc : world) (more : bytes) :
  well_formed (JObj d) = true → truthy (JObj d) = true →
  Z.of_nat (length (encode_utf8 (dumps (JObj d)))) <= 1048576 →
  stream_bytes (incoming wc) = frame_of (JObj d) ++ more →
  ∃ st' cs, get_peer_files peer (Some (port :: rest)) wc
            = (Ok (if is_str (dict_lookup "type" d) "file_list_response"
                   then Some (default (JArr []) (dict_lookup "files" d))
                   else None),
               set_socket st' (calls wc ++ cs) wc)
            ∧ sent cs = frame FileListRequest
            ∧ received cs = frame_of (JObj d)
            ∧ stream_bytes st' = more ∧ last cs = Some Close.
Proof.
  intros Hwf Htr Hlen Hst.
  unfold get_peer_files.
  erewrite try_except_bind_ok by reflexivity.
  set (w1 := set_socket (incoming wc) (calls wc ++ [Connect peer port]) wc).
  destruct (send_message_frame (to_json FileListRequest) w1)
    as (cs1 & Hs & Hsent1 & Hrc1); [vm_compute; reflexivity|].
  change (JObj [("type"%string, JStr "file_list_request")])
    with (to_json FileListRequest).
  erewrite try_except_bind_ok by exact Hs. cbn [negb].
  set (w2 := set_socket (incoming w1) (calls w1 ++ cs1) w1) in *.
  destruct (receive_message_frame (JObj d) w2 more Hwf Hlen Hst)
    as (st3 & cs3 & Hr & Hs3 & _ & Hrc3 & Hsn3 & _).
  erewrite try_except_bind_ok by exact Hr.
  erewrite try_except_bind_ok by reflexivity.
  rewrite Htr. cbn [negb].
  exists st3, ([Connect peer port] ++ cs1 ++ cs3 ++ [Close]).
  assert (set_socket st3 (calls wc ++ [Connect peer port] ++ cs1 ++ cs3 ++ [Close]) wc
          = set_socket (incoming (set_socket st3 (calls w2 ++ cs3) w2))
              (calls (set_socket st3 (calls w2 ++ cs3) w2) ++ [Close])
              (set_socket st3 (calls w2 ++ cs3) w2)) as Hw.
  { unfold w2, w1, set_socket. cbn. by rewrite <- !app_assoc. }
  rewrite Hw. split_and!.
  - unfold try_except, py_get. rewrite bind_unfold. unfold mret, M_ret.
    by destruct (is_str (dict_lookup "type" d) "file_list_response").
  - rewrite sent_exchange by done. exact Hsent1.
  - rewrite received_exchange by done. exact Hrc3.
  - done.
  - rewrite !app_assoc. apply last_snoc.
Qed.

(** The server answers a request for the list of files with the names, the
    sizes and the hashes of the files of its catalog that are on disk; and
    [get_peer_files], on a connection that delivers the frame of this
    answer in whatever chunks, sends the frame of the request, reads the
    answer and nothing of what follows, and returns exactly this list. *)
Theorem file_list_round_trip (ws wc : world) (peer : string) (port : Z)
    (rest : list Z) (more : bytes) :
  let entries := map (file_entry sha256_hex (disk ws)) (map_to_list (kept_files ws)) in
  let response := JObj [("type"%string, JStr "file_list_response");
                        ("files"%string, JArr entries)] in
  Z.of_nat (length (encode_utf8 (dumps response))) <= 1048576 →
  stream_bytes (incoming wc) = frame_of response ++ more →
  (∃ cs, calls (snd (_process_message sha256_hex (to_json FileListRequest) ws))
         = calls ws ++ cs
         ∧ fst (_process_message sha256_hex (to_json FileListRequest) ws) = Ok ()
         ∧ sent cs = frame_of response)
  ∧ (∃ st' cs, get_peer_files peer (Some (port :: rest)) wc
               = (Ok (Some (JArr entries)), set_socket st' (calls wc ++ cs) wc)
               ∧ sent cs = frame FileListRequest
               ∧ received cs = frame_of response
               ∧ stream_bytes st' = more ∧ last cs = Some Close).
Proof.
  intros entries response Hlen Hst. split.
  - apply file_list_answer. exact Hlen.
  - apply (get_peer_files_dict [("type"%string, JStr "file_list_response");
                                 ("files"%string, JArr entries)]);
      [|reflexivity|exact Hlen|exact Hst].
    apply file_list_response_well_formed, file_entries_well_formed.
Qed.

End Exchanges.


Lemma file_list_round_trip_witness :
  fst (Network.get_peer_files "AA:BB" (Some [1])
         (Protocol.world_of
            (Wire.Chunk
               (Session.frame_of
                  (PyJson.JObj
                     [("type"%string, PyJson.JStr "file_list_response");
                      ("files"%string,
                       PyJson.JArr
                         (map (Network.file_entry (λ _, "cd"%string)
                                 (Wire.disk Protocol.sharing_one_file))
                              (map_to_list
                                 (Network.kept_files Protocol.sharing_one_file))))]))
               Wire.Closed)))
  = Wire.Ok
      (Some (PyJson.JArr
               (map (Network.file_entry (λ _, "cd"%string)
                       (Wire.disk Protocol.sharing_one_file))
                    (map_to_list (Network.kept_files Protocol.sharing_one_file))))).
Proof.
  destruct (file_list_round_trip (λ _, "cd"%string) Protocol.sharing_one_file
              (Protocol.world_of
                 (Wire.Chunk
                    (Session.frame_of
                       (PyJson.JObj
                          [("type"%string, PyJson.JStr "file_list_response");
                           ("files"%string,
                            PyJson.JArr
                              (map (Network.file_entry (λ _, "cd"%string)
                                      (Wire.disk Protocol.sharing_one_file))
                                   (map_to_list
                                      (Network.kept_files
                                         Protocol.sharing_one_file))))]))
                    Wire.Closed))
              "AA:BB" 1 [] [])
    as (_ & (st' & cs & Hr & _)).
  - vm_compute. discriminate.
  - cbn [Protocol.world_of Wire.incoming Wire.stream_bytes]. reflexivity.
  - by rewrite Hr.
Defined.


(** ** The outcome of a lookup that finds no service *)

Section LookupOutcome.
Import PyJson Wire Network Protocol Session.

(** On a connection that the peer closes without an answer,
    [get_peer_files] returns [None] and logs nothing. *)
Lemma get_peer_files_closed (peer : string) (port : Z) (rest : list Z) (w : world) :
  stream_bytes (incoming w) = [] → closes (incoming w) = true →
  ∃ st' cs, get_peer_files peer (Some (port :: rest)) w
            = (Ok None, set_socket st' (calls w ++ cs) w).
Proof.
  intros Hnil Hcl. unfold get_peer_files.
  erewrite try_except_bind_ok by reflexivity.
  set (w1 := set_socket (incoming w) (calls w ++ [Connect peer port]) w).
  destruct (send_message_frame (to_json FileListRequest) w1) as (cs1 & Hs & _ & _);
    [vm_compute; reflexivity|].
  change (JObj [("type"%string, JStr "file_list_request")])
    with (to_json FileListRequest).
  erewrite try_except_bind_ok by exact Hs. cbn [negb].
  set (w2 := set_socket (incoming w1) (calls w1 ++ cs1) w1) in *.
  destruct (receive_message_closed w2) as (st' & cs' & Hr & _); [done|done|].
  erewrite try_except_bind_ok by exact Hr.
  erewrite try_except_bind_ok by reflexivity.
  exists st', ([Connect peer port] ++ cs1 ++ cs' ++ [Close]).
  unfold try_except, mret, M_ret. f_equal.
  unfold w2, w1, set_socket. cbn. by rewrite <- !app_assoc.
Qed.


End LookupOutcome.



(** ** Downloads that do not go well *)

Section Downloads.
Import PyJson Wire Network Protocol Session.

Variable sha256_hex : bytes → string.

(** [request_file] up to the response: it connects, sends the request and
    reads the frame of the response. *)
Lemma request_file_response (v : json) (peer filename save : string) (port : Z)
    (rest : list Z) (w : world) (tail : bytes) :
  well_formed v = true → truthy v = true →
  Z.of_nat (length (payload (FileRequest filename))) < 4294967296 →
  Z.of_nat (length (encode_utf8 (dumps v))) <= 1048576 →
  stream_bytes (incoming w) = frame_of v ++ tail →
  ∃ st2 cs2,
    request_file peer filename save (Some (port :: rest)) w
    = try_except
        (success ← py_get v "success";
         if not_value success then
           error ← py_get v "error";
           _log (LogFileRequestFailed (default (JStr "Unknown error") error));;
           sock_close;;
           mret false
         else save_file peer filename save v)
        (download_failed peer filename)
        (set_socket st2 (calls w ++ cs2) w)
    ∧ stream_bytes st2 = tail
    ∧ closes st2 = closes (incoming w)
    ∧ received cs2 = frame_of v
    ∧ sent cs2 = frame (FileRequest filename)
    ∧ Close ∉ cs2.
Proof.
  intros Hwf Htr Hreq Hlen Hst. unfold request_file.
  erewrite try_except_bind_ok by reflexivity.
  set (w1 := set_socket (incoming w) (calls w ++ [Connect peer port]) w).
  destruct (send_message_spec (to_json (FileRequest filename)) w1)
    as (rprefix & Hrp & _ & _ & Hs); [exact Hreq|].
  change (JObj [("type"%string, JStr "file_request");
                ("filename"%string, JStr filename)])
    with (to_json (FileRequest filename)).
  erewrite try_except_bind_ok by exact Hs. cbn [negb].
  set (w2 := set_socket (incoming w1)
               (calls w1 ++ [Send rprefix;
                             Send (encode_utf8 (dumps (to_json (FileRequest filename))))])
               w1) in *.
  destruct (receive_message_frame v w2 tail Hwf Hlen Hst)
    as (st3 & cs3 & Hr & Hs3 & Hc3 & Hrc3 & Hsn3 & Hall3).
  erewrite try_except_bind_ok by exact Hr.
  cbv iota beta. rewrite Htr. cbn [negb].
  exists st3, ([Connect peer port; Send rprefix;
                Send (encode_utf8 (dumps (to_json (FileRequest filename))))] ++ cs3).
  split_and!.
  - f_equal. unfold w2, w1, set_socket. cbn. by rewrite <- !app_assoc.
  - done.
  - by rewrite Hc3.
  - cbn [app received]. by rewrite Hrc3.
  - cbn [app sent]. rewrite Hsn3, app_nil_r. unfold frame, payload. by rewrite Hrp.
  - intros Hin. cbn [app] in Hin.
    repeat (apply elem_of_cons in Hin as [Hin|Hin]; [discriminate Hin|]).
    rewrite forallb_forall in Hall3. apply list_elem_of_In, Hall3 in Hin.
    discriminate Hin.
Qed.

(** When the response says that the request failed, [request_file] logs
    the error of the response ([Unknown error] when it has none), closes
    the connection and returns [False]; it has read the response and
    nothing of what follows, and it has touched no file: the destination is
    not created.  This is how a request ends for a file that is in the
    catalog of the server and gone from its disk, which the server answers
    with [File not found]. *)
Theorem refused_request_writes_no_file (ws wc : world) (name peer filename save : string)
    (info : file_info) (port : Z) (rest : list Z) (fn : option string)
    (sz : option Z) (err : option string) (tail : bytes) :
  let m := FileResponse false fn sz err in
  Z.of_nat (length (payload (FileRequest filename))) < 4294967296 →
  Z.of_nat (length (payload m)) <= 1048576 →
  stream_bytes (incoming wc) = frame m ++ tail →
  (∃ st' cs,
     request_file peer filename save (Some (port :: rest)) wc
     = (Ok false,
        set_socket st' (calls wc ++ cs ++ [Close])
          (add_log (LogFileRequestFailed
                      (JStr (default "Unknown error"%string err))) wc))
     ∧ stream_bytes st' = tail
     ∧ received cs = frame m
     ∧ disk (snd (request_file peer filename save (Some (port :: rest)) wc))
       = disk wc)
  ∧ (shared_files ws !! name = Some info → disk ws !! path info = None →
     name ≠ EmptyString →
     ∃ cs, _process_message sha256_hex (to_json (FileRequest name)) ws
           = (Ok (), set_socket (incoming ws) (calls ws ++ cs) ws)
           ∧ sent cs
             = frame (FileResponse false None None (Some "File not found"%string))).
Proof.
  intros m Hreq Hlen Hst. split.
  - destruct (request_file_response (to_json m) peer filename save port rest wc tail)
      as (st2 & cs2 & Hrun & Hs2 & _ & Hrc2 & _ & _).
    { apply to_json_well_formed. }
    { by destruct fn, sz, err. }
    { exact Hreq. }
    { exact Hlen. }
    { rewrite <- frame_of_message. exact Hst. }
    assert (request_file peer filename save (Some (port :: rest)) wc
            = (Ok false,
               set_socket st2 (calls wc ++ cs2 ++ [Close])
                 (add_log (LogFileRequestFailed
                             (JStr (default "Unknown error"%string err))) wc)))
      as Hres.
    { rewrite Hrun. unfold try_except, mbind, M_bind.
      destruct fn, sz, err; cbn; unfold set_socket, add_log; cbn;
        by rewrite <- !app_assoc. }
    exists st2, cs2. rewrite Hres.
    split_and!; [reflexivity|exact Hs2|rewrite frame_of_message; exact Hrc2|reflexivity].
  - intros Hcat Hdisk Hne.
    destruct (send_message_frame
                (to_json (FileResponse false None None (Some "File not found"%string)))
                ws) as (cs & Hs & Hsent & _); [vm_compute; reflexivity|].
    exists cs. split; [|exact Hsent].
    cbn [to_json].
    erewrite (file_request_missing_file sha256_hex _ name info ws);
      [|reflexivity|reflexivity|done|done|done].
    erewrite bind_ok by exact Hs. reflexivity.
Qed.

(** A response that says [success] and declares no size is taken to declare
    the size 0: [request_file] creates the destination (or empties it),
    reads nothing of what follows the response, signals the file as
    received and returns [True]. *)
Theorem sizeless_response_saves_empty_file (wc : world) (peer filename save : string)
    (port : Z) (rest : list Z) (fn : option string) (err : option string)
    (tail : bytes) :
  let m := FileResponse true fn None err in
  Z.of_nat (length (payload (FileRequest filename))) < 4294967296 →
  Z.of_nat (length (payload m)) <= 1048576 →
  stream_bytes (incoming wc) = frame m ++ tail →
  ∃ st' cs,
    request_file peer filename save (Some (port :: rest)) wc
    = (Ok true, add_event (on_file_received filename peer)
                  (file_saved save [] st' cs wc))
    ∧ stream_bytes st' = tail
    ∧ received cs = frame m
    ∧ disk (snd (request_file peer filename save (Some (port :: rest)) wc)) !! save
      = Some [].
Proof.
  intros m Hreq Hlen Hst.
  destruct (request_file_response (to_json m) peer filename save port rest wc tail)
    as (st2 & cs2 & Hrun & Hs2 & _ & Hrc2 & _ & _).
  { apply to_json_well_formed. }
  { by destruct fn, err. }
  { exact Hreq. }
  { exact Hlen. }
  { rewrite <- frame_of_message. exact Hst. }
  assert (request_file peer filename save (Some (port :: rest)) wc
          = (Ok true, add_event (on_file_received filename peer)
                        (file_saved save [] st2 cs2 wc))) as Hres.
  { rewrite Hrun. unfold try_except.
    destruct fn, err;
      repeat (progress (unfold mbind, M_bind, mret, M_ret; cbn));
      change (Z.to_nat 0) with 0%nat;
      repeat (progress (unfold mbind, M_bind, mret, M_ret; cbn));
      unfold file_saved, add_event, set_disk, set_socket; cbn;
      by rewrite <- !app_assoc. }
  exists st2, cs2. rewrite Hres.
  split_and!; [reflexivity|exact Hs2|rewrite frame_of_message; exact Hrc2|].
  cbn. apply lookup_insert_eq.
Qed.

(** When the connection breaks after delivering fewer bytes than the
    response declared, [request_file] logs a Bluetooth error and returns
    [False]; the destination file stays on disk and holds the bytes that
    were received. *)
Theorem broken_transfer_reported (wc : world) (peer filename save : string)
    (port : Z) (rest : list Z) (fn : option string) (N : Z) (err : option string)
    (data : bytes) :
  let m := FileResponse true fn (Some N) err in
  Z.of_nat (length (payload (FileRequest filename))) < 4294967296 →
  Z.of_nat (length (payload m)) <= 1048576 →
  stream_bytes (incoming wc) = frame m ++ data →
  closes (incoming wc) = false →
  Z.of_nat (length data) < N →
  ∃ st' cs',
    request_file peer filename save (Some (port :: rest)) wc
    = (Ok false, add_log (LogBluetoothDownloading filename)
                   (set_disk (<[save := data]> (disk wc))
                      (set_socket st' (calls wc ++ cs') wc)))
    ∧ received cs' = frame m ++ data
    ∧ disk (snd (request_file peer filename save (Some (port :: rest)) wc)) !! save
      = Some data.
Proof.
  intros m Hreq Hlen Hst Hcl Hshort.
  destruct (fetch_outcome peer filename save port rest fn N err wc data Hreq Hlen Hst)
    as (got & st' & ch & cf & Htail & Hcl' & Hrh & _ & Hrf & _ & Hbound & Hres).
  assert (Z.of_nat (length got) <= Z.of_nat (length data)) as Hle.
  { apply (f_equal length) in Htail. rewrite length_app in Htail. lia. }
  destruct Hres as [[Hn Hres]|[(Hn & Hres & Hend)|(Hn & Hres & Hnil & Hbr)]].
  - lia.
  - destruct Hend as [_ Hend]; [lia|]. congruence.
  - rewrite Hnil, app_nil_r in Htail. subst got.
    exists st', (ch ++ cf). rewrite Hres. split_and!.
    + done.
    + by rewrite received_app, Hrh, Hrf.
    + cbn. apply lookup_insert_eq.
Qed.

End Downloads.

Lemma refused_request_writes_no_file_witness :
  Wire.disk
    (snd (Network.request_file "AA:BB" "gone.txt" "/tmp/out.bin" (Some [1])
            (Protocol.delivery
               (Protocol.FileResponse false None None (Some "File not found"%string))
               [])))
  = Wire.disk
      (Protocol.delivery
         (Protocol.FileResponse false None None (Some "File not found"%string)) []).
Proof.
  destruct (refused_request_writes_no_file (λ _, EmptyString) Protocol.stale_catalog
              (Protocol.delivery
                 (Protocol.FileResponse false None None
                    (Some "File not found"%string)) [])
              "gone.txt" "AA:BB" "gone.txt" "/tmp/out.bin"
              {| Wire.path := "/tmp/gone.txt"; Wire.size := 3; Wire.hash := "ab";
                 Wire.added_time := 0 |}
              1 [] None None (Some "File not found"%string) [])
    as ((st' & cs & _ & _ & _ & Hd) & _).
  - vm_compute. reflexivity.
  - vm_compute. discriminate.
  - reflexivity.
  - exact Hd.
Defined.

Lemma sizeless_response_saves_empty_file_witness :
  Wire.disk
    (snd (Network.request_file "AA:BB" "a.bin" "/tmp/out.bin" (Some [1])
            (Protocol.delivery (Protocol.FileResponse true None None None)
                               [Byte.x41])))
    !! "/tmp/out.bin"%string
  = Some [].
Proof.
  destruct (sizeless_response_saves_empty_file
              (Protocol.delivery (Protocol.FileResponse true None None None)
                                 [Byte.x41])
              "AA:BB" "a.bin" "/tmp/out.bin" 1 [] None None [Byte.x41])
    as (st' & cs & _ & _ & _ & Hd).
  - vm_compute. reflexivity.
  - vm_compute. discriminate.
  - reflexivity.
  - exact Hd.
Defined.

Lemma broken_transfer_reported_witness :
  Wire.disk
    (snd (Network.request_file "AA:BB" "a.bin" "/tmp/out.bin" (Some [1])
            (Protocol.world_of
               (Wire.Chunk (Protocol.frame Protocol.short_response ++ [Byte.x41])
                           Wire.Broken))))
    !! "/tmp/out.bin"%string
  = Some [Byte.x41].
Proof.
  destruct (broken_transfer_reported
              (Protocol.world_of
                 (Wire.Chunk (Protocol.frame Protocol.short_response ++ [Byte.x41])
                             Wire.Broken))
              "AA:BB" "a.bin" "/tmp/out.bin" 1 [] (Some "a.bin"%string) 2 None
              [Byte.x41])
    as (st' & cs & _ & _ & Hd).
  - vm_compute. reflexivity.
  - vm_compute. discriminate.
  - cbn [Protocol.world_of Wire.incoming Wire.stream_bytes]. by rewrite app_nil_r.
  - reflexivity.
  - reflexivity.
  - exact Hd.
Defined.

(** ** What the server and the client leave untouched *)

Section Untouched.
Import PyJson Wire Network Protocol Session.

Variable sha256_hex : bytes → string.

(** *** The server only reads *)

Lemma read_only_same {A} (m : M A) :
  (∀ w, disk (snd (m w)) = disk w ∧ shared_files (snd (m w)) = shared_files w
        ∧ saved_db (snd (m w)) = saved_db w
        ∧ (∃ cs, calls (snd (m w)) = calls w ++ cs)
        ∧ events (snd (m w)) = events w
        ∧ connections (snd (m w)) = connections w) →
  read_only m.
Proof.
  intros H w. destruct (H w) as (H1 & H2 & H3 & H4 & H5 & H6).
  split_and!; auto. by rewrite H2.
Qed.

Lemma read_only_pure {A} (m : M A) : (∀ w, snd (m w) = w) → read_only m.
Proof.
  intros H. apply read_only_same. intros w. rewrite H. split_and!; try done.
  exists []. by rewrite app_nil_r.
Qed.

Lemma read_only_bind {A B} (m : M A) (f : A → M B) :
  read_only m → (∀ a, read_only (f a)) → read_only (m ≫= f).
Proof.
  intros Hm Hf w. rewrite bind_unfold.
  destruct (Hm w) as (H1 & H2 & H3 & [cs H4] & H5 & H6).
  destruct (m w) as [[a|e] w1]; cbn [fst snd] in *; [|by eauto 10].
  destruct (Hf a w1) as (G1 & G2 & G3 & [cs' G4] & G5 & G6).
  split_and!.
  - congruence.
  - by etrans.
  - destruct G3 as [[G3 G3']|G3]; [|by right].
    destruct H3 as [[H3 H3']|H3]; [left; split; congruence|right; congruence].
  - exists (cs ++ cs'). by rewrite G4, H4, app_assoc.
  - congruence.
  - congruence.
Qed.

Lemma read_only_try_except {A} (m : M A) (h : exn → M A) :
  read_only m → (∀ e, read_only (h e)) → read_only (try_except m h).
Proof.
  intros Hm Hh w. unfold try_except.
  destruct (Hm w) as (H1 & H2 & H3 & [cs H4] & H5 & H6).
  destruct (m w) as [[a|e] w1]; cbn [fst snd] in *; [by eauto 10|].
  destruct (Hh e w1) as (G1 & G2 & G3 & [cs' G4] & G5 & G6).
  split_and!.
  - congruence.
  - by etrans.
  - destruct G3 as [[G3 G3']|G3]; [|by right].
    destruct H3 as [[H3 H3']|H3]; [left; split; congruence|right; congruence].
  - exists (cs ++ cs'). by rewrite G4, H4, app_assoc.
  - congruence.
  - congruence.
Qed.

Lemma read_only_ret {A} (a : A) : read_only (mret a).
Proof. by apply read_only_pure. Qed.

Lemma read_only_raise {A} (e : exn) : read_only (raise (A := A) e).
Proof. by apply read_only_pure. Qed.

Lemma read_only_log (l : log_entry) : read_only (_log l).
Proof.
  apply read_only_same. intros w. cbn. split_and!; try done.
  exists []. by rewrite app_nil_r.
Qed.

Lemma read_only_recv (n : nat) : read_only (sock_recv n).
Proof.
  apply read_only_same. intros w. unfold sock_recv.
  destruct (recv n (incoming w)) as [[c st]|]; cbn; split_and!; eauto.
Qed.

Lemma read_only_send (data : bytes) : read_only (sock_send data).
Proof. apply read_only_same. intros w. cbn. split_and!; eauto. Qed.

Lemma read_only_close : read_only sock_close.
Proof. apply read_only_same. intros w. cbn. split_and!; eauto. Qed.

Lemma read_only_exists (p : option string) : read_only (os_path_exists p).
Proof. apply read_only_pure. intros w. by destruct p. Qed.

Lemma read_only_getsize (p : string) : read_only (os_path_getsize p).
Proof.
  apply read_only_pure. intros w. unfold os_path_getsize. by destruct (disk w !! p).
Qed.

Lemma read_only_file_hash (p : string) : read_only (_get_file_hash sha256_hex p).
Proof.
  apply read_only_pure. intros w. unfold _get_file_hash. by destruct (disk w !! p).
Qed.

Lemma read_only_get_file_path (v : json) : read_only (get_file_path v).
Proof. apply read_only_pure. intros w. by destruct v. Qed.

Lemma read_only_py_get (v : json) (k : string) : read_only (py_get v k).
Proof. destruct v; try apply (read_only_raise AttributeError). apply read_only_ret. Qed.

Lemma read_only_get_shared_files : read_only get_shared_files.
Proof.
  intros w. rewrite get_shared_files_spec. cbn [fst snd disk shared_files saved_db
    calls events connections set_catalog].
  split_and!; try done.
  - apply map_filter_subseteq.
  - destruct (bool_decide_reflect (kept_files w = shared_files w)) as [Heq|_];
      [by left|by right].
  - exists []. by rewrite app_nil_r.
Qed.

Create HintDb read_only discriminated.

Hint Resolve read_only_ret read_only_raise read_only_log read_only_recv
  read_only_send read_only_close read_only_exists read_only_getsize
  read_only_file_hash read_only_get_file_path read_only_py_get
  read_only_get_shared_files : read_only.

Ltac read_only_step :=
  first [ apply read_only_bind; [|intros ?]
        | apply read_only_try_except; [|intros ?]
        | solve [auto with read_only] ].

Lemma read_only_receive_exact (n : nat) : read_only (_receive_exact n).
Proof.
  unfold _receive_exact. generalize (@nil Byte.byte). generalize n at 1 as fuel.
  intros fuel. induction fuel as [|fuel IH]; intros acc; cbn [receive_exact_loop];
    destruct (length acc <? n)%nat; try apply read_only_ret.
  apply read_only_bind; [apply read_only_recv|].
  intros [|c chunk]; [apply read_only_ret|apply IH].
Qed.

Lemma read_only_send_message (v : json) : read_only (_send_message v).
Proof. unfold _send_message. destruct (to_bytes4 _); repeat read_only_step. Qed.

Lemma read_only_decode_message (data : bytes) : read_only (decode_message data).
Proof.
  unfold decode_message. destruct (decode_utf8 _); [|apply read_only_raise].
  destruct (loads _); [apply read_only_ret|apply read_only_raise].
Qed.

Hint Resolve read_only_receive_exact read_only_send_message
  read_only_decode_message : read_only.

Lemma read_only_file_list_loop (names : list string) :
  ∀ files, read_only (file_list_loop sha256_hex names files).
Proof.
  induction names as [|name names IH]; intros files; cbn [file_list_loop].
  - apply read_only_ret.
  - apply read_only_bind; [auto with read_only|]. intros file_path.
    apply read_only_bind; [auto with read_only|]. intros found.
    destruct found, file_path; try apply IH.
    repeat read_only_step; try apply IH.
Qed.

Lemma read_only_send_file_loop (fuel : nat) :
  ∀ data, read_only (send_file_loop fuel data).
Proof.
  induction fuel as [|fuel IH]; intros data; destruct data; cbn [send_file_loop];
    try apply read_only_ret.
  apply read_only_bind; [apply read_only_send|]. intros _. apply IH.
Qed.

Lemma read_only_send_file (p : string) : read_only (send_file p).
Proof.
  intros w. unfold send_file. destruct (disk w !! p : option bytes) as [content|].
  - apply read_only_send_file_loop.
  - by apply (read_only_raise (A := unit) OSError).
Qed.

Hint Resolve read_only_file_list_loop read_only_send_file : read_only.

Lemma read_only_process_message (message : json) :
  read_only (_process_message sha256_hex message).
Proof.
  unfold _process_message. apply read_only_bind; [auto with read_only|].
  intros msg_type.
  destruct (is_str msg_type "file_list_request").
  { unfold _handle_file_list_request. repeat read_only_step. }
  destruct (is_str msg_type "file_request").
  { unfold _handle_file_request. apply read_only_bind; [auto with read_only|].
    intros [filename|]; [|apply read_only_ret].
    destruct (negb (truthy filename)); [apply read_only_ret|].
    apply read_only_bind; [auto with read_only|]. intros file_path.
    apply read_only_bind; [auto with read_only|]. intros found.
    destruct found, file_path; repeat read_only_step. }
  destruct (is_str msg_type "ping"); repeat read_only_step.
Qed.

Lemma read_only_handle_frame (client_info : string * Z) :
  read_only (handle_frame sha256_hex client_info).
Proof.
  unfold handle_frame. apply read_only_bind; [auto with read_only|].
  intros [[|b l]|]; try apply read_only_ret.
  destruct (1048576 <? _); [apply read_only_ret|].
  apply read_only_bind; [auto with read_only|].
  intros [[|b' l']|]; try apply read_only_ret.
  apply read_only_bind; [|intros; apply read_only_ret].
  unfold dispatch. apply read_only_try_except.
  - apply read_only_bind; [auto with read_only|]. intros message.
    apply read_only_process_message.
  - intros e. destruct e; auto with read_only.
Qed.

Lemma read_only_handler_loop (running : nat) (client_info : string * Z) :
  read_only (handler_loop sha256_hex running client_info).
Proof.
  induction running as [|running IH]; cbn [handler_loop]; [apply read_only_ret|].
  apply read_only_bind; [apply read_only_handle_frame|].
  intros [|]; [exact IH|apply read_only_ret].
Qed.



(** *** The client writes the destination only *)

Lemma writes_only_pure {A} (save : option string) (m : M A) :
  (∀ w, shared_files (snd (m w)) = shared_files w
        ∧ saved_db (snd (m w)) = saved_db w
        ∧ disk (snd (m w)) = disk w) →
  writes_only save m.
Proof.
  intros H w. destruct (H w) as (H1 & H2 & H3). split_and!; auto.
  intros p _. by rewrite H3.
Qed.

Lemma writes_only_bind {A B} (save : option string) (m : M A) (f : A → M B) :
  writes_only save m → (∀ a, writes_only save (f a)) → writes_only save (m ≫= f).
Proof.
  intros Hm Hf w. rewrite bind_unfold. destruct (Hm w) as (H1 & H2 & H3).
  destruct (m w) as [[a|e] w1]; cbn [fst snd] in *; [|done].
  destruct (Hf a w1) as (G1 & G2 & G3). split_and!; try congruence.
  intros p Hp. by rewrite G3, H3.
Qed.

Lemma writes_only_try_except {A} (save : option string) (m : M A) (h : exn → M A) :
  writes_only save m → (∀ e, writes_only save (h e)) →
  writes_only save (try_except m h).
Proof.
  intros Hm Hh w. unfold try_except. destruct (Hm w) as (H1 & H2 & H3).
  destruct (m w) as [[a|e] w1]; cbn [fst snd] in *; [done|].
  destruct (Hh e w1) as (G1 & G2 & G3). split_and!; try congruence.
  intros p Hp. by rewrite G3, H3.
Qed.

Lemma writes_only_ret {A} save (a : A) : writes_only save (mret a).
Proof. by apply writes_only_pure. Qed.

Lemma writes_only_raise {A} save (e : exn) : writes_only save (raise (A := A) e).
Proof. by apply writes_only_pure. Qed.

Lemma writes_only_log save (l : log_entry) : writes_only save (_log l).
Proof. by apply writes_only_pure. Qed.

Lemma writes_only_signal save (e : event) : writes_only save (signal e).
Proof. by apply writes_only_pure. Qed.

Lemma writes_only_recv save (n : nat) : writes_only save (sock_recv n).
Proof.
  apply writes_only_pure. intros w. unfold sock_recv.
  by destruct (recv n (incoming w)) as [[c st]|].
Qed.

Lemma writes_only_send save (data : bytes) : writes_only save (sock_send data).
Proof. by apply writes_only_pure. Qed.

Lemma writes_only_close save : writes_only save sock_close.
Proof. by apply writes_only_pure. Qed.

Lemma writes_only_connect save (a : string) (p : Z) : writes_only save (sock_connect a p).
Proof. by apply writes_only_pure. Qed.

Lemma writes_only_py_get save (v : json) (k : string) : writes_only save (py_get v k).
Proof.
  destruct v; try apply (writes_only_raise save AttributeError). apply writes_only_ret.
Qed.

Lemma writes_only_as_number save (v : json) : writes_only save (as_number v).
Proof.
  destruct v; try apply (writes_only_raise save TypeError); apply writes_only_ret.
Qed.

Lemma writes_only_open_wb (save : string) : writes_only (Some save) (open_wb save).
Proof.
  intros w. cbn. split_and!; try done. intros p Hp. apply lookup_insert_ne. congruence.
Qed.

Lemma writes_only_file_write (save : string) (chunk : bytes) :
  writes_only (Some save) (file_write save chunk).
Proof.
  intros w. cbn. split_and!; try done. intros p Hp. apply lookup_insert_ne. congruence.
Qed.

Create HintDb writes_only discriminated.

Hint Resolve writes_only_ret writes_only_raise writes_only_log writes_only_signal
  writes_only_recv writes_only_send writes_only_close writes_only_connect
  writes_only_py_get writes_only_as_number writes_only_open_wb
  writes_only_file_write : writes_only.

Ltac writes_only_step :=
  first [ apply writes_only_bind; [|intros ?]
        | apply writes_only_try_except; [|intros ?]
        | solve [auto with writes_only] ].

Lemma writes_only_receive_exact save (n : nat) : writes_only save (_receive_exact n).
Proof.
  unfold _receive_exact. generalize (@nil Byte.byte). generalize n at 1 as fuel.
  intros fuel. induction fuel as [|fuel IH]; intros acc; cbn [receive_exact_loop];
    destruct (length acc <? n)%nat; try apply writes_only_ret.
  apply writes_only_bind; [apply writes_only_recv|].
  intros [|c chunk]; [apply writes_only_ret|apply IH].
Qed.

Lemma writes_only_send_message save (v : json) : writes_only save (_send_message v).
Proof. unfold _send_message. destruct (to_bytes4 _); repeat writes_only_step. Qed.

Lemma writes_only_receive_message save : writes_only save _receive_message.
Proof.
  unfold _receive_message. apply writes_only_try_except.
  - apply writes_only_bind; [apply writes_only_receive_exact|].
    intros [[|b l]|]; try apply writes_only_ret.
    destruct (1048576 <? _); [apply writes_only_ret|].
    apply writes_only_bind; [apply writes_only_receive_exact|].
    intros [[|b' l']|]; try apply writes_only_ret.
    apply writes_only_bind; [|intros; apply writes_only_ret].
    unfold decode_message. destruct (decode_utf8 _); [|apply writes_only_raise].
    destruct (loads _); [apply writes_only_ret|apply writes_only_raise].
  - intros e. repeat writes_only_step.
Qed.

Hint Resolve writes_only_send_message writes_only_receive_message : writes_only.

Lemma writes_only_receive_file_loop (fuel : nat) (save : string) (N : Z) :
  ∀ r, writes_only (Some save) (receive_file_loop fuel save N r).
Proof.
  induction fuel as [|fuel IH]; intros r; cbn [receive_file_loop];
    destruct (r <? N); try apply writes_only_ret.
  apply writes_only_bind; [apply writes_only_recv|].
  intros [|c chunk]; [apply writes_only_ret|].
  apply writes_only_bind; [apply writes_only_file_write|]. intros _. apply IH.
Qed.

Ltac writes_only_case :=
  match goal with
  | |- writes_only _ (if ?b then _ else _) => destruct b
  | |- writes_only _ (match ?x with _ => _ end) => destruct x
  end.

Ltac writes_only_run :=
  repeat first [ solve [auto with writes_only]
               | apply writes_only_receive_file_loop
               | writes_only_step
               | writes_only_case
               | progress unfold save_file, download_failed ].

Lemma writes_only_request_file (peer filename save : string)
    (services : option (list Z)) :
  writes_only (Some save) (request_file peer filename save services).
Proof. unfold request_file. writes_only_run. Qed.

Lemma writes_only_get_peer_files (peer : string) (services : option (list Z)) :
  writes_only None (get_peer_files peer services).
Proof. unfold get_peer_files. writes_only_run. Qed.

Lemma writes_only_ping_peer (peer : string) (services : option (list Z)) :
  writes_only None (ping_peer peer services).
Proof. unfold ping_peer. writes_only_run. Qed.

Lemma total_try_except {A} (m : M A) (h : exn → M A) :
  (∀ e, total (h e)) → total (try_except m h).
Proof.
  intros Hh w. unfold try_except. destruct (m w) as [[a|e] w1]; [by eexists|].
  apply Hh.
Qed.

(** Whatever the lookup finds and whatever arrives on the connection, the
    three operations of the client raise nothing: each returns its value
    of failure instead.  None of them changes the catalog or its saved
    copy; [get_peer_files] and [ping_peer] write no file, and
    [request_file] writes no file but its destination. *)
Theorem client_operations_are_contained (peer filename save : string)
    (services : option (list Z)) (w : world) :
  let fetch := request_file peer filename save services w in
  let files := get_peer_files peer services w in
  let ping := ping_peer peer services w in
  ((∃ b, fetch.1 = Ok b)
   ∧ shared_files fetch.2 = shared_files w ∧ saved_db fetch.2 = saved_db w
   ∧ ∀ p, p ≠ save → disk fetch.2 !! p = disk w !! p)
  ∧ ((∃ l, files.1 = Ok l)
     ∧ shared_files files.2 = shared_files w ∧ saved_db files.2 = saved_db w
     ∧ disk files.2 = disk w)
  ∧ ((∃ b, ping.1 = Ok b)
     ∧ shared_files ping.2 = shared_files w ∧ saved_db ping.2 = saved_db w
     ∧ disk ping.2 = disk w).
Proof.
  intros fetch files ping. split_and!.
  - apply (total_try_except _ (download_failed peer filename)).
    intros e w'. unfold download_failed. destruct e; by eexists.
  - apply (writes_only_request_file peer filename save services w).
  - apply (writes_only_request_file peer filename save services w).
  - intros p Hp.
    apply (writes_only_request_file peer filename save services w). congruence.
  - unfold files, get_peer_files. apply total_try_except.
    intros e w'. destruct e; by eexists.
  - apply (writes_only_get_peer_files peer services w).
  - apply (writes_only_get_peer_files peer services w).
  - apply map_eq. intros p.
    by apply (writes_only_get_peer_files peer services w).
  - unfold ping, ping_peer. apply total_try_except. intros e w'. by eexists.
  - apply (writes_only_ping_peer peer services w).
  - apply (writes_only_ping_peer peer services w).
  - apply map_eq. intros p. by apply (writes_only_ping_peer peer services w).
Qed.

End Untouched.

(** ** The server: frames that hold no request *)

Section Malformed.
Import PyJson Wire Network Protocol Session.

Variable sha256_hex : bytes → string.
Variable client_info : string * Z.

Lemma decode_utf8_bad_lead (b : Byte.byte) (rest : bytes) :
  bad_lead b = true → decode_utf8 (b :: rest) = None.
Proof. destruct b; first [discriminate | reflexivity]. Qed.

Lemma parse_value_no_value (fuel : nat) (c : ascii) (r : text) :
  starts_no_value c = true → parse_value fuel (c :: r) = None.
Proof.
  intros H. destruct fuel as [|fuel]; [done|].
  destruct c as [[] [] [] [] [] [] [] []]; first [discriminate H | reflexivity].
Qed.

Lemma loads_no_json (s : string) : no_json s = true → loads s = None.
Proof.
  unfold no_json, loads. intros H.
  destruct (skip_ws (list_ascii_of_string s)) as [|c r]; [done|].
  by rewrite parse_value_no_value.
Qed.

(** The turn of the loop for a frame whose payload is [payload] *)
Lemma turn_of_frame (w : world) (prefix payload more : bytes) :
  length prefix = 4%nat → from_bytes prefix = Z.of_nat (length payload) →
  payload ≠ [] → Z.of_nat (length payload) <= 1048576 →
  stream_bytes (incoming w) = prefix ++ payload ++ more →
  ∃ st' cs',
    handle_frame sha256_hex client_info w
    = (dispatch sha256_hex client_info payload;; mret Continue)
        (set_socket st' (calls w ++ cs') w)
    ∧ stream_bytes st' = more
    ∧ received cs' = prefix ++ payload
    ∧ sent cs' = [].
Proof.
  intros Hp Hf Hne Hlen Hst.
  destruct (frame_processed_in_limit sha256_hex client_info w prefix payload more
              Hp Hf Hne Hlen Hst) as (st' & cs' & Hh & Hs & Hrc & Hall).
  exists st', cs'. split_and!; auto using only_recv_sent.
Qed.


(** A frame whose payload is not UTF-8, or is JSON that is not a dict,
    ends the connection: the exception is not the one that the turn of the
    loop catches, so [_handle_client] logs it, sends nothing, and closes the
    connection, leaving unread what follows. *)
Theorem frames_that_close_the_connection (running client_socket : nat) (w : world)
    (prefix payload more : bytes) :
  length prefix = 4%nat → from_bytes prefix = Z.of_nat (length payload) →
  payload ≠ [] → Z.of_nat (length payload) <= 1048576 →
  stream_bytes (incoming w) = prefix ++ payload ++ more →
  ((∃ b rest, payload = b :: rest ∧ bad_lead b = true) →
   ∃ st' cs',
     _handle_client sha256_hex (S running) client_socket client_info w
     = (Ok (), hung_up client_socket client_info
                 (add_log (LogHandlerError UnicodeDecodeError)
                          (set_socket st' (calls w ++ cs') w)))
     ∧ stream_bytes st' = more ∧ sent cs' = [])
  ∧ (∀ text v, decode_utf8 payload = Some text → loads text = Some v →
       (∀ d, v ≠ JObj d) →
       ∃ st' cs',
         _handle_client sha256_hex (S running) client_socket client_info w
         = (Ok (), hung_up client_socket client_info
                     (add_log (LogHandlerError AttributeError)
                              (set_socket st' (calls w ++ cs') w)))
         ∧ stream_bytes st' = more ∧ sent cs' = []).
Proof.
  intros Hp Hf Hne Hlen Hst.
  destruct (turn_of_frame w prefix payload more Hp Hf Hne Hlen Hst)
    as (st' & cs' & Hh & Hs & Hrc & Hsn).
  split.
  - intros (b & rest & -> & Hb). exists st', cs'. split_and!; auto.
    apply (handle_client_raise sha256_hex client_info running client_socket w
             (set_socket st' (calls w ++ cs') w) UnicodeDecodeError).
    rewrite Hh, bind_unfold. unfold dispatch, try_except. rewrite bind_unfold.
    unfold decode_message. rewrite (decode_utf8_bad_lead b rest Hb). reflexivity.
  - intros text v Hd Hl Hv. exists st', cs'. split_and!; auto.
    apply (handle_client_raise sha256_hex client_info running client_socket w
             (set_socket st' (calls w ++ cs') w) AttributeError).
    rewrite Hh, bind_unfold, (dispatch_decoded _ _ _ _ _ _ Hd Hl).
    unfold _process_message. rewrite bind_unfold. unfold py_get.
    destruct v as [ | | | | |d]; try reflexivity. by destruct (Hv d).
Qed.

End Malformed.


Lemma frames_that_close_the_connection_witness :
  ∃ st' cs',
    Network._handle_client (λ _, EmptyString) 1 0 ("AA:BB"%string, 1)
      (Protocol.world_of
         (Wire.Chunk ([Byte.x00; Byte.x00; Byte.x00; Byte.x01] ++ [Byte.xff] ++ [])
                     Wire.Closed))
    = (Wire.Ok (),
       Network.hung_up 0 ("AA:BB"%string, 1)
         (Wire.add_log (Wire.LogHandlerError Wire.UnicodeDecodeError)
            (Wire.set_socket st' ([] ++ cs')
               (Protocol.world_of
                  (Wire.Chunk
                     ([Byte.x00; Byte.x00; Byte.x00; Byte.x01] ++ [Byte.xff] ++ [])
                     Wire.Closed)))))
    ∧ Wire.stream_bytes st' = [] ∧ Wire.sent cs' = [].
Proof.
  apply (frames_that_close_the_connection (λ _, EmptyString) ("AA:BB"%string, 1) 0 0
           (Protocol.world_of
              (Wire.Chunk
                 ([Byte.x00; Byte.x00; Byte.x00; Byte.x01] ++ [Byte.xff] ++ [])
                 Wire.Closed))
           [Byte.x00; Byte.x00; Byte.x00; Byte.x01] [Byte.xff] []).
  - reflexivity.
  - reflexivity.
  - discriminate.
  - vm_compute. discriminate.
  - reflexivity.
  - exists Byte.xff, []. split; reflexivity.
Defined.


(** ** The files written with [indent=2] are read back *)

Section IndentedJson.
Import PyJson Wire Network Manager Session JsonFile.

Lemma skip_ws_spaces (n : nat) (t : text) :
  skip_ws (repeat " "%char n ++ t) = skip_ws t.
Proof. induction n as [|n IH]; [reflexivity|]. cbn [repeat app skip_ws]. exact IH. Qed.

Lemma skip_ws_newline_indent (level : nat) (t : text) :
  skip_ws (newline_indent level ++ t) = skip_ws t.
Proof. unfold newline_indent. cbn [app skip_ws]. apply skip_ws_spaces. Qed.

Lemma number_ends_newline_indent (level : nat) (t : text) :
  number_ends (newline_indent level ++ t) = true.
Proof. reflexivity. Qed.

Lemma print_indent_first (level : nat) (v : json) :
  ∃ c r, print_indent level v = c :: r ∧ opens c.
Proof.
  destruct v as [ |b|z|s|[|x l]|[|x l]];
    try apply (print_first JNull); try apply (print_first (JBool b));
    try apply (print_first (JInt z)); try apply (print_first (JStr s));
    cbn [print_indent]; eexists _, _; (split; [reflexivity|by repeat split]).
Qed.

Lemma skip_ws_print_indent (level : nat) (v : json) (t : text) :
  skip_ws (print_indent level v ++ t) = print_indent level v ++ t.
Proof.
  destruct (print_indent_first level v) as (c & r & -> & Hc).
  by apply skip_ws_opens.
Qed.

Lemma join_with_cons2 (sep x y : text) (r : list text) :
  join_with sep (x :: y :: r) = x ++ sep ++ join_with sep (y :: r).
Proof. reflexivity. Qed.

Lemma join_with_first (sep x : text) (l : list text) (tail : text) :
  (∃ c r, x = c :: r ∧ opens c) →
  ∃ c r, join_with sep (x :: l) ++ tail = c :: r ∧ opens c.
Proof.
  intros (c & r & -> & Hc). destruct l as [|y l].
  - by exists c, (r ++ tail).
  - rewrite join_with_cons2. cbn [app]. eexists _, _. split; [reflexivity|done].
Qed.

Lemma parse_array_indent (fuel level : nat) (c : ascii) (r : text) :
  opens c →
  parse_value (S fuel) ("["%char :: newline_indent level ++ c :: r)
  = match parse_items fuel (c :: r) with
    | Some (vs, rest) => Some (JArr vs, rest)
    | None => None
    end.
Proof.
  intros Hc. pose proof (skip_ws_opens c r Hc) as Hs. destruct Hc as (_ & Hb & _).
  cbn [parse_value]. change (Ascii.eqb "[" dquote) with false.
  change (Ascii.eqb "[" "{") with false. change (Ascii.eqb "[" "[") with true.
  cbn iota. rewrite skip_ws_newline_indent, Hs, Hb. reflexivity.
Qed.

Lemma parse_object_indent (fuel level : nat) (c : ascii) (r : text) :
  opens c →
  parse_value (S fuel) ("{"%char :: newline_indent level ++ c :: r)
  = match parse_members fuel (c :: r) with
    | Some (ms, rest) => Some (JObj (dict_of_pairs ms), rest)
    | None => None
    end.
Proof.
  intros Hc. pose proof (skip_ws_opens c r Hc) as Hs. destruct Hc as (_ & _ & Hb).
  cbn [parse_value]. change (Ascii.eqb "{" dquote) with false.
  change (Ascii.eqb "{" "{") with true.
  cbn iota. rewrite skip_ws_newline_indent, Hs, Hb. reflexivity.
Qed.

Lemma parse_item_indent (fuel : nat) (s : text) (v : json) (tail : text) :
  parse_value fuel s = Some (v, tail) →
  parse_items (S fuel) s
  = match skip_ws tail with
    | c :: r =>
        if Ascii.eqb c ","%char then
          match parse_items fuel (skip_ws r) with
          | Some (vs, rest') => Some (v :: vs, rest')
          | None => None
          end
        else if Ascii.eqb c "]"%char then Some ([v], r)
        else None
    | [] => None
    end.
Proof. intros H. cbn [parse_items]. by rewrite H. Qed.

Lemma parse_member_indent (fuel : nat) (k : string) (s : text) (v : json)
    (tail : text) :
  skip_ws s = s → parse_value fuel s = Some (v, tail) →
  parse_members (S fuel) (print_string k ++ lit ": " ++ s)
  = match skip_ws tail with
    | c :: r =>
        if Ascii.eqb c ","%char then
          match parse_members fuel (skip_ws r) with
          | Some (ms, rest') => Some ((k, v) :: ms, rest')
          | None => None
          end
        else if Ascii.eqb c "}"%char then Some ([(k, v)], r)
        else None
    | [] => None
    end.
Proof.
  intros Hs H. unfold print_string. cbn [app parse_members].
  change (Ascii.eqb dquote dquote) with true. cbn iota.
  rewrite <- app_assoc. cbn [app]. rewrite scanstring_escape.
  cbn [lit list_ascii_of_string app skip_ws is_ws Ascii.eqb Bool.eqb orb].
  by rewrite Hs, H.
Qed.

Lemma parse_items_indent (l : list json) :
  Forall reads_back_indent l → forallb well_formed l = true → l ≠ [] →
  ∀ (level outer fuel : nat) (rest : text),
    (list_sum (map (λ x, S (PyJson.size x)) l) <= fuel)%nat →
    parse_items fuel
      (join_with (item_separator level) (map (print_indent level) l)
       ++ newline_indent outer ++ "]"%char :: rest)
    = Some (l, rest).
Proof.
  induction l as [|x l IH]; [done|].
  intros HF Hwf _ level outer fuel rest Hfuel.
  apply Forall_cons in HF as [Hx HF].
  cbn [forallb] in Hwf. apply andb_true_iff in Hwf as [Hwx Hwf].
  cbn [map] in Hfuel. rewrite list_sum_cons in Hfuel.
  destruct fuel as [|fuel]; [lia|].
  destruct l as [|y l].
  - cbn [map join_with].
    rewrite (parse_item_indent _ _ x (newline_indent outer ++ "]"%char :: rest)).
    + by rewrite skip_ws_newline_indent.
    + cbn in Hfuel. apply Hx; [done|lia|reflexivity].
  - cbn [map]. rewrite join_with_cons2, <- !app_assoc.
    rewrite (parse_item_indent _ _ x
               (item_separator level
                ++ join_with (item_separator level)
                     (print_indent level y :: map (print_indent level) l)
                ++ newline_indent outer ++ "]"%char :: rest)).
    + unfold item_separator at 1. cbn [app skip_ws is_ws Ascii.eqb Bool.eqb orb].
      rewrite skip_ws_newline_indent.
      destruct (join_with_first (item_separator level) (print_indent level y)
                  (map (print_indent level) l)
                  (newline_indent outer ++ "]"%char :: rest)
                  (print_indent_first level y)) as (c & r & Hj & Hc).
      rewrite Hj, (skip_ws_opens c r Hc), <- Hj.
      change (print_indent level y :: map (print_indent level) l)
        with (map (print_indent level) (y :: l)).
      rewrite IH; [reflexivity|done|done|done|lia].
    + apply Hx; [done|lia|reflexivity].
Qed.

Lemma parse_members_indent (l : list (string * json)) :
  Forall (λ kv, reads_back_indent (snd kv)) l →
  forallb (λ kv, well_formed (snd kv)) l = true → l ≠ [] →
  ∀ (level outer fuel : nat) (rest : text),
    (list_sum (map (λ kv, S (PyJson.size (snd kv))) l) <= fuel)%nat →
    parse_members fuel
      (join_with (item_separator level) (map (print_member_indent level) l)
       ++ newline_indent outer ++ "}"%char :: rest)
    = Some (l, rest).
Proof.
  induction l as [|[k x] l IH]; [done|].
  intros HF Hwf _ level outer fuel rest Hfuel.
  apply Forall_cons in HF as [Hx HF]. cbn [snd] in Hx.
  cbn [forallb snd] in Hwf. apply andb_true_iff in Hwf as [Hwx Hwf].
  cbn [map snd] in Hfuel. rewrite list_sum_cons in Hfuel.
  destruct fuel as [|fuel]; [lia|].
  destruct l as [|y l].
  - cbn [map join_with]. unfold print_member_indent at 1. cbn [fst snd].
    rewrite <- !app_assoc.
    rewrite (parse_member_indent _ _ _ x (newline_indent outer ++ "}"%char :: rest)).
    + by rewrite skip_ws_newline_indent.
    + apply skip_ws_print_indent.
    + cbn in Hfuel. apply Hx; [done|lia|reflexivity].
  - cbn [map]. rewrite join_with_cons2. unfold print_member_indent at 1.
    cbn [fst snd]. rewrite <- !app_assoc.
    rewrite (parse_member_indent _ _ _ x
               (item_separator level
                ++ join_with (item_separator level)
                     (print_member_indent level y
                      :: map (print_member_indent level) l)
                ++ newline_indent outer ++ "}"%char :: rest)).
    + unfold item_separator at 1. cbn [app skip_ws is_ws Ascii.eqb Bool.eqb orb].
      rewrite skip_ws_newline_indent.
      destruct (join_with_first (item_separator level) (print_member_indent level y)
                  (map (print_member_indent level) l)
                  (newline_indent outer ++ "}"%char :: rest))
        as (c & r & Hj & Hc).
      { eexists _, _. split; [reflexivity|by repeat split]. }
      rewrite Hj, (skip_ws_opens c r Hc), <- Hj.
      change (print_member_indent level y :: map (print_member_indent level) l)
        with (map (print_member_indent level) (y :: l)).
      rewrite IH; [reflexivity|done|done|done|lia].
    + apply skip_ws_print_indent.
    + apply Hx; [done|lia|reflexivity].
Qed.

Lemma print_indent_array (level : nat) (x : json) (l : list json) (rest : text) :
  print_indent level (JArr (x :: l)) ++ rest
  = "["%char :: newline_indent (S level)
      ++ (join_with (item_separator (S level))
            (map (print_indent (S level)) (x :: l))
          ++ newline_indent level ++ "]"%char :: rest).
Proof.
  cbn [print_indent]. cbn [app]. f_equal. rewrite <- !app_assoc.
  do 3 f_equal.
Qed.

Lemma print_indent_object (level : nat) (x : string * json)
    (l : list (string * json)) (rest : text) :
  print_indent level (JObj (x :: l)) ++ rest
  = "{"%char :: newline_indent (S level)
      ++ (join_with (item_separator (S level))
            (map (print_member_indent (S level)) (x :: l))
          ++ newline_indent level ++ "}"%char :: rest).
Proof.
  cbn [print_indent]. cbn [app]. f_equal. rewrite <- !app_assoc.
  do 3 f_equal.
Qed.

Lemma parse_print_indent (v : json) : reads_back_indent v.
Proof.
  induction v as [ |b|z|s|l IH|l IH] using json_nested_ind;
    intros Hwf level fuel rest Hfuel Hrest.
  - by apply (parse_print JNull).
  - by apply (parse_print (JBool b)).
  - by apply (parse_print (JInt z)).
  - by apply (parse_print (JStr s)).
  - destruct fuel as [|fuel]; [cbn in Hfuel; lia|].
    destruct l as [|x l]; [reflexivity|]. rewrite print_indent_array.
    destruct (join_with_first (item_separator (S level)) (print_indent (S level) x)
                (map (print_indent (S level)) l)
                (newline_indent level ++ "]"%char :: rest)
                (print_indent_first (S level) x)) as (c & r & Hj & Hc).
    cbn [map]. rewrite Hj, parse_array_indent, <- Hj by done.
    change (print_indent (S level) x :: map (print_indent (S level)) l)
      with (map (print_indent (S level)) (x :: l)).
    rewrite parse_items_indent; [reflexivity|done|done|done|].
    cbn [PyJson.size] in Hfuel. lia.
  - destruct fuel as [|fuel]; [cbn in Hfuel; lia|].
    destruct l as [|x l]; [reflexivity|]. rewrite print_indent_object.
    cbn [well_formed] in Hwf. apply andb_true_iff in Hwf as [Hd Hwf].
    destruct (join_with_first (item_separator (S level))
                (print_member_indent (S level) x)
                (map (print_member_indent (S level)) l)
                (newline_indent level ++ "}"%char :: rest))
      as (c & r & Hj & Hc).
    { eexists _, _. split; [reflexivity|by repeat split]. }
    cbn [map]. rewrite Hj, parse_object_indent, <- Hj by done.
    change (print_member_indent (S level) x :: map (print_member_indent (S level)) l)
      with (map (print_member_indent (S level)) (x :: l)).
    rewrite parse_members_indent; [|done|done|done|].
    + by rewrite dict_of_pairs_distinct.
    + cbn [PyJson.size] in Hfuel. lia.
Qed.

Lemma join_with_length_bound {A} (sep : text) (g : A → text) (sz : A → nat)
    (l : list A) :
  (1 <= length sep)%nat →
  Forall (λ x, (sz x <= length (g x))%nat) l →
  (list_sum (map (λ x, S (sz x)) l) <= length (join_with sep (map g l)) + 1)%nat.
Proof.
  intros Hsep. induction l as [|x l IH]; [cbn; lia|].
  intros [Hx HF]%Forall_cons. specialize (IH HF).
  cbn [map]. rewrite list_sum_cons. destruct l as [|y l].
  - cbn. lia.
  - cbn [map] in *. rewrite join_with_cons2, !length_app. lia.
Qed.

Lemma size_le_length_indent (v : json) :
  ∀ level, (PyJson.size v <= length (print_indent level v))%nat.
Proof.
  induction v as [ |b|z|s|l IH|l IH] using json_nested_ind; intros level.
  - apply (size_le_length JNull).
  - apply (size_le_length (JBool b)).
  - apply (size_le_length (JInt z)).
  - apply (size_le_length (JStr s)).
  - destruct l as [|x l]; [cbn; lia|].
    pose proof (print_indent_array level x l []) as Hp. rewrite app_nil_r in Hp.
    rewrite Hp. cbn [PyJson.size length]. rewrite !length_app.
    pose proof (join_with_length_bound (item_separator (S level))
                  (print_indent (S level)) PyJson.size (x :: l)) as H.
    cbn [length] in *. apply le_n_S.
    etrans; [apply H|]; [cbn; lia| |lia].
    eapply Forall_impl; [exact IH|]. intros y Hy. apply Hy.
  - destruct l as [|x l]; [cbn; lia|].
    pose proof (print_indent_object level x l []) as Hp. rewrite app_nil_r in Hp.
    rewrite Hp. cbn [PyJson.size length]. rewrite !length_app.
    pose proof (join_with_length_bound (item_separator (S level))
                  (print_member_indent (S level)) (λ kv, PyJson.size (snd kv))
                  (x :: l)) as H.
    cbn [length] in *. apply le_n_S.
    etrans; [apply H|]; [cbn; lia| |lia].
    eapply Forall_impl; [exact IH|]. intros [k y] Hy. unfold print_member_indent.
    rewrite !length_app. cbn [fst snd] in *. specialize (Hy (S level)). lia.
Qed.

Lemma loads_dumps_indent (v : json) :
  well_formed v = true → loads (dumps_indent v) = Some v.
Proof.
  intros Hwf. unfold loads, dumps_indent.
  rewrite list_ascii_of_string_of_list_ascii.
  pose proof (skip_ws_print_indent 0 v []) as Hs. rewrite app_nil_r in Hs.
  rewrite Hs.
  pose proof (parse_print_indent v Hwf 0%nat (S (length (print_indent 0 v))) []) as H.
  rewrite app_nil_r in H. rewrite H; [reflexivity| |reflexivity].
  pose proof (size_le_length_indent v 0). lia.
Qed.

Lemma NoDup_distinct (l : list string) : NoDup l → distinct l = true.
Proof.
  induction 1 as [|k l Hk Hl IH]; [reflexivity|]. cbn [distinct].
  rewrite IH, andb_true_r. apply negb_true_iff, not_true_iff_false.
  intros (k' & Hin & Heq)%existsb_exists. apply String.eqb_eq in Heq as ->.
  by apply Hk, list_elem_of_In.
Qed.

Lemma catalog_json_well_formed (catalog : gmap string file_info) :
  well_formed (catalog_json catalog) = true.
Proof.
  unfold catalog_json. cbn [well_formed]. apply andb_true_iff. split.
  - rewrite map_map. cbn [fst]. apply NoDup_distinct.
    apply (NoDup_fst_map_to_list catalog).
  - apply forallb_forall. intros kv (x & <- & _)%in_map_iff. reflexivity.
Qed.

Lemma catalog_json_inj (a b : gmap string file_info) :
  catalog_json a = catalog_json b → a = b.
Proof.
  unfold catalog_json. intros [= H].
  rewrite <- (list_to_map_to_list a), <- (list_to_map_to_list b). f_equal.
  revert H. generalize (map_to_list a) (map_to_list b).
  induction l as [|[k x] l IH]; intros [|[k' x'] l']; cbn; try done.
  destruct x, x'. cbn. intros [= -> -> -> -> -> Hl]. f_equal. by apply IH.
Qed.

Lemma summary_json_well_formed (sm : summary) :
  well_formed (summary_json sm) = true.
Proof.
  unfold summary_json. cbn [well_formed map fst snd forallb andb distinct].
  apply andb_true_iff. split; [reflexivity|]. rewrite andb_true_r.
  apply forallb_forall. intros v (f & <- & _)%in_map_iff. reflexivity.
Qed.

(** What [_save_shared_files] writes for a catalog is read back by
    [_load_shared_files] as the dict of that catalog, with its entries in
    the same order, and the dict determines the catalog: nothing of it is
    lost in the file. *)
Theorem saved_catalog_is_loaded (catalog : gmap string file_info) :
  _load_shared_files (Some (db_file catalog)) = Ok (catalog_json catalog)
  ∧ ∀ other, catalog_json other = catalog_json catalog → other = catalog.
Proof.
  split.
  - unfold _load_shared_files, db_file.
    by rewrite decode_encode_utf8, loads_dumps_indent
      by apply catalog_json_well_formed.
  - intros other. apply catalog_json_inj.
Qed.

(** Without a database file the catalog starts empty, and so it does when
    the file holds no JSON value (an empty file, white space, or a text
    that starts with a character no value starts with): the error is
    swallowed.  A file whose first byte starts no UTF-8 sequence is
    different: [UnicodeDecodeError] is not among the exceptions caught and
    leaves [_load_shared_files]. *)
Theorem unreadable_database :
  _load_shared_files None = Ok (JObj [])
  ∧ (∀ s, no_json s = true →
       _load_shared_files (Some (encode_utf8 s)) = Ok (JObj []))
  ∧ (∀ b rest, bad_lead b = true →
       _load_shared_files (Some (b :: rest)) = Raise UnicodeDecodeError).
Proof.
  split_and!.
  - reflexivity.
  - intros s Hs. unfold _load_shared_files.
    by rewrite decode_encode_utf8, loads_no_json.
  - intros b rest Hb. unfold _load_shared_files.
    by rewrite decode_utf8_bad_lead.
Qed.

Lemma unreadable_database_witness :
  _load_shared_files (Some (encode_utf8 "shared files")) = Ok (JObj [])
  ∧ _load_shared_files (Some [Byte.xff]) = Raise UnicodeDecodeError.
Proof.
  split; [apply unreadable_database|apply unreadable_database]; reflexivity.
Defined.

(** The export writes one file, the summary of the catalog with
    [indent=2], and answers [True]; [json.load] reads the summary back
    from it.  When the file cannot be opened the export answers [False] and
    changes nothing.  The catalog is as it was in both cases. *)
Theorem exported_list_reads_back (writable : bool) (output_file : string)
    (w : world) :
  let r := export_shared_files_list writable output_file w in
  ∃ sm, get_shared_files_summary w = (Ok sm, w)
        ∧ r.1 = Ok writable
        ∧ shared_files r.2 = shared_files w
        ∧ (writable = false → r.2 = w)
        ∧ (writable = true →
             ∃ content text,
               disk r.2 = <[output_file := content]> (disk w)
               ∧ decode_utf8 content = Some text
               ∧ loads text = Some (summary_json sm)).
Proof.
  intros r.
  assert (∃ sm, get_shared_files_summary w = (Ok sm, w)) as [sm Hsm].
  { unfold get_shared_files_summary.
    rewrite (summary_loop_spec (disk w)) by done. by eexists. }
  exists sm. split; [exact Hsm|].
  unfold r, export_shared_files_list. rewrite (bind_ok _ _ w w sm Hsm).
  destruct writable; cbn [negb].
  - rewrite bind_unfold. unfold write_text, mret, M_ret. cbn [fst snd].
    split_and!; [done|by destruct w|done|].
    intros _. eexists _, _. split_and!.
    + by destruct w.
    + apply decode_encode_utf8.
    + apply loads_dumps_indent, summary_json_well_formed.
  - unfold mret, M_ret. cbn [fst snd]. split_and!; [done|done|done|done].
Qed.

End IndentedJson.


(** ** The address of the selected peer *)

Section SelectedPeer.
Import Gui.
Local Open Scope string_scope.

Lemma append_cons (c : ascii) (a b : string) : String c a ++ b = String c (a ++ b).
Proof. reflexivity. Qed.

Lemma append_assoc (a b c : string) : (a ++ b) ++ c = a ++ b ++ c.
Proof. induction a as [|x a IH]; [done|]. rewrite !append_cons. by rewrite IH. Qed.

Lemma prefix_empty (s : string) : String.prefix EmptyString s = true.
Proof. by destruct s. Qed.

Lemma contains_cons (sep : string) (c : ascii) (s : string) :
  contains sep (String c s) = String.prefix sep (String c s) || contains sep s.
Proof. reflexivity. Qed.

Lemma prefix_paren_app (c : ascii) (first rest : string) :
  String.prefix " (" (String c first) = false →
  String.prefix " (" (String c first ++ " (" ++ rest) = false.
Proof.
  rewrite (append_cons c first). cbn [String.prefix].
  destruct (Ascii.ascii_dec " " c) as [<-|]; [|done].
  destruct first as [|d first]; [done|].
  rewrite (append_cons d first). cbn [String.prefix].
  destruct (Ascii.ascii_dec "(" d); [by destruct first|done].
Qed.

Lemma split_go_app (first rest : string) :
  contains " (" first = false →
  split_go " (" 0 (first ++ " (" ++ rest) = (first, split " (" rest).
Proof.
  induction first as [|c first IH]; intros H.
  - change (EmptyString ++ " (" ++ rest) with (String " " (String "(" rest)).
    unfold split. cbn. rewrite prefix_empty. by destruct (split_go " (" 0 rest).
  - rewrite contains_cons in H. apply orb_false_iff in H as [Hp Hc].
    rewrite (append_cons c first). cbn [split_go].
    rewrite <- (append_cons c first), (prefix_paren_app c first rest Hp).
    by rewrite (IH Hc).
Qed.

Lemma split_go_none (s : string) :
  contains " (" s = false → split_go " (" 0 s = (s, []).
Proof.
  induction s as [|c s IH]; intros H; [done|].
  rewrite contains_cons in H. apply orb_false_iff in H as [Hp Hc].
  cbn [split_go]. by rewrite Hp, (IH Hc).
Qed.

Lemma contains_app (sep a b : string) :
  contains sep b = true → contains sep (a ++ b) = true.
Proof.
  intros H. induction a as [|c a IH]; [done|].
  rewrite append_cons, contains_cons, IH. apply orb_true_r.
Qed.

Lemma contains_display_text (name address : string) :
  contains " (" (display_text name address)
  && contains ")" (display_text name address) = true.
Proof.
  unfold display_text. apply andb_true_iff. split.
  - apply contains_app.
    change (" (" ++ address ++ ")") with (String " " (String "(" (address ++ ")"))).
    rewrite contains_cons. cbn [String.prefix].
    destruct (Ascii.ascii_dec " " " ") as [_|]; [|done].
    destruct (Ascii.ascii_dec "(" "(") as [_|]; [|done].
    by rewrite prefix_empty.
  - apply contains_app. apply (contains_app ")" " (").
    apply contains_app. reflexivity.
Qed.

Lemma rstrip_app_paren (s : string) : rstrip ")" (s ++ ")") = rstrip ")" s.
Proof.
  induction s as [|c s IH]; [reflexivity|].
  rewrite append_cons. cbn [rstrip]. by rewrite IH.
Qed.

(** When the name of a peer has no [" ("] in it, the address taken from
    its line of the list is the address of the peer (an address holds no
    [" ("] and does not end with a parenthesis).  When the name has one,
    as in [Phone (work)], the text taken is the part of the name after it,
    up to its closing parentheses, and not the address. *)
Theorem selected_peer_address (name address : string) :
  contains " (" address = false → rstrip ")" address = address →
  (contains " (" name = false →
     peer_address_of (display_text name address) = Some address)
  ∧ (∀ a b, name = a ++ " (" ++ b →
       contains " (" a = false → contains " (" b = false →
       peer_address_of (display_text name address) = Some (rstrip ")" b)).
Proof.
  intros Ha Hr. unfold peer_address_of. rewrite contains_display_text.
  assert (split " (" (address ++ ")") = [address ++ ")"]) as Hlast.
  { unfold split. rewrite split_go_none; [done|].
    clear Hr. induction address as [|c s IH]; [done|].
    rewrite contains_cons in Ha. apply orb_false_iff in Ha as [Hp Hc].
    rewrite append_cons, contains_cons, (IH Hc), orb_false_r.
    revert Hp. cbn [String.prefix]. destruct (Ascii.ascii_dec " " c); [|done].
    destruct s as [|d s]; [done|].
    rewrite (append_cons d s). cbn [String.prefix].
    destruct (Ascii.ascii_dec "(" d); [by destruct s|done]. }
  split.
  - intros Hn. unfold display_text, split.
    rewrite (split_go_app name _ Hn), Hlast.
    by rewrite rstrip_app_paren, Hr.
  - intros a b -> Hna Hnb. unfold display_text, split.
    rewrite !append_assoc.
    rewrite (split_go_app a _ Hna).
    unfold split. rewrite (split_go_app b _ Hnb). reflexivity.
Qed.

Lemma selected_peer_address_witness :
  peer_address_of (display_text "Laptop" "AA:BB:CC:DD:EE:FF")
  = Some "AA:BB:CC:DD:EE:FF"
  ∧ peer_address_of (display_text "Phone (work)" "AA:BB:CC:DD:EE:FF")
    = Some "work".
Proof.
  split.
  - apply (selected_peer_address "Laptop" "AA:BB:CC:DD:EE:FF"); reflexivity.
  - apply (selected_peer_address "Phone (work)" "AA:BB:CC:DD:EE:FF"
             eq_refl eq_refl) with (a := "Phone") (b := "work)"); reflexivity.
Defined.

End SelectedPeer.
